(** * discord_compressor: chunked compression and reassembly

    A shallow embedding of [src/discord_compressor.cpp]: the packed
    [ChunkMetadata] header, the in-memory [ChunkData] slots, the
    [ThreadPool] used as a one-shot barrier, the two top-level operations
    [compress_file] and [decompress_file], and [main], over an explicit
    file-system state.

    Conventions of the embedding.
    - C++ unsigned integers are [Z] with the wrap-around written out
      ([size_t] is 64 bits, [uint32_t] 32 bits); object representations are
      little-endian, as on the platforms the program is built for.
    - A value that C++ leaves indeterminate (a struct field that is declared
      but never assigned or read from a stream) is [None]; using it is
      [Undefined], as is indexing a [std::vector] past its end.  Nothing is
      said of a run from its first undefined operation on.
    - Each operation is given twice.  [compress_file_body] and
      [decompress_file_body] are the statements of the function: the file
      system when control leaves the block, and how it leaves it.
      [compress_file] and [decompress_file] are the calls: both functions
      call [pool.~ThreadPool()] on an automatic object, which is destroyed
      again when its block is left, so a call that gets past that line does
      not end in a way the language defines.
    - Memory is not bounded: no allocation fails.
    - zlib ([compress2], [uncompress], [crc32]) is an interface; a small
      reference implementation is supplied to evaluate the program on
      concrete inputs.
    - Console output and timing are observational and are not modelled.
    - Paths are compared literally (no normalisation of separators). *)

From Stdlib Require Import ZArith Lia.
From Stdlib.Strings Require Import Ascii Byte.
From stdpp Require Import base tactics option list strings sorting pretty.

Local Open Scope Z_scope.

(** ** Machine integers *)

(** [static_cast<uint32_t>(x)] *)
Definition uint32_t (x : Z) : Z := x mod 2 ^ 32.

(** arithmetic in [size_t] *)
Definition size_t (x : Z) : Z := x mod 2 ^ 64.

#[global] Instance byte_eq_dec : EqDecision byte := Byte.byte_eq_dec.

Definition byte_of_Z (x : Z) : byte :=
  default x00 (Byte.of_N (Z.to_N (x mod 256))).

Definition Z_of_byte (b : byte) : Z := Z.of_N (Byte.to_N b).

(** Object representation of an [n]-byte unsigned integer. *)
Fixpoint le_bytes (n : nat) (x : Z) : list byte :=
  match n with
  | O => []
  | S n' => byte_of_Z x :: le_bytes n' (x / 256)
  end.

Fixpoint le_value (bs : list byte) : Z :=
  match bs with
  | [] => 0
  | b :: bs' => Z_of_byte b + 256 * le_value bs'
  end.

(** [v.size()] of a [std::vector] or [std::string] *)
Definition size {A} (v : list A) : Z := Z.of_nat (length v).

(** ** Strings and paths *)

Definition bytes_of_string (s : string) : list byte := String.list_byte_of_string s.
Definition string_of_bytes (bs : list byte) : string := String.string_of_list_byte bs.

(** [std::to_string] on an unsigned value *)
Definition to_string (n : Z) : string := pretty (Z.to_N n).

Definition slash : ascii := "/"%char.
Definition dot : ascii := "."%char.

(** Characters of [s] after the last occurrence of [c] ([None] when [c]
    does not occur), scanning left to right. *)
Fixpoint after_last (c : ascii) (s : string) : option string :=
  match s with
  | EmptyString => None
  | String a s' =>
      match after_last c s' with
      | Some r => Some r
      | None => if decide (a = c) then Some s' else None
      end
  end.

(** [fs::path(p).filename().string()] *)
Definition path_filename (p : string) : string :=
  default p (after_last slash p).

(** [fs::path(p).extension()]: from the rightmost period of the file name,
    unless the name is "." or ".." or that period is its first character. *)
Definition path_extension (p : string) : string :=
  let name := path_filename p in
  if decide (name = "." \/ name = "..") then ""
  else match name with
       | EmptyString => ""
       | String a rest =>
           match after_last dot rest with
           | Some ext => String dot ext
           | None => ""
           end
       end.

Fixpoint strip_prefix (pre s : string) : option string :=
  match pre with
  | EmptyString => Some s
  | String a pre' =>
      match s with
      | String b s' => if decide (a = b) then strip_prefix pre' s' else None
      | EmptyString => None
      end
  end.

Fixpoint has_char (c : ascii) (s : string) : bool :=
  match s with
  | EmptyString => false
  | String a s' => bool_decide (a = c) || has_char c s'
  end.

(** [p] names an entry directly inside directory [d]. *)
Definition child_of (d p : string) : bool :=
  match strip_prefix (d +:+ "/") p with
  | Some name => negb (has_char slash name) && negb (bool_decide (name = ""))
  | None => false
  end.

(** [std::sort] on a [std::vector<std::string>]: [operator<] on strings
    compares bytes as unsigned values. *)
Definition sort_strings (l : list string) : list string :=
  merge_sort String.le l.

(** ** Outcomes *)

Inductive exception :=
| runtime_error (what : string)
| filesystem_error (path : string).

(** How control can leave a piece of the program other than at its end. *)
Inductive fault :=
| Thrown (e : exception)       (* a [throw] was reached on the main thread *)
| Terminated (e : exception)   (* left a worker thread uncaught: [std::terminate] *)
| Undefined (why : string)     (* out-of-range index or indeterminate value used *)
| Unspecified (why : string)   (* a result the library leaves to the platform *)
| Diverged.                    (* a loop that never ends *)

Definition result (A : Type) : Type := fault + A.

(** [None]: control reached the end of the piece.  A piece of the program
    that acts on a state is a function to a pair: the state when control
    leaves the piece, and how it leaves it.  With [Undefined] and
    [Unspecified] the state is the one in which the operation is attempted;
    what the process does from there on is not described. *)
Definition outcome : Type := option fault.

Definition bind {A B} (m : result A) (k : A -> result B) : result B :=
  match m with
  | inl f => inl f
  | inr a => k a
  end.

Notation "'let*' x ':=' m 'in' k" := (bind m (fun x => k))
  (at level 10, x name, m at level 100, k at level 200).

Definition throw {A} (what : string) : result A :=
  inl (Thrown (runtime_error what)).

(** Reading a value that may be indeterminate. *)
Definition determinate {A} (why : string) (v : option A) : result A :=
  match v with
  | Some x => inr x
  | None => inl (Undefined why)
  end.

(** [v[i]] on a [std::vector]: no bounds check. *)
Definition vector_at {A} (why : string) (v : list A) (i : nat) : result A :=
  determinate why (v !! i).

(** [for (size_t i = 0; i < n; ++i) body] is [for_each body (seq 0 n)];
    the state reached is kept when the body faults. *)
Fixpoint for_each {St} (body : nat -> St -> St * outcome) (indices : list nat) (s : St) : St * outcome :=
  match indices with
  | [] => (s, None)
  | i :: indices' =>
      match body i s with
      | (s', None) => for_each body indices' s'
      | (s', Some f) => (s', Some f)
      end
  end.

(** A loop body with no effect besides its result. *)
Definition pure_body {St} (body : nat -> St -> result St) (i : nat) (s : St) : St * outcome :=
  match body i s with
  | inl f => (s, Some f)
  | inr s' => (s', None)
  end.

(** ** File system and input streams *)

Record filesystem := Filesystem {
  dirs : list string;                    (* existing directories *)
  files : list (string * list byte);     (* regular files, in listing order *)
  denied : string -> bool                (* paths the OS refuses to open or make *)
}.

Fixpoint assoc_lookup {A} (k : string) (l : list (string * A)) : option A :=
  match l with
  | [] => None
  | (k', v) :: l' => if decide (k' = k) then Some v else assoc_lookup k l'
  end.

Fixpoint assoc_insert {A} (k : string) (v : A) (l : list (string * A)) : list (string * A) :=
  match l with
  | [] => [(k, v)]
  | (k', v') :: l' =>
      if decide (k' = k) then (k, v) :: l' else (k', v') :: assoc_insert k v l'
  end.

Definition read_file (fs : filesystem) (p : string) : option (list byte) :=
  assoc_lookup p (files fs).

(** [fs::exists] *)
Definition fs_exists (fs : filesystem) (p : string) : bool :=
  bool_decide (p ∈ dirs fs) || bool_decide (is_Some (read_file fs p)).

(** The paths [fs::create_directories(p)] has to find or make, outermost
    first: every non-empty prefix of [p] that ends before a separator, then
    [p] itself. *)
Fixpoint path_prefixes_from (seen p : string) : list string :=
  match p with
  | EmptyString => [seen]
  | String a p' =>
      (if decide (a = slash /\ seen <> "") then [seen] else [])
      ++ path_prefixes_from (seen +:+ String a EmptyString) p'
  end.

Definition path_prefixes (p : string) : list string := path_prefixes_from "" p.

(** One directory of the chain: one that exists is left alone; a regular
    file in its place, a refusal or an empty name is an error ([None]);
    otherwise the directory is made. *)
Definition create_directory (q : string) (fs : filesystem) : option filesystem :=
  if decide (q ∈ dirs fs) then Some fs
  else if bool_decide (is_Some (read_file fs q)) || denied fs q || bool_decide (q = "")
  then None
  else Some {| dirs := dirs fs ++ [q]; files := files fs; denied := denied fs |}.

(** [fs::create_directories(d)]: makes [d] and every missing directory
    above it; throws [filesystem_error] when one of them cannot be made,
    leaving those made before it. *)
Fixpoint create_chain (d : string) (qs : list string) (fs : filesystem)
    : filesystem * outcome :=
  match qs with
  | [] => (fs, None)
  | q :: qs' =>
      match create_directory q fs with
      | Some fs' => create_chain d qs' fs'
      | None => (fs, Some (Thrown (filesystem_error d)))
      end
  end.

Definition create_directories (d : string) (fs : filesystem) : filesystem * outcome :=
  if decide (d ∈ dirs fs) then (fs, None) else create_chain d (path_prefixes d) fs.

(** A [std::ifstream]: the bytes not yet consumed and whether the stream is
    still good.  A stream that failed to open is not good and holds
    nothing.  A directory opens like a file, and every read from it
    fails. *)
Record ifstream := Ifstream { rest : list byte; good : bool }.

Definition open_in (fs : filesystem) (p : string) : ifstream :=
  if denied fs p then Ifstream [] false
  else match read_file fs p with
       | Some content => Ifstream content true
       | None => Ifstream [] (bool_decide (p ∈ dirs fs))
       end.

(** [s.read(buf, n)]: the bytes delivered ([gcount] of them) and the stream
    afterwards.  A short read clears [good]; a stream that is not good
    delivers nothing. *)
Definition stream_read (n : Z) (s : ifstream) : list byte * ifstream :=
  if good s then
    (take (Z.to_nat n) (rest s),
     Ifstream (drop (Z.to_nat n) (rest s)) (bool_decide (n <= size (rest s))))
  else ([], s).

(** Bytes read land at the front of the destination; what is behind them
    keeps its previous value. *)
Definition overwrite {A} (got : list A) (buf : list A) : list A :=
  got ++ drop (length got) buf.

(** [std::ofstream f(p, std::ios::binary)] followed by writes adding up to
    [content]: creates or truncates [p].  [None] when the open fails. *)
Definition write_file (p : string) (content : list byte) (fs : filesystem) : option filesystem :=
  if denied fs p || bool_decide (p ∈ dirs fs) || bool_decide (p = "") then None
  else Some {| dirs := dirs fs; files := assoc_insert p content (files fs); denied := denied fs |}.

(** [fs::directory_iterator(d)]: the paths of the entries of [d], in the
    order the file system lists them; [None] when [d] is not a directory. *)
Definition directory_iterator (fs : filesystem) (d : string) : option (list string) :=
  if decide (d ∈ dirs fs)
  then Some (filter (fun p => child_of d p = true) ((files fs).*1 ++ dirs fs))
  else None.

(** ** How a call ends *)

(** What is known of a call once it is over: the file system it leaves and
    the way it ended.  After undefined behaviour, or an operation whose
    result the model does not determine, nothing is known of either. *)
Inductive ending :=
| Returns (fs : filesystem)                      (* normally *)
| Throws (e : exception) (fs : filesystem)       (* the exception reaches the caller *)
| Terminates (e : exception) (fs : filesystem)   (* [std::terminate] ended the process *)
| Hangs (fs : filesystem)                        (* the call never ends *)
| Unknown (why : string).

(** Leaving a block in which every local object is destroyed once. *)
Definition ending_of (r : filesystem * outcome) : ending :=
  match r with
  | (fs, None) => Returns fs
  | (fs, Some (Thrown e)) => Throws e fs
  | (fs, Some (Terminated e)) => Terminates e fs
  | (fs, Some Diverged) => Hangs fs
  | (_, Some (Undefined why)) => Unknown why
  | (_, Some (Unspecified why)) => Unknown why
  end.

(** Leaving, at its end or by an exception, the block of a [ThreadPool pool]
    on which [pool.~ThreadPool()] has been called: the destructor runs a
    second time, on an object whose lifetime has ended. *)
Definition pool_destroyed_again (r : filesystem * outcome) : ending :=
  match r with
  | (_, None) => Unknown "pool.~ThreadPool() twice"
  | (_, Some (Thrown _)) => Unknown "pool.~ThreadPool() twice"
  | _ => ending_of r
  end.

(** ** Build constants, machine, zlib *)

Class Constants := {
  DISCORD_MAX_SIZE : Z;
  CHUNK_SIZE : Z;
  BUFFER_SIZE : Z;
  COMPRESSION_LEVEL : Z
}.

(** The values in the source. *)
Definition source_constants : Constants := {|
  DISCORD_MAX_SIZE := 25 * 1024 * 1024;
  CHUNK_SIZE := 20 * 1024 * 1024;
  BUFFER_SIZE := 1024 * 1024;
  COMPRESSION_LEVEL := 6
|}.

(** [std::thread::hardware_concurrency()] and, for a batch of [n] queued
    tasks, the order in which the workers carry them out. *)
Class Machine := {
  hardware_concurrency : nat;
  completion_order : nat -> list nat
}.

(** zlib.  [compress2 src level] is called with a destination of
    [compressBound] bytes, [uncompress src cap] with one of [cap] bytes;
    [None] stands for any return code other than [Z_OK]. *)
Class Zlib := {
  compress2 : list byte -> Z -> option (list byte);
  uncompress : list byte -> Z -> option (list byte);
  crc32 : list byte -> Z
}.

(** What the program relies on from zlib: the compressed length fits
    [uLongf]; [uncompress] inverts [compress2] when the destination is large
    enough; the empty stream is not a valid one.  (What [uncompress] does
    with a destination that is too small is not assumed.) *)
Class ZlibLaws `{Zlib} : Prop := {
  compress2_size : forall d level c, compress2 d level = Some c -> size c < 2 ^ 64;
  uncompress_compress2 : forall d level c cap,
    compress2 d level = Some c -> size d <= cap -> uncompress c cap = Some d;
  uncompress_empty : forall cap, uncompress [] cap = None
}.

(** ** ChunkMetadata *)

Definition magic_tag : list byte := bytes_of_string "DCHUNKV1".

(** [#pragma pack(1)]: 8 + 4 + 4 + 8 + 8 + 8 + 4 + 4 bytes. *)
Definition sizeof_ChunkMetadata : Z := 48.

Record ChunkMetadata := {
  magic : list byte;
  chunk_index : option Z;
  total_chunks : option Z;
  original_file_size : option Z;
  uncompressed_chunk_size : option Z;
  compressed_size : option Z;
  filename_length : option Z;
  crc32_checksum : option Z
}.

(** [ChunkMetadata metadata;]: only [magic] has an initialiser. *)
Definition ChunkMetadata_default : ChunkMetadata := {|
  magic := magic_tag;
  chunk_index := None; total_chunks := None; original_file_size := None;
  uncompressed_chunk_size := None; compressed_size := None;
  filename_length := None; crc32_checksum := None
|}.

Definition field_bytes (n : nat) (v : option Z) : list (option byte) :=
  match v with
  | Some x => Some <$> le_bytes n x
  | None => replicate n None
  end.

(** The 48 bytes of the object, indeterminate ones as [None]. *)
Definition object_representation (m : ChunkMetadata) : list (option byte) :=
  (Some <$> magic m)
  ++ field_bytes 4 (chunk_index m)
  ++ field_bytes 4 (total_chunks m)
  ++ field_bytes 8 (original_file_size m)
  ++ field_bytes 8 (uncompressed_chunk_size m)
  ++ field_bytes 8 (compressed_size m)
  ++ field_bytes 4 (filename_length m)
  ++ field_bytes 4 (crc32_checksum m).

Definition field_at (off n : nat) (obj : list (option byte)) : option Z :=
  le_value <$> mapM id (take n (drop off obj)).

Definition metadata_of_representation (obj : list (option byte)) : ChunkMetadata := {|
  magic := default x00 <$> take 8 obj;
  chunk_index := field_at 8 4 obj;
  total_chunks := field_at 12 4 obj;
  original_file_size := field_at 16 8 obj;
  uncompressed_chunk_size := field_at 24 8 obj;
  compressed_size := field_at 32 8 obj;
  filename_length := field_at 40 4 obj;
  crc32_checksum := field_at 44 4 obj
|}.

(** [ChunkMetadata m; s.read(reinterpret_cast<char*>(&m), sizeof(m));] *)
Definition read_metadata (s : ifstream) : ChunkMetadata * ifstream :=
  let '(got, s') := stream_read sizeof_ChunkMetadata s in
  (metadata_of_representation
     (overwrite (Some <$> got) (object_representation ChunkMetadata_default)), s').

(** The bytes [output.write(reinterpret_cast<const char*>(&m), sizeof(m))]
    puts on disk. *)
Definition metadata_bytes (m : ChunkMetadata) : option (list byte) :=
  mapM id (object_representation m).

(** ** ChunkData *)

Record ChunkData := {
  index : Z;
  data : list byte;
  compressed_data : list byte;
  processed : bool
}.

(** An element of [std::vector<ChunkData>(n)] (value-initialised). *)
Definition ChunkData_init : ChunkData :=
  {| index := 0; data := []; compressed_data := []; processed := false |}.

(** [v.resize(n)] on a byte vector: truncates, or pads with zero bytes. *)
Definition resize (n : Z) (v : list byte) : list byte :=
  take (Z.to_nat n) v ++ replicate (Z.to_nat n - length v) x00.

(** ** ThreadPool *)

Section thread_pool.
Context {St : Type}.

(** [std::function<void()>] capturing the shared state by reference. *)
Definition task : Type := St -> result St.

(** The queue of a pool. *)
Definition ThreadPool : Type := list task.

Definition enqueue (f : task) (pool : ThreadPool) : ThreadPool := pool ++ [f].

(** A worker calls [task()] with no handler around it: an exception that
    leaves the task ends the process. *)
Definition in_worker (r : result St) : result St :=
  match r with
  | inl (Thrown e) => inl (Terminated e)
  | _ => r
  end.

Fixpoint run_tasks (pool : ThreadPool) (order : list nat) (s : St) : result St :=
  match order with
  | [] => inr s
  | j :: order' =>
      match pool !! j with
      | Some f => let* s' := in_worker (f s) in run_tasks pool order' s'
      | None => run_tasks pool order' s
      end
  end.

(** [pool.~ThreadPool()] used as a barrier: sets [stop], wakes the workers
    and joins them; a worker only leaves once the queue is empty, so every
    queued task has run when the join returns.  With no worker at all
    ([hardware_concurrency() == 0]) nothing is ever dequeued. *)
Definition drain `{Machine} (pool : ThreadPool) (s : St) : result St :=
  if decide (hardware_concurrency = 0%nat) then inr s
  else run_tasks pool (completion_order (length pool)) s.
End thread_pool.

Arguments task : clear implicits.
Arguments ThreadPool : clear implicits.

(** ** The program *)

Section program.
Context `{Constants} `{Machine} `{Zlib}.

Definition compress_data (input : list byte) : result (list byte) :=
  match compress2 input COMPRESSION_LEVEL with
  | Some compressed => inr compressed
  | None => throw "Compression failed"
  end.

Definition decompress_data (input : list byte) (expected_size : Z) : result (list byte) :=
  match uncompress input expected_size with
  | Some decompressed => inr decompressed
  | None => throw "Decompression failed"
  end.

Definition calculate_crc32 (d : list byte) : Z := uint32_t (crc32 d).

(** *** compress_file *)

(** The inner [while (bytes_read < bytes_to_read)] loop.  An iteration that
    delivers no byte leaves the stream and the counters as they were, so the
    loop then never ends; otherwise [bytes_to_read] iterations suffice.
    [None] is the loop that does not end. *)
Fixpoint read_loop (fuel : nat) (input : ifstream) (bytes_to_read bytes_read : Z)
    (buf : list byte) : option (list byte * ifstream) :=
  if decide (bytes_read < bytes_to_read) then
    match fuel with
    | O => None
    | S fuel' =>
        let to_read := Z.min BUFFER_SIZE (size_t (bytes_to_read - bytes_read)) in
        let '(got, input') := stream_read to_read input in
        let actual_read := size got in
        read_loop fuel' input' bytes_to_read (size_t (bytes_read + actual_read)) (buf ++ got)
    end
  else Some (buf, input).

(** Body of the first loop: fills [chunks[i].data] from the stream. *)
Definition read_chunk (file_size : Z) (i : nat) (st : list ChunkData * ifstream)
    : result (list ChunkData * ifstream) :=
  let '(chunks, input) := st in
  let* c := vector_at "chunks[i]" chunks i in
  let bytes_to_read := Z.min CHUNK_SIZE (size_t (file_size - size_t (Z.of_nat i * CHUNK_SIZE))) in
  match read_loop (Z.to_nat bytes_to_read) input bytes_to_read 0 (data c) with
  | None => inl Diverged
  | Some (d, input') =>
      inr (<[i := {| index := Z.of_nat i; data := d;
                     compressed_data := compressed_data c;
                     processed := processed c |}]> chunks, input')
  end.

(** The task queued for chunk [i]. *)
Definition compress_task (i : nat) (chunks : list ChunkData) : result (list ChunkData) :=
  let* c := vector_at "chunks[i]" chunks i in
  let* compressed := compress_data (data c) in
  inr (<[i := {| index := index c; data := data c;
                 compressed_data := compressed;
                 processed := true |}]> chunks).

Definition chunk_filename (output_dir : string) (i : nat) (num_chunks : Z) : string :=
  output_dir +:+ "/chunk_" +:+ to_string (size_t (Z.of_nat i + 1)) +:+ "_of_"
  +:+ to_string num_chunks +:+ ".dchunk".

Definition chunk_metadata (filename : string) (file_size num_chunks : Z)
    (i : nat) (c : ChunkData) : ChunkMetadata := {|
  magic := magic_tag;
  chunk_index := Some (uint32_t (Z.of_nat i));
  total_chunks := Some (uint32_t num_chunks);
  original_file_size := Some file_size;
  uncompressed_chunk_size := Some (size (data c));
  compressed_size := Some (size (compressed_data c));
  filename_length := Some (uint32_t (size (bytes_of_string filename)));
  crc32_checksum := Some (calculate_crc32 (data c))
|}.

(** Body of the last loop: the completion check, then the record. *)
Definition write_chunk (filename output_dir : string) (file_size num_chunks : Z)
    (chunks : list ChunkData) (i : nat) (fs : filesystem) : filesystem * outcome :=
  match chunks !! i with
  | None => (fs, Some (Undefined "chunks[i]"))
  | Some c =>
      if negb (processed c)
      then (fs, Some (Thrown (runtime_error "Chunk processing failed")))
      else
        match metadata_bytes (chunk_metadata filename file_size num_chunks i c) with
        | None => (fs, Some (Undefined "metadata"))
        | Some header =>
            match write_file (chunk_filename output_dir i num_chunks)
                    (header ++ bytes_of_string filename ++ compressed_data c) fs with
            | None => (fs, Some (Thrown (runtime_error "Cannot create output chunk file")))
            | Some fs' => (fs', None)
            end
        end
  end.

(** The three phases of [compress_file]: the loop that reads the chunks,
    the batch handed to the pool and drained, the loop that checks and
    writes. *)
Definition read_chunks (file_size num_chunks : Z) (input : ifstream)
    : (list ChunkData * ifstream) * outcome :=
  for_each (pure_body (read_chunk file_size)) (seq 0 (Z.to_nat num_chunks))
    (replicate (Z.to_nat num_chunks) ChunkData_init, input).

Definition compress_chunks (num_chunks : Z) (chunks : list ChunkData)
    : result (list ChunkData) :=
  drain (foldl (fun pool i => enqueue (compress_task i) pool) []
           (seq 0 (Z.to_nat num_chunks))) chunks.

Definition write_chunks (filename output_dir : string) (file_size num_chunks : Z)
    (chunks : list ChunkData) (fs : filesystem) : filesystem * outcome :=
  for_each (write_chunk filename output_dir file_size num_chunks chunks)
    (seq 0 (Z.to_nat num_chunks)) fs.

(** Lines 126-169: the checks, the output directory, and the input read
    into [chunks].  The result is the size of the input and the slots.
    What [tellg] reports after [seekg(0, std::ios::end)] on a stream opened
    on a directory (-1, or an offset of the file system's choosing) is left
    to the platform, and with it the number of slots. *)
Definition compress_file_read (input_path output_dir : string) (fs : filesystem)
    : filesystem * result (Z * list ChunkData) :=
  if negb (fs_exists fs input_path)
  then (fs, throw "Input file does not exist")
  else
    match create_directories output_dir fs with
    | (fs, Some f) => (fs, inl f)
    | (fs, None) =>
        let input := open_in fs input_path in
        if negb (good input)
        then (fs, throw "Cannot open input file")
        else
          match read_file fs input_path with
          | None => (fs, inl (Unspecified "file_size"))
          | Some _ =>
              let file_size := size (rest input) in
              let num_chunks := size_t (file_size + CHUNK_SIZE - 1) / CHUNK_SIZE in
              match read_chunks file_size num_chunks input with
              | (_, Some f) => (fs, inl f)
              | ((chunks, _), None) => (fs, inr (file_size, chunks))
              end
          end
    end.

(** The statements of [compress_file], lines 126-233: the file system when
    control leaves the block, and how it leaves it. *)
Definition compress_file_body (input_path output_dir : string) (fs : filesystem)
    : filesystem * outcome :=
  match compress_file_read input_path output_dir fs with
  | (fs, inl f) => (fs, Some f)
  | (fs, inr (file_size, chunks)) =>
      let filename := path_filename input_path in
      let num_chunks := size_t (file_size + CHUNK_SIZE - 1) / CHUNK_SIZE in
      match compress_chunks num_chunks chunks with
      | inl f => (fs, Some f)
      | inr chunks => write_chunks filename output_dir file_size num_chunks chunks fs
      end
  end.

(** A call of [compress_file].  [pool] is declared at line 171, after the
    reading loop, and [pool.~ThreadPool()] is called at line 190: however
    the block is left after that, [pool] is destroyed once more. *)
Definition compress_file (input_path output_dir : string) (fs : filesystem) : ending :=
  match compress_file_read input_path output_dir fs with
  | (fs, inl f) => ending_of (fs, Some f)
  | (fs, inr (file_size, chunks)) =>
      let filename := path_filename input_path in
      let num_chunks := size_t (file_size + CHUNK_SIZE - 1) / CHUNK_SIZE in
      match compress_chunks num_chunks chunks with
      | inl f => ending_of (fs, Some f)
      | inr chunks =>
          pool_destroyed_again
            (write_chunks filename output_dir file_size num_chunks chunks fs)
      end
  end.

(** *** decompress_file *)

(** Body of the loop that loads the payloads: the slot is chosen by the
    header's [chunk_index]. *)
Definition load_chunk (fs : filesystem) (chunk_files : list string) (i : nat)
    (chunks : list ChunkData) : result (list ChunkData) :=
  let* path := vector_at "chunk_files[i]" chunk_files i in
  let chunk_file := open_in fs path in
  if negb (good chunk_file)
  then throw ("Cannot open chunk file: " +:+ path)
  else
    let '(metadata, chunk_file) := read_metadata chunk_file in
    let* name_len := determinate "filename_length" (filename_length metadata) in
    let '(_, chunk_file) := stream_read name_len chunk_file in
    let* idx := determinate "chunk_index" (chunk_index metadata) in
    let* c := vector_at "chunks[metadata.chunk_index]" chunks (Z.to_nat idx) in
    let* csize := determinate "compressed_size" (compressed_size metadata) in
    let '(got, _) := stream_read csize chunk_file in
    inr (<[Z.to_nat idx := {| index := idx; data := data c;
                              compressed_data := overwrite got (resize csize (compressed_data c));
                              processed := processed c |}]> chunks).

(** The task queued for slot [i]: the header is read again from
    [chunk_files[i]]. *)
Definition decompress_task (fs : filesystem) (chunk_files : list string) (i : nat)
    (chunks : list ChunkData) : result (list ChunkData) :=
  let* path := vector_at "chunk_files[i]" chunk_files i in
  let '(metadata, _) := read_metadata (open_in fs path) in
  let* c := vector_at "chunks[i]" chunks i in
  let* usize := determinate "uncompressed_chunk_size" (uncompressed_chunk_size metadata) in
  let* d := decompress_data (compressed_data c) usize in
  let calculated_crc := calculate_crc32 d in
  let* stored_crc := determinate "crc32_checksum" (crc32_checksum metadata) in
  if decide (calculated_crc <> stored_crc)
  then throw ("CRC32 checksum mismatch for chunk " +:+ to_string (Z.of_nat i))
  else inr (<[i := {| index := index c; data := d;
                      compressed_data := compressed_data c;
                      processed := true |}]> chunks).

(** [output.write(...)] on the open output stream. *)
Definition append_file (p : string) (bytes : list byte) (fs : filesystem) : filesystem :=
  {| dirs := dirs fs;
     files := assoc_insert p (default [] (read_file fs p) ++ bytes) (files fs);
     denied := denied fs |}.

(** The range-for over [chunks[i].data]: push a byte, flush a full buffer. *)
Definition push_byte (p : string) (st : filesystem * list byte) (b : byte)
    : filesystem * list byte :=
  let '(fs, buffer) := st in
  let buffer := buffer ++ [b] in
  if decide (BUFFER_SIZE <= size buffer) then (append_file p buffer fs, [])
  else (fs, buffer).

(** Body of the reassembly loop. *)
Definition emit_chunk (p : string) (chunks : list ChunkData) (i : nat)
    (st : filesystem * list byte) : (filesystem * list byte) * outcome :=
  match chunks !! i with
  | None => (st, Some (Undefined "chunks[i]"))
  | Some c =>
      if negb (processed c)
      then (st, Some (Thrown (runtime_error "Chunk decompression failed")))
      else (foldl (push_byte p) st (data c), None)
  end.

(** The phases of [decompress_file]. *)

(** The entries with the chunk extension, sorted. *)
Definition discover (entries : list string) : list string :=
  sort_strings (filter (fun p => path_extension p = ".dchunk") entries).

Definition load_chunks (fs : filesystem) (chunk_files : list string) (total : Z)
    : list ChunkData * outcome :=
  for_each (pure_body (load_chunk fs chunk_files))
    (seq 0 (Z.to_nat (Z.min (size chunk_files) total)))
    (replicate (Z.to_nat total) ChunkData_init).

Definition decompress_chunks (fs : filesystem) (chunk_files : list string) (total : Z)
    (chunks : list ChunkData) : result (list ChunkData) :=
  drain (foldl (fun pool i => enqueue (decompress_task fs chunk_files i) pool) []
           (seq 0 (Z.to_nat total))) chunks.

Definition reassemble (final_output_path : string) (total : Z) (chunks : list ChunkData)
    (fs : filesystem) : filesystem * outcome :=
  match write_file final_output_path [] fs with
  | None => (fs, Some (Thrown (runtime_error "Cannot create output file")))
  | Some fs =>
      match for_each (emit_chunk final_output_path chunks) (seq 0 (Z.to_nat total)) (fs, []) with
      | ((fs, _), Some f) => (fs, Some f)
      | ((fs, buffer), None) =>
          if decide (buffer <> [])
          then (append_file final_output_path buffer fs, None)
          else (fs, None)
      end
  end.

(** Lines 237-289: discovery, the first header, the payloads loaded into
    [chunks]; nothing is written.  The result is the discovery list, the
    chunk count of the first header, the output path and the slots. *)
Definition decompress_file_load (chunks_dir output_path : string) (fs : filesystem)
    : result (list string * Z * string * list ChunkData) :=
  match directory_iterator fs chunks_dir with
  | None => inl (Thrown (filesystem_error chunks_dir))
  | Some entries =>
      if decide (filter (fun p => path_extension p = ".dchunk") entries = [])
      then throw "No chunk files found in directory"
      else
        let chunk_files := discover entries in
        match chunk_files !! 0%nat with
        | None => inl (Undefined "chunk_files[0]")
        | Some first =>
            let '(first_metadata, first_chunk) := read_metadata (open_in fs first) in
            if decide (string_of_bytes (magic first_metadata) <> "DCHUNKV1")
            then throw "Invalid chunk file format"
            else
              match filename_length first_metadata, total_chunks first_metadata with
              | Some name_len, Some total =>
                  let original_filename :=
                    string_of_bytes
                      (overwrite (stream_read name_len first_chunk).1
                         (replicate (Z.to_nat name_len) x00)) in
                  let final_output_path :=
                    if decide (output_path = "") then original_filename else output_path in
                  match load_chunks fs chunk_files total with
                  | (_, Some f) => inl f
                  | (chunks, None) => inr (chunk_files, total, final_output_path, chunks)
                  end
              | _, _ => inl (Undefined "first_metadata")
              end
        end
  end.

(** The statements of [decompress_file], lines 237-349: the file system
    when control leaves the block, and how it leaves it. *)
Definition decompress_file_body (chunks_dir output_path : string) (fs : filesystem)
    : filesystem * outcome :=
  match decompress_file_load chunks_dir output_path fs with
  | inl f => (fs, Some f)
  | inr (chunk_files, total, final_output_path, chunks) =>
      match decompress_chunks fs chunk_files total chunks with
      | inl f => (fs, Some f)
      | inr chunks => reassemble final_output_path total chunks fs
      end
  end.

(** A call of [decompress_file].  [pool] is declared at line 291, after the
    loading loop, and [pool.~ThreadPool()] is called at line 313: however
    the block is left after that, [pool] is destroyed once more. *)
Definition decompress_file (chunks_dir output_path : string) (fs : filesystem) : ending :=
  match decompress_file_load chunks_dir output_path fs with
  | inl f => ending_of (fs, Some f)
  | inr (chunk_files, total, final_output_path, chunks) =>
      match decompress_chunks fs chunk_files total chunks with
      | inl f => ending_of (fs, Some f)
      | inr chunks => pool_destroyed_again (reassemble final_output_path total chunks fs)
      end
  end.

End program.

(** ** A reference zlib and small configurations, for evaluation *)

(** CRC-32 as zlib's [crc32(0L, buf, len)] computes it: reflected
    polynomial 0xEDB88320, initial value and final xor 0xFFFFFFFF. *)
Definition crc32_shift (crc : Z) : Z :=
  if Z.testbit crc 0 then Z.lxor (Z.shiftr crc 1) 3988292384 else Z.shiftr crc 1.

Definition crc32_update (crc : Z) (b : byte) : Z :=
  Nat.iter 8 crc32_shift (Z.lxor crc (Z_of_byte b)).

Definition crc32_reference (d : list byte) : Z :=
  Z.lxor (foldl crc32_update 4294967295 d) 4294967295.

(** A codec that stores the input behind a one-byte tag.  It honours the
    contract [ZlibLaws] asks of zlib: the output length fits [uLongf],
    decoding inverts encoding when the destination is large enough, and the
    empty stream is rejected.  A destination that is too small is an
    error. *)
Definition stored_tag : byte := x78.

Definition stored_compress2 (src : list byte) (level : Z) : option (list byte) :=
  if decide (size src + 1 < 2 ^ 64) then Some (stored_tag :: src) else None.

Definition stored_uncompress (src : list byte) (cap : Z) : option (list byte) :=
  match src with
  | b :: d => if decide (b = stored_tag /\ size d <= cap) then Some d else None
  | [] => None
  end.

Definition reference_zlib : Zlib := {|
  compress2 := stored_compress2;
  uncompress := stored_uncompress;
  crc32 := crc32_reference
|}.

(** Chunks of [c] bytes read through a buffer of [b] bytes. *)
Definition small_constants (c b : Z) : Constants := {|
  DISCORD_MAX_SIZE := 25 * 1024 * 1024;
  CHUNK_SIZE := c;
  BUFFER_SIZE := b;
  COMPRESSION_LEVEL := 6
|}.

(** [hw] workers completing the tasks in the order they were queued. *)
Definition fifo_machine (hw : nat) : Machine := {|
  hardware_concurrency := hw;
  completion_order := fun n => seq 0 n
|}.

(** [hw] workers completing the tasks last-queued first. *)
Definition lifo_machine (hw : nat) : Machine := {|
  hardware_concurrency := hw;
  completion_order := fun n => reverse (seq 0 n)
|}.

(** A file system holding one regular file, every path openable. *)
Definition single_file (p : string) (content : list byte) : filesystem :=
  {| dirs := []; files := [(p, content)]; denied := fun _ => false |}.

(** The file system with the files listed in another order, or with one
    file removed or replaced. *)
Definition with_files (l : list (string * list byte)) (fs : filesystem) : filesystem :=
  {| dirs := dirs fs; files := l; denied := denied fs |}.

Definition remove_file (p : string) (fs : filesystem) : filesystem :=
  with_files (filter (fun e => e.1 <> p) (files fs)) fs.

Definition replace_file (p : string) (f : list byte -> list byte) (fs : filesystem)
    : filesystem :=
  with_files ((fun e : string * list byte => if decide (e.1 = p) then (e.1, f e.2) else e)
                <$> files fs) fs.

(** Overwrites the first eight bytes of a record. *)
Definition spoil_magic (record : list byte) : list byte :=
  bytes_of_string "XXXXXXXX" ++ drop 8 record.

(** Concrete runs: an 11-byte and a 19-byte input file. *)
Definition video : string := "in/video.mp4".
Definition hello : list byte := bytes_of_string "hello world".
Definition nineteen : list byte := bytes_of_string "0123456789abcdefghi".

(** "hello world" in three chunks (4 + 4 + 3) and in two (8 + 3). *)
Definition three_chunks : filesystem :=
  (@compress_file_body (small_constants 4 3) (fifo_machine 2) reference_zlib
     video "out" (single_file video hello)).1.

Definition two_chunks : filesystem :=
  (@compress_file_body (small_constants 8 3) (fifo_machine 2) reference_zlib
     video "out" (single_file video hello)).1.

(** Nineteen bytes in ten chunks of two bytes, the last of one byte. *)
Definition ten_chunks : filesystem :=
  (@compress_file_body (small_constants 2 3) (fifo_machine 2) reference_zlib
     video "out" (single_file video nineteen)).1.

(** ** Notions used in the statements *)

(** The 48 bytes of a header with the given field values. *)
Definition header_bytes (ci tc fsz us cs fl crc : Z) : list byte :=
  magic_tag ++ le_bytes 4 ci ++ le_bytes 4 tc ++ le_bytes 8 fsz ++ le_bytes 8 us
  ++ le_bytes 8 cs ++ le_bytes 4 fl ++ le_bytes 4 crc.

(** The constants are positive [size_t] values. *)
Class ConstantsOK `{Constants} : Prop := {
  CHUNK_SIZE_range : 0 < CHUNK_SIZE < 2 ^ 64;
  BUFFER_SIZE_range : 0 < BUFFER_SIZE < 2 ^ 64
}.

(** Once the pool is joined every queued task has been carried out, each
    one once. *)
Class MachineOK `{Machine} : Prop := {
  completion_order_perm : forall n, Permutation (completion_order n) (seq 0 n)
}.

Section notions.
Context `{Constants} `{Machine} `{Zlib}.

(** Bytes [i * CHUNK_SIZE ..] of the input, at most [CHUNK_SIZE] of them. *)
Definition chunk_of (content : list byte) (i : nat) : list byte :=
  take (Z.to_nat CHUNK_SIZE) (drop (i * Z.to_nat CHUNK_SIZE) content).

(** [chunks] in the first loop of [compress_file] once [k] of the [n] slots
    are read. *)
Definition chunks_read (content : list byte) (n k : nat) : list ChunkData :=
  (fun i => if decide (i < k)%nat
            then {| index := Z.of_nat i; data := chunk_of content i;
                    compressed_data := []; processed := false |}
            else ChunkData_init) <$> seq 0 n.

(** What the task queued for a slot does to that slot. *)
Definition compress_slot (c : ChunkData) : result ChunkData :=
  let* compressed := compress_data (data c) in
  inr {| index := index c; data := data c;
         compressed_data := compressed; processed := true |}.

(** The check a decompression task makes against a header [m]. *)
Definition verify_with (m : ChunkMetadata) (i : nat) (c : ChunkData) : result ChunkData :=
  let* usize := determinate "uncompressed_chunk_size" (uncompressed_chunk_size m) in
  let* d := decompress_data (compressed_data c) usize in
  let* stored_crc := determinate "crc32_checksum" (crc32_checksum m) in
  if decide (calculate_crc32 d <> stored_crc)
  then throw ("CRC32 checksum mismatch for chunk " +:+ to_string (Z.of_nat i))
  else inr {| index := index c; data := d;
              compressed_data := compressed_data c; processed := true |}.

Definition decompress_slot (fs : filesystem) (chunk_files : list string) (i : nat)
    (c : ChunkData) : result ChunkData :=
  let* path := vector_at "chunk_files[i]" chunk_files i in
  verify_with (read_metadata (open_in fs path)).1 i c.

(** The bytes of the record of chunk [i]: header, file name, payload. *)
Definition chunk_record (filename : string) (file_size num_chunks : Z) (i : nat)
    (uncompressed payload : list byte) : list byte :=
  header_bytes (uint32_t (Z.of_nat i)) (uint32_t num_chunks) file_size
    (size uncompressed) (size payload)
    (uint32_t (size (bytes_of_string filename))) (calculate_crc32 uncompressed)
  ++ bytes_of_string filename ++ payload.

(** The header at the front of a record, as a reader decodes it. *)
Definition header_of (record : list byte) : ChunkMetadata :=
  (read_metadata (Ifstream record true)).1.

Definition sum_Z (l : list Z) : Z := foldr Z.add 0 l.

(** The output path chosen from the first header. *)
Definition output_path_of (output_path : string) (name_len : Z) (first_chunk : ifstream)
    : string :=
  if decide (output_path = "")
  then string_of_bytes
         (overwrite (stream_read name_len first_chunk).1
            (replicate (Z.to_nat name_len) x00))
  else output_path.

(** The name of a chunk file inside its directory. *)
Definition chunk_basename (i : nat) (num_chunks : Z) : string :=
  "chunk_" +:+ to_string (size_t (Z.of_nat i + 1)) +:+ "_of_"
  +:+ to_string num_chunks +:+ ".dchunk".

(** The payload [compress_data] produces for chunk [i]. *)
Definition payload_of (content : list byte) (i : nat) : list byte :=
  default [] (compress2 (chunk_of content i) COMPRESSION_LEVEL).

(** [chunks] in [decompress_file] once [k] of the [n] records are loaded,
    and once the pool has verified them all. *)
Definition chunks_loaded (content : list byte) (n k : nat) : list ChunkData :=
  (fun i => if decide (i < k)%nat
            then {| index := Z.of_nat i; data := [];
                    compressed_data := payload_of content i; processed := false |}
            else ChunkData_init) <$> seq 0 n.

Definition chunks_verified (content : list byte) (n : nat) : list ChunkData :=
  (fun i => {| index := Z.of_nat i; data := chunk_of content i;
               compressed_data := payload_of content i; processed := true |}) <$> seq 0 n.

(** What is on disk in [p] followed by what is still buffered. *)
Definition pending (p : string) (st : filesystem * list byte) : list byte :=
  default [] (read_file st.1 p) ++ st.2.

(** From [st] to [st'] the output stream on [p] took the bytes [d] and
    nothing else happened. *)
Definition emitted (p : string) (st st' : filesystem * list byte) (d : list byte) : Prop :=
  pending p st' = pending p st ++ d /\
  (is_Some (read_file st.1 p) -> is_Some (read_file st'.1 p)) /\
  (forall q, p <> q -> read_file st'.1 q = read_file st.1 q) /\
  dirs st'.1 = dirs st.1 /\ denied st'.1 = denied st.1.

End notions.

(** ** The pool, step by step *)

(** The class [ThreadPool] as a transition system: the main thread
    constructs the pool, enqueues tasks and calls the destructor; each
    worker thread goes round its loop.  An execution is the list of events
    in the order the mutex and the task bodies serialise them.  A task acts
    on the shared state when it completes (the tasks of this program each
    write one slot of a vector, so running two of them at once is the same
    as completing them one after the other).  The destructor is the one
    called as [pool.~ThreadPool()]; the second destruction of the object,
    when its block is left, is [pool_destroyed_again]. *)

Section pool_machine.
Context {St : Type}.

(** Where a worker thread is in its loop. *)
Inductive worker :=
| Waiting                   (* in [cv.wait], or on its way there *)
| Running (f : task St)     (* in [task()] *)
| Returned.                 (* left the loop: the thread can be joined *)

Record pool_state := PoolState {
  threads : list worker;
  tasks : list (task St);
  stop : bool
}.

(** [ThreadPool pool(num_threads)] *)
Definition ThreadPool_new (num_threads : nat) : pool_state :=
  {| threads := replicate num_threads Waiting; tasks := []; stop := false |}.

Inductive pool_event :=
| Enqueue (f : task St)   (* main thread: [enqueue(f)] *)
| Destroy                 (* main thread: [stop = true] in the destructor *)
| Take (w : nat)          (* worker [w] leaves [cv.wait] and pops the front task *)
| Finish (w : nat)        (* [task()] returns in worker [w] *)
| Return (w : nat).       (* worker [w] finds [stop] set and the queue empty *)

(** One event.  [None]: the event cannot happen in this state.  The
    destructor is the last call on the pool, so nothing is enqueued once
    [stop] is set. *)
Definition pool_step (e : pool_event) (st : pool_state) (s : St)
    : option (result (pool_state * St)) :=
  match e with
  | Enqueue f =>
      if stop st then None
      else Some (inr ({| threads := threads st; tasks := tasks st ++ [f];
                         stop := stop st |}, s))
  | Destroy =>
      if stop st then None
      else Some (inr ({| threads := threads st; tasks := tasks st; stop := true |}, s))
  | Take w =>
      match threads st !! w, tasks st with
      | Some Waiting, f :: queue =>
          Some (inr ({| threads := <[w := Running f]> (threads st); tasks := queue;
                        stop := stop st |}, s))
      | _, _ => None
      end
  | Finish w =>
      match threads st !! w with
      | Some (Running f) =>
          Some (let* s' := in_worker (f s) in
                inr ({| threads := <[w := Waiting]> (threads st); tasks := tasks st;
                        stop := stop st |}, s'))
      | _ => None
      end
  | Return w =>
      match threads st !! w, tasks st with
      | Some Waiting, [] =>
          if stop st
          then Some (inr ({| threads := <[w := Returned]> (threads st);
                             tasks := tasks st; stop := stop st |}, s))
          else None
      | _, _ => None
      end
  end.

(** A whole execution; nothing happens after a task has ended the
    process. *)
Fixpoint pool_run (sched : list pool_event) (st : pool_state) (s : St)
    : option (result (pool_state * St)) :=
  match sched with
  | [] => Some (inr (st, s))
  | e :: sched' =>
      match pool_step e st s with
      | None => None
      | Some (inl ft) => match sched' with [] => Some (inl ft) | _ => None end
      | Some (inr (st', s')) => pool_run sched' st' s'
      end
  end.

(** The loop of [join] calls in the destructor is through. *)
Definition joined (st : pool_state) : bool :=
  forallb (fun w => match w with Returned => true | _ => false end) (threads st).

(** The tasks handed to [enqueue] during an execution, in order, and the
    number of tasks the workers took. *)
Fixpoint enqueued (sched : list pool_event) : list (task St) :=
  match sched with
  | [] => []
  | Enqueue f :: sched' => f :: enqueued sched'
  | _ :: sched' => enqueued sched'
  end.

Fixpoint takes (sched : list pool_event) : nat :=
  match sched with
  | [] => 0
  | Take _ :: sched' => S (takes sched')
  | _ :: sched' => takes sched'
  end.

End pool_machine.

Arguments worker : clear implicits.
Arguments pool_state : clear implicits.
Arguments pool_event : clear implicits.

(** ** Further notions *)

(** The outcomes with which the model describes the file system a piece
    of the program leaves: all but undefined behaviour and results left to
    the platform. *)
Definition described (o : outcome) : Prop :=
  match o with
  | Some (Undefined _) | Some (Unspecified _) => False
  | _ => True
  end.

(** A record whose header describes its own payload: the payload
    decompresses, into a destination of the stored size, to bytes whose
    CRC-32 is the stored checksum. *)
Definition self_consistent `{Zlib} (record : list byte) : bool :=
  let m := header_of record in
  match filename_length m, uncompressed_chunk_size m, compressed_size m,
        crc32_checksum m with
  | Some name_len, Some usize, Some csize, Some crc =>
      let payload :=
        take (Z.to_nat csize)
          (drop (Z.to_nat (sizeof_ChunkMetadata + name_len)) record) in
      match uncompress payload usize with
      | Some d => bool_decide (calculate_crc32 d = crc)
      | None => false
      end
  | _, _, _, _ => false
  end.

(** From [fs] to [fs'] no path was removed, the directories and the
    refusals are as they were, and only paths in [P] may hold other
    bytes. *)
Definition only_changed (P : string -> Prop) (fs fs' : filesystem) : Prop :=
  dirs fs' = dirs fs /\ denied fs' = denied fs /\
  (forall q, is_Some (read_file fs q) -> is_Some (read_file fs' q)) /\
  (forall q, ~ P q -> read_file fs' q = read_file fs q).

(** Two file systems that hold the same files and directories and refuse
    the same paths, and may list their entries in different orders. *)
Definition same_entries (fs fs' : filesystem) : Prop :=
  files fs ≡ₚ files fs' /\ NoDup (files fs).*1 /\ dirs fs ≡ₚ dirs fs' /\
  forall p, denied fs p = denied fs' p.

(** What a worker's position says about the index of the task it is
    running: [r] is that index, if any. *)
Definition worker_runs {St} (pool : list (task St)) (t : worker St) (r : option nat) : Prop :=
  match t, r with
  | Running f, Some j => pool !! j = Some f
  | Waiting, None | Returned, None => True
  | _, _ => False
  end.

(** The invariant of the pool: of the [k] tasks taken so far, those with
    index in [done] have completed, in that order, leading from [s0] to the
    shared state [s]; the others are running, as [run] says; the queue holds
    the rest of [pool]; a worker has returned only if [stop] is set and the
    queue is empty. *)
Definition pool_invariant {St} (n : nat) (s0 : St) (pool : list (task St))
    (st : pool_state St) (s : St) (k : nat) (done : list nat) (run : list (option nat))
    : Prop :=
  length (threads st) = n /\
  Forall2 (worker_runs pool) (threads st) run /\
  done ++ omap id run ≡ₚ seq 0 k /\
  tasks st = drop k pool /\ (k <= length pool)%nat /\
  run_tasks pool done s0 = inr s /\
  (threads st = [] -> done = []) /\
  (Returned ∈ threads st -> stop st = true /\ tasks st = []).

(** ** main *)

(** How the process ends. *)
Inductive process_end :=
| Exit (status : Z) (fs : filesystem)   (* [main] returned [status] *)
| Abnormal (e : ending).                (* [main] did not return *)

(** [print_usage(program_name)] writes to [std::cout] only; streaming a
    null [const char*] is undefined. *)
Definition print_usage (program_name : option string) : outcome :=
  match program_name with
  | Some _ => None
  | None => Some (Undefined "program_name")
  end.

Section main.
Context `{Constants} `{Machine} `{Zlib}.

(** The three places where [main] prints the usage and returns 1. *)
Definition usage (argv : list string) (fs : filesystem) : process_end :=
  match print_usage (argv !! 0%nat) with
  | None => Exit 1 fs
  | Some f => Abnormal (ending_of (fs, Some f))
  end.

(** The [try] block around an operation: [catch (const std::exception&)]
    takes every exception thrown on the main thread. *)
Definition try_catch (e : ending) : process_end :=
  match e with
  | Returns fs => Exit 0 fs
  | Throws _ fs => Exit 1 fs
  | _ => Abnormal e
  end.

(** [main(argc, argv)], with [argc = length argv]; [argv[i]] is only read
    for [i < argc]. *)
Definition main (argv : list string) (fs : filesystem) : process_end :=
  let argc := Z.of_nat (length argv) in
  let arg := fun i : nat => default "" (argv !! i) in
  if decide (argc < 3) then usage argv fs
  else
    let mode := arg 1%nat in
    if decide (mode = "-c" \/ mode = "--compress") then
      if decide (argc < 4) then usage argv fs
      else try_catch (compress_file (arg 2%nat) (arg 3%nat) fs)
    else if decide (mode = "-d" \/ mode = "--decompress") then
      if decide (argc < 3) then usage argv fs
      else
        let output := if decide (argc > 3) then arg 3%nat else "" in
        try_catch (decompress_file (arg 2%nat) output fs)
    else usage argv fs.

End main.

(** ** Further configurations, for evaluation *)

(** The three-chunk set without its last record. *)
Definition two_of_three : filesystem :=
  remove_file "out/chunk_3_of_3.dchunk" three_chunks.




(** Two slots after a drain, the second one not processed. *)
Definition half_done : list ChunkData :=
  [{| index := 0; data := bytes_of_string "hell";
      compressed_data := stored_tag :: bytes_of_string "hell"; processed := true |};
   ChunkData_init].

(** What the loading loop leaves in the slots for the ten-chunk set. *)
Definition ten_loaded : list ChunkData :=
  (@load_chunks ten_chunks (discover (files ten_chunks).*1) 10).1.

(** The two-chunk set with the chunk indices and the payloads of its two
    records exchanged: each header keeps the size and the checksum of the
    chunk it was written for, and carries the other chunk. *)
Definition crossed_pair : filesystem :=
  with_files
    [("out/chunk_1_of_2.dchunk",
      header_bytes 1 2 11 8 4 9 (crc32_reference (bytes_of_string "hello wo"))
      ++ bytes_of_string "video.mp4" ++ stored_tag :: bytes_of_string "rld");
     ("out/chunk_2_of_2.dchunk",
      header_bytes 0 2 11 3 9 9 (crc32_reference (bytes_of_string "rld"))
      ++ bytes_of_string "video.mp4" ++ stored_tag :: bytes_of_string "hello wo")]
    two_chunks.

(** Tasks on a counter, and executions of a pool of two workers. *)
Definition count_up : task nat := fun s => inr (S s).
Definition throwing : task nat := fun _ => inl (Thrown (runtime_error "task failed")).

Definition two_tasks_joined : list (pool_event nat) :=
  [Enqueue count_up; Take 1; Enqueue count_up; Take 0; Finish 0; Destroy;
   Return 0; Finish 1; Return 1].

Definition second_task_fails : list (pool_event nat) :=
  [Enqueue count_up; Enqueue throwing; Take 0; Take 1; Finish 1].

(** * Properties *)

(** ** Bytes and integer fields *)

Lemma Z_of_byte_range (b : byte) : 0 <= Z_of_byte b < 256.
Proof.
  unfold Z_of_byte. pose proof (Byte.to_N_bounded b). lia.
Qed.

Lemma Z_of_byte_of_Z (x : Z) : 0 <= x < 256 -> Z_of_byte (byte_of_Z x) = x.
Proof.
  intros Hx. unfold Z_of_byte, byte_of_Z.
  rewrite Z.mod_small by lia.
  destruct (Byte.of_N (Z.to_N x)) as [b|] eqn:Hb.
  - apply Byte.to_of_N in Hb. simpl. lia.
  - apply Byte.of_N_None_iff in Hb. lia.
Qed.

Lemma byte_of_Z_of_byte (b : byte) : byte_of_Z (Z_of_byte b) = b.
Proof.
  unfold byte_of_Z. pose proof (Z_of_byte_range b).
  rewrite Z.mod_small by lia. unfold Z_of_byte.
  rewrite N2Z.id, Byte.of_to_N. reflexivity.
Qed.

Lemma length_le_bytes (n : nat) (x : Z) : length (le_bytes n x) = n.
Proof. revert x. induction n as [|n IH]; intros x; simpl; [done|]. by rewrite IH. Qed.

Lemma le_value_le_bytes_mod (n : nat) (x : Z) :
  le_value (le_bytes n x) = x mod 256 ^ Z.of_nat n.
Proof.
  revert x. induction n as [|n IH]; intros x.
  - simpl. by rewrite Z.mod_1_r.
  - cbn [le_bytes le_value]. rewrite IH.
    rewrite Nat2Z.inj_succ, Z.pow_succ_r by lia.
    assert (Hpow : 0 < 256 ^ Z.of_nat n) by (apply Z.pow_pos_nonneg; lia).
    rewrite Z.rem_mul_r by lia.
    assert (Hm : 0 <= x mod 256 < 256) by (apply Z.mod_pos_bound; lia).
    pose proof (Z_of_byte_of_Z (x mod 256) Hm) as Hb.
    unfold byte_of_Z in Hb |- *. rewrite Z.mod_mod in Hb by lia. by rewrite Hb.
Qed.

Lemma le_value_le_bytes (n : nat) (x : Z) :
  0 <= x < 256 ^ Z.of_nat n -> le_value (le_bytes n x) = x.
Proof. intros Hx. rewrite le_value_le_bytes_mod. by apply Z.mod_small. Qed.


Lemma mapM_id_Some {A} (l : list A) : mapM id (Some <$> l) = Some l.
Proof. by apply mapM_fmap_Some. Qed.

Lemma field_at_skip (pre obj : list (option byte)) (k off n : nat) :
  length pre = k -> field_at (k + off) n (pre ++ obj) = field_at off n obj.
Proof.
  intros <-. unfold field_at. by rewrite <- drop_drop, drop_app_length.
Qed.

Lemma field_at_here (n : nat) (x : Z) (obj : list (option byte)) :
  field_at 0 n ((Some <$> le_bytes n x) ++ obj) = Some (x mod 256 ^ Z.of_nat n).
Proof.
  unfold field_at. rewrite drop_0.
  rewrite take_app_length' by (by rewrite length_fmap, length_le_bytes).
  rewrite mapM_id_Some. simpl. by rewrite le_value_le_bytes_mod.
Qed.

Lemma size_nonneg {A} (v : list A) : 0 <= size v.
Proof. unfold size. lia. Qed.

Lemma size_app {A} (u v : list A) : size (u ++ v) = size u + size v.
Proof. unfold size. rewrite length_app. lia. Qed.

Lemma uint32_t_range (x : Z) : 0 <= uint32_t x < 2 ^ 32.
Proof. unfold uint32_t. apply Z.mod_pos_bound. lia. Qed.

Lemma uint32_t_small (x : Z) : 0 <= x < 2 ^ 32 -> uint32_t x = x.
Proof. intros. unfold uint32_t. by apply Z.mod_small. Qed.

Lemma size_t_small (x : Z) : 0 <= x < 2 ^ 64 -> size_t x = x.
Proof. intros. unfold size_t. by apply Z.mod_small. Qed.

(** ** The header on disk *)

Lemma length_header_bytes ci tc fsz us cs fl crc :
  length (header_bytes ci tc fsz us cs fl crc) = 48%nat.
Proof.
  unfold header_bytes. rewrite !length_app, !length_le_bytes. reflexivity.
Qed.


Lemma field_at_drop (pre obj : list (option byte)) (off n : nat) :
  (length pre <= off)%nat ->
  field_at off n (pre ++ obj) = field_at (off - length pre) n obj.
Proof.
  intros Hle. rewrite <- (field_at_skip pre obj (length pre) (off - length pre) n eq_refl).
  f_equal. lia.
Qed.

Lemma metadata_of_header ci tc fsz us cs fl crc :
  metadata_of_representation (Some <$> header_bytes ci tc fsz us cs fl crc) =
  {| magic := magic_tag;
     chunk_index := Some (ci mod 2 ^ 32); total_chunks := Some (tc mod 2 ^ 32);
     original_file_size := Some (fsz mod 2 ^ 64);
     uncompressed_chunk_size := Some (us mod 2 ^ 64);
     compressed_size := Some (cs mod 2 ^ 64);
     filename_length := Some (fl mod 2 ^ 32);
     crc32_checksum := Some (crc mod 2 ^ 32) |}.
Proof.
  unfold metadata_of_representation, header_bytes. rewrite !fmap_app.
  assert (Hmag : length (Some <$> magic_tag) = 8%nat) by reflexivity.
  assert (H4 : forall x, length (Some <$> le_bytes 4 x) = 4%nat)
    by (intros; by rewrite length_fmap, length_le_bytes).
  assert (H8 : forall x, length (Some <$> le_bytes 8 x) = 8%nat)
    by (intros; by rewrite length_fmap, length_le_bytes).
  f_equal.
  - rewrite field_at_drop by (rewrite Hmag; lia). rewrite Hmag.
    apply field_at_here.
  - do 2 (rewrite field_at_drop by (rewrite ?Hmag, ?H4, ?H8; simpl; lia);
          rewrite ?Hmag, ?H4, ?H8; cbn [Nat.sub]).
    apply field_at_here.
  - do 3 (rewrite field_at_drop by (rewrite ?Hmag, ?H4, ?H8; simpl; lia);
          rewrite ?Hmag, ?H4, ?H8; cbn [Nat.sub]).
    apply field_at_here.
  - do 4 (rewrite field_at_drop by (rewrite ?Hmag, ?H4, ?H8; simpl; lia);
          rewrite ?Hmag, ?H4, ?H8; cbn [Nat.sub]).
    apply field_at_here.
  - do 5 (rewrite field_at_drop by (rewrite ?Hmag, ?H4, ?H8; simpl; lia);
          rewrite ?Hmag, ?H4, ?H8; cbn [Nat.sub]).
    apply field_at_here.
  - do 6 (rewrite field_at_drop by (rewrite ?Hmag, ?H4, ?H8; simpl; lia);
          rewrite ?Hmag, ?H4, ?H8; cbn [Nat.sub]).
    apply field_at_here.
  - do 7 (rewrite field_at_drop by (rewrite ?Hmag, ?H4, ?H8; simpl; lia);
          rewrite ?Hmag, ?H4, ?H8; cbn [Nat.sub]).
    rewrite <- (app_nil_r (Some <$> le_bytes 4 crc)).
    apply field_at_here.
Qed.

(** ** Streams *)

Lemma stream_read_exact (n : Z) (pre tl : list byte) :
  size pre = n -> stream_read n (Ifstream (pre ++ tl) true) = (pre, Ifstream tl true).
Proof.
  intros Hn. unfold stream_read, size in *. cbn [good rest].
  assert (Z.to_nat n = length pre) as -> by lia.
  rewrite take_app_length, drop_app_length, bool_decide_eq_true_2; [done|].
  rewrite length_app. lia.
Qed.

Lemma stream_read_enough (n : Z) (l : list byte) :
  0 <= n <= size l ->
  stream_read n (Ifstream l true)
  = (take (Z.to_nat n) l, Ifstream (drop (Z.to_nat n) l) true).
Proof.
  intros Hn. unfold stream_read. cbn [good rest].
  rewrite bool_decide_eq_true_2 by lia. done.
Qed.

Lemma read_metadata_header ci tc fsz us cs fl crc (tl : list byte) :
  read_metadata (Ifstream (header_bytes ci tc fsz us cs fl crc ++ tl) true) =
  ({| magic := magic_tag;
      chunk_index := Some (ci mod 2 ^ 32); total_chunks := Some (tc mod 2 ^ 32);
      original_file_size := Some (fsz mod 2 ^ 64);
      uncompressed_chunk_size := Some (us mod 2 ^ 64);
      compressed_size := Some (cs mod 2 ^ 64);
      filename_length := Some (fl mod 2 ^ 32);
      crc32_checksum := Some (crc mod 2 ^ 32) |}, Ifstream tl true).
Proof.
  unfold read_metadata.
  rewrite stream_read_exact
    by (unfold size; rewrite length_header_bytes; reflexivity).
  f_equal. unfold overwrite.
  rewrite drop_ge, app_nil_r.
  - apply metadata_of_header.
  - rewrite length_fmap, length_header_bytes. simpl. lia.
Qed.

(** ** Loops *)

Lemma for_each_app {St} (body : nat -> St -> St * outcome) (l1 l2 : list nat) (s : St) :
  for_each body (l1 ++ l2) s =
  match for_each body l1 s with
  | (s', None) => for_each body l2 s'
  | (s', Some f) => (s', Some f)
  end.
Proof.
  revert s. induction l1 as [|i l1 IH]; intros s; simpl; [done|].
  destruct (body i s) as [s' [f|]]; [done|]. apply IH.
Qed.

Lemma foldl_enqueue {St} (F : nat -> task St) (l : list nat) (pool : ThreadPool St) :
  foldl (fun pool i => enqueue (F i) pool) pool l = pool ++ (F <$> l).
Proof.
  revert pool. induction l as [|i l IH]; intros pool; simpl.
  - by rewrite app_nil_r.
  - rewrite IH. unfold enqueue. by rewrite <- app_assoc.
Qed.

(** ** The pool on tasks that each own one slot *)

Section slot_tasks.
Context {A : Type}.
Variable g : nat -> A -> result A.
Variable f : nat -> task (list A).
Variable n : nat.

Hypothesis f_slot : forall i v c, v !! i = Some c ->
  f i v = (let* c' := g i c in inr (<[i := c']> v)).
Hypothesis g_again : forall i c c', g i c = inr c' -> g i c' = inr c'.

Lemma pool_lookup (j : nat) :
  (f <$> seq 0 n) !! j = if decide (j < n)%nat then Some (f j) else None.
Proof.
  rewrite list_lookup_fmap. destruct (decide (j < n)%nat) as [Hj|Hj].
  - by rewrite lookup_seq_lt.
  - by rewrite lookup_seq_ge by lia.
Qed.

(** After a normal drain, a slot named in the order holds its task's
    result, every other slot is untouched. *)
Lemma run_tasks_slots (order : list nat) (v v' : list A) :
  length v = n ->
  run_tasks (f <$> seq 0 n) order v = inr v' ->
  length v' = n /\
  forall j c, v !! j = Some c ->
    (j ∈ order -> exists c', g j c = inr c' /\ v' !! j = Some c') /\
    (j ∉ order -> v' !! j = Some c).
Proof.
  revert v. induction order as [|j0 order IH]; intros v Hlen Hrun.
  - simpl in Hrun. injection Hrun as <-. split; [done|].
    intros j c Hj. split; [|done]. by intros ?%elem_of_nil.
  - cbn [run_tasks] in Hrun. rewrite pool_lookup in Hrun.
    destruct (decide (j0 < n)%nat) as [Hj0|Hj0].
    + destruct (lookup_lt_is_Some_2 v j0) as [c0 Hc0]; [lia|].
      rewrite (f_slot _ _ _ Hc0) in Hrun.
      destruct (g j0 c0) as [ft|c0'] eqn:Hg; [by destruct ft|].
      cbn [bind in_worker] in Hrun.
      apply IH in Hrun as [Hlen' Hslots]; [|by rewrite length_insert].
      split; [done|]. intros j c Hj.
      destruct (decide (j = j0)) as [->|Hne].
      * assert (c = c0) as -> by congruence.
        assert (Hin : <[j0:=c0']> v !! j0 = Some c0')
          by (apply list_lookup_insert_eq; lia).
        destruct (Hslots _ _ Hin) as [Hyes Hno].
        split; [|intros Hn; exfalso; apply Hn; left].
        intros _. exists c0'. split; [done|].
        destruct (decide (j0 ∈ order)) as [Ho|Ho].
        -- destruct (Hyes Ho) as (c'' & Hg' & Hc'').
           rewrite (g_again _ _ _ Hg) in Hg'. congruence.
        -- by apply Hno.
      * assert (Hin : <[j0:=c0']> v !! j = Some c)
          by (by rewrite list_lookup_insert_ne).
        destruct (Hslots _ _ Hin) as [Hyes Hno]. split.
        -- intros [?|Ho]%elem_of_cons; [done|]. by apply Hyes.
        -- intros Ho. apply Hno. intros ?. apply Ho. by right.
    + apply IH in Hrun as [Hlen' Hslots]; [|done].
      split; [done|]. intros j c Hj.
      destruct (Hslots _ _ Hj) as [Hyes Hno]. split.
      * intros [->|Ho]%elem_of_cons; [|by apply Hyes].
        apply lookup_lt_Some in Hj. lia.
      * intros Ho. apply Hno. intros ?. apply Ho. by right.
Qed.

(** A drain that does not end normally was ended by a task failing on the
    slot it was handed. *)
Lemma run_tasks_fault (order : list nat) (v : list A) (ft : fault) :
  length v = n ->
  run_tasks (f <$> seq 0 n) order v = inl ft ->
  exists j c ft0, j ∈ order /\ v !! j = Some c /\ g j c = inl ft0 /\
    ft = match ft0 with Thrown e => Terminated e | _ => ft0 end.
Proof.
  revert v. induction order as [|j0 order IH]; intros v Hlen Hrun; [done|].
  cbn [run_tasks] in Hrun. rewrite pool_lookup in Hrun.
  destruct (decide (j0 < n)%nat) as [Hj0|Hj0].
  - destruct (lookup_lt_is_Some_2 v j0) as [c0 Hc0]; [lia|].
    rewrite (f_slot _ _ _ Hc0) in Hrun.
    destruct (g j0 c0) as [ft0|c0'] eqn:Hg.
    + exists j0, c0, ft0. split; [left|]. split; [done|]. split; [done|].
      destruct ft0; cbn in Hrun; congruence.
    + cbn [bind in_worker] in Hrun.
      apply IH in Hrun as (j & c & ft0 & Hin & Hj & Hgj & ->);
        [|by rewrite length_insert].
      destruct (decide (j = j0)) as [->|Hne].
      * rewrite list_lookup_insert_eq in Hj by lia.
        injection Hj as <-. rewrite (g_again _ _ _ Hg) in Hgj. done.
      * rewrite list_lookup_insert_ne in Hj by done.
        exists j, c, ft0. split; [by right|]. done.
  - apply IH in Hrun as (j & c & ft0 & Hin & Hj & Hgj & ->); [|done].
    exists j, c, ft0. split; [by right|]. done.
Qed.

(** When every task succeeds on its slot, the drain ends normally. *)
Lemma run_tasks_returns (order : list nat) (v : list A) :
  length v = n ->
  (forall j c, j ∈ order -> v !! j = Some c -> exists c', g j c = inr c') ->
  exists v', run_tasks (f <$> seq 0 n) order v = inr v'.
Proof.
  revert v. induction order as [|j0 order IH]; intros v Hlen Hok.
  - by eexists.
  - cbn [run_tasks]. rewrite pool_lookup.
    destruct (decide (j0 < n)%nat) as [Hj0|Hj0].
    + destruct (lookup_lt_is_Some_2 v j0) as [c0 Hc0]; [lia|].
      rewrite (f_slot _ _ _ Hc0).
      destruct (Hok j0 c0) as [c0' Hg]; [left|done|].
      rewrite Hg. cbn [bind in_worker].
      apply IH; [by rewrite length_insert|].
      intros j c Hin Hj. destruct (decide (j = j0)) as [->|Hne].
      * rewrite list_lookup_insert_eq in Hj by lia. injection Hj as <-.
        exists c0'. by apply (g_again _ _ _ Hg).
      * rewrite list_lookup_insert_ne in Hj by done.
        apply (Hok j c); [by right|done].
    + apply IH; [done|]. intros j c Hin Hj. apply (Hok j c); [by right|done].
Qed.

(** The first task of the order to fail on its slot decides how the
    process ends. *)
Lemma run_tasks_first_fault (before after : list nat) (j : nat) (v : list A)
    (c : A) (ft0 : fault) :
  length v = n ->
  (forall i ci, i ∈ before -> v !! i = Some ci -> exists c', g i ci = inr c') ->
  v !! j = Some c -> g j c = inl ft0 ->
  run_tasks (f <$> seq 0 n) (before ++ j :: after) v
  = inl match ft0 with Thrown e => Terminated e | _ => ft0 end.
Proof.
  revert v. induction before as [|j0 before IH]; intros v Hlen Hok Hj Hg.
  - cbn [app run_tasks]. rewrite pool_lookup.
    rewrite decide_True by (apply lookup_lt_Some in Hj; lia).
    rewrite (f_slot _ _ _ Hj), Hg. by destruct ft0.
  - cbn [app run_tasks]. rewrite pool_lookup.
    destruct (decide (j0 < n)%nat) as [Hj0|Hj0].
    + destruct (lookup_lt_is_Some_2 v j0) as [c0 Hc0]; [lia|].
      rewrite (f_slot _ _ _ Hc0).
      destruct (Hok j0 c0) as [c0' Hg0]; [left|done|].
      rewrite Hg0. cbn [bind in_worker].
      assert (j <> j0) by (intros ->; congruence).
      apply IH; [by rewrite length_insert| |by rewrite list_lookup_insert_ne|done].
      intros i ci Hin Hi. destruct (decide (i = j0)) as [->|Hne].
      * rewrite list_lookup_insert_eq in Hi by lia. injection Hi as <-.
        exists c0'. by apply (g_again _ _ _ Hg0).
      * rewrite list_lookup_insert_ne in Hi by done.
        apply (Hok i ci); [by right|done].
    + apply IH; [done| |done|done].
      intros i ci Hin Hi. apply (Hok i ci); [by right|done].
Qed.

End slot_tasks.

(** ** compress_file: the reading loop *)

Section reading.
Context `{Constants} `{!ConstantsOK}.

Lemma num_chunks_bounds (sz : Z) :
  0 <= sz ->
  0 <= (sz + CHUNK_SIZE - 1) / CHUNK_SIZE /\
  ((sz + CHUNK_SIZE - 1) / CHUNK_SIZE - 1) * CHUNK_SIZE < sz
    <= (sz + CHUNK_SIZE - 1) / CHUNK_SIZE * CHUNK_SIZE.
Proof.
  intros Hsz. pose proof CHUNK_SIZE_range as HC.
  assert (Hne : CHUNK_SIZE <> 0) by lia.
  assert (Hpos : 0 < CHUNK_SIZE) by lia.
  pose proof (Z.div_mod (sz + CHUNK_SIZE - 1) CHUNK_SIZE Hne) as Hdm.
  pose proof (Z.mod_pos_bound (sz + CHUNK_SIZE - 1) CHUNK_SIZE Hpos) as Hm.
  split; [apply Z.div_pos; lia|].
  set (q := (sz + CHUNK_SIZE - 1) / CHUNK_SIZE) in *.
  set (r := (sz + CHUNK_SIZE - 1) mod CHUNK_SIZE) in *.
  clearbody q r. lia.
Qed.

Lemma read_loop_enough (fuel : nat) (l buf : list byte) (bytes_to_read bytes_read : Z) :
  0 <= bytes_read <= bytes_to_read -> bytes_to_read < 2 ^ 64 ->
  bytes_to_read - bytes_read <= size l ->
  bytes_to_read - bytes_read <= Z.of_nat fuel ->
  read_loop fuel (Ifstream l true) bytes_to_read bytes_read buf
  = Some (buf ++ take (Z.to_nat (bytes_to_read - bytes_read)) l,
          Ifstream (drop (Z.to_nat (bytes_to_read - bytes_read)) l) true).
Proof.
  pose proof BUFFER_SIZE_range as HB.
  revert l buf bytes_read.
  induction fuel as [|fuel IH]; intros l buf bytes_read Hbr Hlt Hl Hfuel.
  - cbn [read_loop]. rewrite decide_False by lia.
    assert (bytes_to_read - bytes_read = 0) as -> by lia.
    by rewrite take_0, drop_0, app_nil_r.
  - cbn [read_loop]. destruct (decide (bytes_read < bytes_to_read)) as [Hlt'|Hge].
    + rewrite (size_t_small (bytes_to_read - bytes_read)) by lia.
      set (to_read := Z.min BUFFER_SIZE (bytes_to_read - bytes_read)).
      assert (Hto : 0 < to_read <= bytes_to_read - bytes_read) by lia.
      rewrite stream_read_enough by lia.
      assert (Hgot : size (take (Z.to_nat to_read) l) = to_read).
      { unfold size in *. rewrite length_take. lia. }
      rewrite Hgot, size_t_small by lia.
      rewrite IH; [|lia|lia| |lia].
      * rewrite <- app_assoc, take_take_drop, drop_drop.
        assert (Z.to_nat to_read + Z.to_nat (bytes_to_read - (bytes_read + to_read))
                = Z.to_nat (bytes_to_read - bytes_read))%nat as -> by lia.
        done.
      * unfold size in *. rewrite length_drop. lia.
    + assert (bytes_to_read - bytes_read = 0) as -> by lia.
      by rewrite take_0, drop_0, app_nil_r.
Qed.

Lemma chunks_read_0 (content : list byte) (n : nat) :
  chunks_read content n 0 = replicate n ChunkData_init.
Proof.
  unfold chunks_read. apply list_eq. intros j.
  rewrite list_lookup_fmap. destruct (decide (j < n)%nat).
  - rewrite lookup_seq_lt, lookup_replicate_2 by done. done.
  - rewrite lookup_seq_ge by lia. symmetry. apply lookup_replicate_None. lia.
Qed.

Lemma length_chunks_read (content : list byte) (n k : nat) :
  length (chunks_read content n k) = n.
Proof. unfold chunks_read. by rewrite length_fmap, length_seq. Qed.

Lemma chunks_read_lookup (content : list byte) (n k j : nat) :
  (j < n)%nat ->
  chunks_read content n k !! j =
  Some (if decide (j < k)%nat
        then {| index := Z.of_nat j; data := chunk_of content j;
                compressed_data := []; processed := false |}
        else ChunkData_init).
Proof.
  intros Hj. unfold chunks_read. rewrite list_lookup_fmap, lookup_seq_lt by done. done.
Qed.

Lemma chunks_read_step (content : list byte) (n k : nat) :
  (k < n)%nat ->
  <[k := {| index := Z.of_nat k; data := chunk_of content k;
            compressed_data := []; processed := false |}]> (chunks_read content n k)
  = chunks_read content n (S k).
Proof.
  intros Hk. apply list_eq. intros j.
  destruct (decide (j < n)%nat) as [Hj|Hj].
  - rewrite (chunks_read_lookup _ _ (S k)) by done.
    destruct (decide (j = k)) as [->|Hne].
    + rewrite list_lookup_insert_eq by (rewrite length_chunks_read; lia).
      by rewrite decide_True by lia.
    + rewrite list_lookup_insert_ne, chunks_read_lookup by done.
      do 2 f_equal. destruct (decide (j < k)%nat), (decide (j < S k)%nat); done || lia.
  - rewrite !lookup_ge_None_2; [done| |];
      rewrite ?length_insert, length_chunks_read; lia.
Qed.

Lemma size_chunk_of (content : list byte) (i : nat) :
  size (chunk_of content i)
  = Z.max 0 (Z.min CHUNK_SIZE (size content - Z.of_nat i * CHUNK_SIZE)).
Proof.
  pose proof CHUNK_SIZE_range. unfold chunk_of, size.
  rewrite length_take, length_drop. lia.
Qed.

Lemma read_chunks_prefix (content : list byte) (n k : nat) :
  (k <= n)%nat ->
  (Z.of_nat n - 1) * CHUNK_SIZE < size content < 2 ^ 64 ->
  for_each (pure_body (read_chunk (size content))) (seq 0 k)
    (chunks_read content n 0, Ifstream content true)
  = ((chunks_read content n k,
      Ifstream (drop (k * Z.to_nat CHUNK_SIZE) content) true), None).
Proof.
  pose proof CHUNK_SIZE_range as HC. intros Hk Hn.
  induction k as [|k IH]; [by rewrite drop_0|].
  rewrite seq_S, for_each_app, IH by lia. cbn [for_each plus].
  unfold pure_body, read_chunk, vector_at.
  rewrite chunks_read_lookup by lia. rewrite decide_False by lia.
  cbn [determinate bind ChunkData_init data compressed_data processed].
  assert (Hk' : Z.of_nat k * CHUNK_SIZE < size content) by nia.
  rewrite (size_t_small (Z.of_nat k * CHUNK_SIZE)) by nia.
  rewrite (size_t_small (size content - _)) by nia.
  set (btr := Z.min CHUNK_SIZE (size content - Z.of_nat k * CHUNK_SIZE)).
  assert (Hsz : size (drop (k * Z.to_nat CHUNK_SIZE) content)
                = size content - Z.of_nat k * CHUNK_SIZE).
  { unfold size in *. rewrite length_drop. nia. }
  rewrite read_loop_enough; [|lia|lia|lia|lia].
  rewrite Z.sub_0_r, app_nil_l.
  assert (Hdata : take (Z.to_nat btr) (drop (k * Z.to_nat CHUNK_SIZE) content)
                  = chunk_of content k).
  { unfold chunk_of. destruct (decide (CHUNK_SIZE <= size content - Z.of_nat k * CHUNK_SIZE)).
    - do 2 f_equal. lia.
    - rewrite !take_ge; [done| |]; unfold size in *; lia. }
  rewrite Hdata, chunks_read_step by lia.
  do 3 f_equal. rewrite drop_drop.
  destruct (decide (CHUNK_SIZE <= size content - Z.of_nat k * CHUNK_SIZE)).
  - f_equal. lia.
  - rewrite !drop_ge; [done| |]; unfold size in *; nia.
Qed.

End reading.

(** ** compress_file: the batch and the writing loop *)

Section compressing.
Context `{Constants} `{Machine} `{Zlib}.

Lemma metadata_bytes_chunk_metadata (filename : string) (file_size num_chunks : Z)
    (i : nat) (c : ChunkData) :
  metadata_bytes (chunk_metadata filename file_size num_chunks i c)
  = Some (header_bytes (uint32_t (Z.of_nat i)) (uint32_t num_chunks) file_size
            (size (data c)) (size (compressed_data c))
            (uint32_t (size (bytes_of_string filename))) (calculate_crc32 (data c))).
Proof.
  unfold metadata_bytes, object_representation, chunk_metadata, header_bytes.
  cbn [magic chunk_index total_chunks original_file_size uncompressed_chunk_size
       compressed_size filename_length crc32_checksum field_bytes].
  rewrite <- !fmap_app. apply mapM_id_Some.
Qed.

Lemma compress_task_slot (i : nat) (v : list ChunkData) (c : ChunkData) :
  v !! i = Some c ->
  compress_task i v = (let* c' := compress_slot c in inr (<[i := c']> v)).
Proof.
  intros Hc. unfold compress_task, compress_slot, vector_at. rewrite Hc.
  cbn [determinate bind]. by destruct (compress_data (data c)).
Qed.

Lemma compress_slot_again (c c' : ChunkData) :
  compress_slot c = inr c' -> compress_slot c' = inr c'.
Proof.
  unfold compress_slot. destruct (compress_data (data c)) as [|p] eqn:Hp; [done|].
  cbn [bind]. intros [= <-]. cbn [data index]. by rewrite Hp.
Qed.

Lemma compress_slot_inr (c c' : ChunkData) :
  compress_slot c = inr c' <->
  exists p, compress2 (data c) COMPRESSION_LEVEL = Some p /\
    c' = {| index := index c; data := data c; compressed_data := p; processed := true |}.
Proof.
  unfold compress_slot, compress_data.
  destruct (compress2 (data c) COMPRESSION_LEVEL) as [p|]; cbn [bind throw]; split.
  - intros [= <-]. by exists p.
  - intros (p' & [= <-] & ->). done.
  - done.
  - by intros (p' & ? & _).
Qed.

Lemma compress_slot_inl (c : ChunkData) (ft : fault) :
  compress_slot c = inl ft -> ft = Thrown (runtime_error "Compression failed").
Proof.
  unfold compress_slot, compress_data.
  destruct (compress2 (data c) COMPRESSION_LEVEL); cbn [bind throw]; congruence.
Qed.

(** The pool of [compress_chunks] under the two ways it can be run. *)
Lemma compress_chunks_unfold (num_chunks : Z) (v : list ChunkData) :
  compress_chunks num_chunks v =
  if decide (hardware_concurrency = 0%nat) then inr v
  else run_tasks (compress_task <$> seq 0 (Z.to_nat num_chunks))
         (completion_order (Z.to_nat num_chunks)) v.
Proof.
  unfold compress_chunks, drain. rewrite foldl_enqueue, app_nil_l.
  by rewrite length_fmap, length_seq.
Qed.

(** After the drain a slot is either as it was read or holds its
    compressed bytes with the flag set. *)
Lemma compress_chunks_slots (num_chunks : Z) (v v' : list ChunkData) :
  length v = Z.to_nat num_chunks ->
  compress_chunks num_chunks v = inr v' ->
  length v' = Z.to_nat num_chunks /\
  forall j c, v !! j = Some c ->
    exists c', v' !! j = Some c' /\ (c' = c \/ compress_slot c = inr c').
Proof.
  intros Hlen. rewrite compress_chunks_unfold.
  destruct (decide (hardware_concurrency = 0%nat)).
  - intros [= <-]. split; [done|]. intros j c Hj. exists c. by split; [|left].
  - intros Hrun.
    eapply (run_tasks_slots (fun _ => compress_slot) compress_task) in Hrun
      as [Hlen' Hslots]; eauto using compress_task_slot, compress_slot_again.
    split; [done|]. intros j c Hj. destruct (Hslots j c Hj) as [Hyes Hno].
    destruct (decide (j ∈ completion_order (Z.to_nat num_chunks))) as [Hin|Hin].
    + destruct (Hyes Hin) as (c' & ? & ?). exists c'. by split; [|right].
    + exists c. split; [by apply Hno|by left].
Qed.

(** With at least one worker, a normal drain has set every flag. *)
Lemma compress_chunks_all `{!MachineOK} (num_chunks : Z) (v v' : list ChunkData) :
  hardware_concurrency <> 0%nat ->
  length v = Z.to_nat num_chunks ->
  compress_chunks num_chunks v = inr v' ->
  forall j c, v !! j = Some c ->
    exists c', v' !! j = Some c' /\ compress_slot c = inr c'.
Proof.
  intros Hhw Hlen. rewrite compress_chunks_unfold, decide_False by done.
  intros Hrun.
  eapply (run_tasks_slots (fun _ => compress_slot) compress_task) in Hrun
    as [Hlen' Hslots]; eauto using compress_task_slot, compress_slot_again.
  intros j c Hj. destruct (Hslots j c Hj) as [Hyes _].
  destruct Hyes as (c' & ? & ?); [|by exists c'].
  rewrite (completion_order_perm (Z.to_nat num_chunks)).
  apply elem_of_seq. apply lookup_lt_Some in Hj. lia.
Qed.

End compressing.

(** ** Names of the chunk files *)

Lemma string_app_assoc (s t u : string) : (s +:+ t) +:+ u = s +:+ (t +:+ u).
Proof.
  induction s as [|a s IH]; [done|].
  change (String a ((s +:+ t) +:+ u) = String a (s +:+ (t +:+ u))). by rewrite IH.
Qed.

Lemma string_length_app (s t : string) :
  String.length (s +:+ t) = (String.length s + String.length t)%nat.
Proof. induction s as [|a s IH]; simpl; [done|]. by rewrite IH. Qed.

Lemma string_app_inj_r (s1 s2 t : string) : s1 +:+ t = s2 +:+ t -> s1 = s2.
Proof.
  revert s2. induction s1 as [|a s1 IH]; intros [|b s2] Heq.
  - done.
  - apply (f_equal String.length) in Heq.
    rewrite !string_length_app in Heq. simpl in Heq. lia.
  - apply (f_equal String.length) in Heq.
    rewrite !string_length_app in Heq. simpl in Heq. lia.
  - change (String a (s1 +:+ t) = String b (s2 +:+ t)) in Heq.
    injection Heq as -> Heq. f_equal. by apply IH.
Qed.

Lemma to_string_inj (a b : Z) : 0 <= a -> 0 <= b -> to_string a = to_string b -> a = b.
Proof.
  unfold to_string. intros Ha Hb Heq. apply (inj pretty) in Heq. lia.
Qed.

Section names.
Context `{Constants}.

Lemma chunk_filename_inj (output_dir : string) (num_chunks : Z) (i j : nat) :
  Z.of_nat i + 1 < 2 ^ 64 -> Z.of_nat j + 1 < 2 ^ 64 ->
  chunk_filename output_dir i num_chunks = chunk_filename output_dir j num_chunks ->
  i = j.
Proof.
  intros Hi Hj. unfold chunk_filename. intros Heq.
  apply (inj (String.app output_dir)) in Heq.
  apply (inj (String.app "/chunk_")) in Heq.
  apply string_app_inj_r in Heq.
  rewrite !size_t_small in Heq by lia.
  apply to_string_inj in Heq; lia.
Qed.

Lemma chunk_filename_not_empty (output_dir : string) (num_chunks : Z) (i : nat) :
  chunk_filename output_dir i num_chunks <> "".
Proof.
  unfold chunk_filename. intros Heq. apply (f_equal String.length) in Heq.
  rewrite !string_length_app in Heq. simpl in Heq. lia.
Qed.

End names.

(** ** Association lists *)

Lemma assoc_lookup_insert {A} (k : string) (v : A) (l : list (string * A)) :
  assoc_lookup k (assoc_insert k v l) = Some v.
Proof.
  induction l as [|[k' v'] l IH]; simpl.
  - by rewrite decide_True.
  - destruct (decide (k' = k)) as [->|Hne]; simpl.
    + by rewrite decide_True.
    + by rewrite decide_False.
Qed.

Lemma assoc_lookup_insert_ne {A} (k k0 : string) (v : A) (l : list (string * A)) :
  k <> k0 -> assoc_lookup k0 (assoc_insert k v l) = assoc_lookup k0 l.
Proof.
  intros Hne. induction l as [|[k' v'] l IH]; simpl.
  - by rewrite decide_False.
  - destruct (decide (k' = k)) as [->|Hne']; simpl.
    + by rewrite !decide_False.
    + destruct (decide (k' = k0)); [done|]. apply IH.
Qed.

Lemma read_file_write_file (fs fs' : filesystem) (p : string) (content : list byte) :
  write_file p content fs = Some fs' -> read_file fs' p = Some content.
Proof.
  unfold write_file, read_file. case_match; [done|]. intros [= <-]. simpl.
  apply assoc_lookup_insert.
Qed.

Lemma read_file_write_file_ne (fs fs' : filesystem) (p q : string) (content : list byte) :
  write_file p content fs = Some fs' -> p <> q -> read_file fs' q = read_file fs q.
Proof.
  unfold write_file, read_file. case_match; [done|]. intros [= <-] Hne. simpl.
  by apply assoc_lookup_insert_ne.
Qed.

Lemma write_file_frame (fs fs' : filesystem) (p : string) (content : list byte) :
  write_file p content fs = Some fs' -> dirs fs' = dirs fs /\ denied fs' = denied fs.
Proof. unfold write_file. case_match; [done|]. by intros [= <-]. Qed.

Lemma write_file_Some (fs : filesystem) (p : string) (content : list byte) :
  is_Some (write_file p content fs) <->
  denied fs p = false /\ (p ∉ dirs fs) /\ p <> "".
Proof.
  unfold write_file.
  destruct (denied fs p); simpl; [split; [by intros [? ?]|by intros [? _]]|].
  destruct (decide (p ∈ dirs fs)) as [Hd|Hd].
  - rewrite bool_decide_eq_true_2 by done. simpl.
    split; [by intros [? ?]|by intros (_ & ? & _)].
  - rewrite bool_decide_eq_false_2 by done. simpl.
    destruct (decide (p = "")) as [->|Hp].
    + rewrite bool_decide_eq_true_2 by done.
      split; [by intros [? ?]|by intros (_ & _ & ?)].
    + rewrite bool_decide_eq_false_2 by done. split; [done|by eexists].
Qed.

(** ** compress_file as a whole *)

Section compress_file_facts.
Context `{Constants} `{Machine} `{Zlib} `{!ConstantsOK}.

Lemma write_chunk_processed (filename output_dir : string) (file_size num_chunks : Z)
    (v : list ChunkData) (i : nat) (c : ChunkData) (fs : filesystem) :
  v !! i = Some c -> processed c = true ->
  write_chunk filename output_dir file_size num_chunks v i fs =
  match write_file (chunk_filename output_dir i num_chunks)
          (chunk_record filename file_size num_chunks i (data c) (compressed_data c)) fs with
  | Some fs' => (fs', None)
  | None => (fs, Some (Thrown (runtime_error "Cannot create output chunk file")))
  end.
Proof.
  intros Hc Hp. unfold write_chunk. rewrite Hc, Hp. cbn [negb].
  by rewrite metadata_bytes_chunk_metadata.
Qed.

Lemma write_chunk_unprocessed (filename output_dir : string) (file_size num_chunks : Z)
    (v : list ChunkData) (i : nat) (c : ChunkData) (fs : filesystem) :
  v !! i = Some c -> processed c = false ->
  write_chunk filename output_dir file_size num_chunks v i fs =
  (fs, Some (Thrown (runtime_error "Chunk processing failed"))).
Proof. intros Hc Hp. unfold write_chunk. by rewrite Hc, Hp. Qed.

Lemma write_chunk_returns (filename output_dir : string) (file_size num_chunks : Z)
    (v : list ChunkData) (i : nat) (fs fs' : filesystem) :
  write_chunk filename output_dir file_size num_chunks v i fs = (fs', None) ->
  exists c, v !! i = Some c /\ processed c = true /\
    write_file (chunk_filename output_dir i num_chunks)
      (chunk_record filename file_size num_chunks i (data c) (compressed_data c)) fs
    = Some fs'.
Proof.
  intros Hw. destruct (v !! i) as [c|] eqn:Hc; [|unfold write_chunk in Hw; by rewrite Hc in Hw].
  destruct (processed c) eqn:Hp.
  - rewrite (write_chunk_processed _ _ _ _ _ _ _ _ Hc Hp) in Hw.
    exists c. repeat split; [done|]. by destruct (write_file _ _ fs); simplify_eq.
  - by rewrite (write_chunk_unprocessed _ _ _ _ _ _ _ _ Hc Hp) in Hw.
Qed.

(** A writing loop that ran [k] iterations to the end: all [k] flags were
    set, each record is on disk under its name, nothing else changed. *)
Lemma write_loop_returns (filename output_dir : string) (file_size num_chunks : Z)
    (v : list ChunkData) (k : nat) (fs fs' : filesystem) :
  Z.of_nat k < 2 ^ 64 ->
  for_each (write_chunk filename output_dir file_size num_chunks v) (seq 0 k) fs
    = (fs', None) ->
  dirs fs' = dirs fs /\ denied fs' = denied fs /\
  (forall i, (i < k)%nat -> exists c, v !! i = Some c /\ processed c = true /\
     read_file fs' (chunk_filename output_dir i num_chunks)
     = Some (chunk_record filename file_size num_chunks i (data c) (compressed_data c))) /\
  (forall p, (forall i, (i < k)%nat -> p <> chunk_filename output_dir i num_chunks) ->
     read_file fs' p = read_file fs p).
Proof.
  revert fs'. induction k as [|k IH]; intros fs' Hk Hloop.
  - simpl in Hloop. injection Hloop as <-.
    split; [done|]. split; [done|]. split; [intros; lia|done].
  - rewrite seq_S, for_each_app in Hloop. cbn [plus] in Hloop.
    destruct (for_each _ (seq 0 k) fs) as [fs1 [ft|]] eqn:Hpre; [done|].
    destruct (IH fs1 ltac:(lia) eq_refl) as (Hd & Hden & Hrec & Hframe).
    cbn [for_each] in Hloop.
    destruct (write_chunk _ _ _ _ v k fs1) as [fs2 [ft|]] eqn:Hw; [done|].
    injection Hloop as ->.
    apply write_chunk_returns in Hw as (c & Hc & Hp & Hw).
    destruct (write_file_frame _ _ _ _ Hw) as [Hd' Hden'].
    split; [congruence|]. split; [congruence|]. split.
    + intros i Hi. destruct (decide (i = k)) as [->|Hne].
      * exists c. split; [done|]. split; [done|]. by eapply read_file_write_file.
      * destruct (Hrec i ltac:(lia)) as (ci & Hci & Hpi & Hri).
        exists ci. split; [done|]. split; [done|].
        rewrite <- Hri. eapply read_file_write_file_ne; [done|].
        intros Heq. apply chunk_filename_inj in Heq; lia.
    + intros p Hp'. rewrite <- Hframe by (intros; apply Hp'; lia).
      eapply read_file_write_file_ne; [done|]. intros <-. by apply (Hp' k); [lia|].
Qed.

Lemma path_prefixes_from_prefix (seen p q : string) :
  q ∈ path_prefixes_from seen p -> exists u t, p = u +:+ t /\ q = seen +:+ u.
Proof.
  revert seen. induction p as [|a p IH]; intros seen Hq.
  - apply list_elem_of_singleton in Hq as ->. exists "", "". split; [done|].
    clear. induction seen as [|b seen IH]; [done|].
    change (String b seen = String b (seen +:+ "")). by rewrite <- IH.
  - cbn [path_prefixes_from] in Hq. apply elem_of_app in Hq as [Hq|Hq].
    + case_decide; [|by apply elem_of_nil in Hq].
      apply list_elem_of_singleton in Hq as ->. exists "", (String a p). split; [done|].
      clear. induction seen as [|b seen IH]; [done|].
      change (String b seen = String b (seen +:+ "")). by rewrite <- IH.
    + destruct (IH _ Hq) as (u & t & -> & ->).
      exists (String a u), t. split; [done|]. by rewrite string_app_assoc.
Qed.

Lemma path_prefixes_from_whole (seen p : string) :
  seen +:+ p ∈ path_prefixes_from seen p.
Proof.
  revert seen. induction p as [|a p IH]; intros seen.
  - cbn [path_prefixes_from]. apply list_elem_of_singleton.
    clear. induction seen as [|b seen IH]; [done|].
    change (String b (seen +:+ "") = String b seen). by rewrite IH.
  - cbn [path_prefixes_from]. apply elem_of_app. right.
    specialize (IH (seen +:+ String a "")). by rewrite string_app_assoc in IH.
Qed.

(** Every path [fs::create_directories(d)] goes through is a prefix of
    [d], and [d] is the last of them. *)
Lemma path_prefixes_prefix (d q : string) :
  q ∈ path_prefixes d -> exists t, d = q +:+ t.
Proof.
  intros Hq. destruct (path_prefixes_from_prefix _ _ _ Hq) as (u & t & -> & ->). by exists t.
Qed.

Lemma path_prefixes_whole (d : string) : d ∈ path_prefixes d.
Proof. apply (path_prefixes_from_whole "" d). Qed.

Lemma create_directory_Some (q : string) (fs fs' : filesystem) :
  create_directory q fs = Some fs' ->
  files fs' = files fs /\ denied fs' = denied fs /\
  (forall d, d ∈ dirs fs' <-> d ∈ dirs fs \/ d = q).
Proof.
  unfold create_directory. intros Hc. case_decide as Hin.
  - simplify_eq. split; [done|]. split; [done|]. intros d. split; [by left|].
    by intros [?| ->].
  - destruct (_ || _); simplify_eq. cbn [files denied dirs].
    split; [done|]. split; [done|]. intros d.
    rewrite elem_of_app, list_elem_of_singleton. done.
Qed.

(** What making the chain of directories does: the files and the refusals
    are as before, no directory is removed, the new directories are among
    the chain, all of which exist when no error is raised, and the only
    error is the [filesystem_error]. *)
Lemma create_chain_spec (d : string) (qs : list string) (fs : filesystem) :
  let r := create_chain d qs fs in
  files r.1 = files fs /\ denied r.1 = denied fs /\
  (forall q, q ∈ dirs fs -> q ∈ dirs r.1) /\
  (forall q, q ∈ dirs r.1 -> q ∈ dirs fs \/ q ∈ qs) /\
  (r.2 = None -> forall q, q ∈ qs -> q ∈ dirs r.1) /\
  (r.2 = None \/ r.2 = Some (Thrown (filesystem_error d))).
Proof.
  revert fs. induction qs as [|q qs IH]; intros fs; cbn [create_chain].
  - cbn. split; [done|]. split; [done|]. split; [done|]. split; [by left|].
    split; [|by left]. intros _ q Hq. by apply elem_of_nil in Hq.
  - destruct (create_directory q fs) as [fs'|] eqn:Hc.
    + destruct (create_directory_Some _ _ _ Hc) as (Hf & Hden & Hd).
      destruct (IH fs') as (Hf' & Hden' & Hkeep & Hnew & Hall & Herr). cbv zeta.
      split; [congruence|]. split; [congruence|]. split.
      { intros q' Hq'. apply Hkeep, Hd. by left. }
      split.
      { intros q' Hq'. destruct (Hnew q' Hq') as [Hq''|Hq''].
        - apply Hd in Hq'' as [?| ->]; [by left|]. right. left.
        - right. by right. }
      split; [|done]. intros Hnone q' Hq'. apply elem_of_cons in Hq' as [->|Hq'].
      * apply Hkeep, Hd. by right.
      * by apply Hall.
    + cbn. split; [done|]. split; [done|]. split; [done|]. split; [by left|].
      split; [done|]. by right.
Qed.

Lemma create_directories_spec (d : string) (fs : filesystem) :
  let r := create_directories d fs in
  files r.1 = files fs /\ denied r.1 = denied fs /\
  (forall q, q ∈ dirs fs -> q ∈ dirs r.1) /\
  (forall q, q ∈ dirs r.1 -> q ∈ dirs fs \/ q ∈ path_prefixes d) /\
  (r.2 = None -> d ∈ dirs r.1) /\
  (r.2 = None \/ r.2 = Some (Thrown (filesystem_error d))).
Proof.
  unfold create_directories. case_decide as Hin.
  - cbn. split; [done|]. split; [done|]. split; [done|]. split; [by left|].
    split; [done|]. by left.
  - destruct (create_chain_spec d (path_prefixes d) fs) as (Hf & Hden & Hkeep & Hnew & Hall & Herr).
    cbv zeta. split; [done|]. split; [done|]. split; [done|]. split; [done|].
    split; [|done]. intros Hnone. apply Hall; [done|]. apply path_prefixes_whole.
Qed.

Lemma read_file_create_directories (d p : string) (fs : filesystem) :
  read_file (create_directories d fs).1 p = read_file fs p.
Proof.
  unfold read_file. by destruct (create_directories_spec d fs) as (-> & _).
Qed.

Lemma denied_create_directories (d : string) (fs : filesystem) :
  denied (create_directories d fs).1 = denied fs.
Proof. by destruct (create_directories_spec d fs) as (_ & -> & _). Qed.

Lemma files_create_directories (d : string) (fs : filesystem) :
  files (create_directories d fs).1 = files fs.
Proof. by destruct (create_directories_spec d fs) as (-> & _). Qed.

Lemma elem_of_dirs_create_directories (d : string) (fs : filesystem) :
  (create_directories d fs).2 = None -> d ∈ dirs (create_directories d fs).1.
Proof. by destruct (create_directories_spec d fs) as (_ & _ & _ & _ & ? & _). Qed.

Lemma open_in_file (fs : filesystem) (p : string) (content : list byte) :
  read_file fs p = Some content ->
  open_in fs p = if denied fs p then Ifstream [] false else Ifstream content true.
Proof. intros Hr. unfold open_in. by rewrite Hr. Qed.

(** The first loop, run to its end on a file of [sz] bytes. *)
Lemma read_chunks_all (content : list byte) :
  size content + CHUNK_SIZE <= 2 ^ 64 ->
  let nz := (size content + CHUNK_SIZE - 1) / CHUNK_SIZE in
  read_chunks (size content) nz (Ifstream content true)
  = ((chunks_read content (Z.to_nat nz) (Z.to_nat nz),
      Ifstream (drop (Z.to_nat nz * Z.to_nat CHUNK_SIZE) content) true), None).
Proof.
  intros Hsz nz. pose proof CHUNK_SIZE_range as HC.
  pose proof (size_nonneg content) as Hnn.
  destruct (num_chunks_bounds (size content) Hnn) as [Hn0 Hn]. fold nz in Hn0, Hn.
  unfold read_chunks. rewrite <- (chunks_read_0 content).
  apply read_chunks_prefix; [done|]. lia.
Qed.

End compress_file_facts.

Section compress_file_whole.
Context `{Constants} `{Machine} `{Zlib} `{!ConstantsOK}.

(** The first part of [compress_file] on a regular file. *)
Lemma compress_file_read_file (input_path output_dir : string) (content : list byte)
    (fs : filesystem) :
  read_file fs input_path = Some content ->
  size content + CHUNK_SIZE <= 2 ^ 64 ->
  let nz := (size content + CHUNK_SIZE - 1) / CHUNK_SIZE in
  compress_file_read input_path output_dir fs =
  match (create_directories output_dir fs).2 with
  | Some f => ((create_directories output_dir fs).1, inl f)
  | None =>
      if denied fs input_path
      then ((create_directories output_dir fs).1, throw "Cannot open input file")
      else ((create_directories output_dir fs).1,
            inr (size content, chunks_read content (Z.to_nat nz) (Z.to_nat nz)))
  end.
Proof.
  intros Hin Hsz nz. pose proof CHUNK_SIZE_range as HC.
  pose proof (size_nonneg content) as Hnn.
  unfold compress_file_read.
  assert (Hex : fs_exists fs input_path = true).
  { unfold fs_exists. rewrite Hin.
    rewrite (bool_decide_eq_true_2 (is_Some (Some content))) by (by eexists).
    apply orb_true_r. }
  rewrite Hex. cbn [negb].
  pose proof (read_file_create_directories output_dir input_path fs) as Hr1.
  pose proof (denied_create_directories output_dir fs) as Hd1.
  destruct (create_directories output_dir fs) as [fs1 [f|]]; cbn [fst snd] in *; [done|].
  rewrite Hin in Hr1.
  rewrite (open_in_file _ _ content) by done.
  rewrite Hd1. destruct (denied fs input_path); [done|]. cbn [good rest negb].
  rewrite Hr1. rewrite (size_t_small (size content + CHUNK_SIZE - 1)) by lia.
  pose proof (read_chunks_all content Hsz) as Hread. cbv zeta in Hread.
  by rewrite Hread.
Qed.

(** [compress_file] on a file that opens, once the output directory is
    there, as its last two phases. *)
Lemma compress_file_phases (input_path output_dir : string) (content : list byte)
    (fs : filesystem) :
  read_file fs input_path = Some content ->
  denied fs input_path = false ->
  size content + CHUNK_SIZE <= 2 ^ 64 ->
  (create_directories output_dir fs).2 = None ->
  let nz := (size content + CHUNK_SIZE - 1) / CHUNK_SIZE in
  let fs1 := (create_directories output_dir fs).1 in
  compress_file_body input_path output_dir fs =
  match compress_chunks nz (chunks_read content (Z.to_nat nz) (Z.to_nat nz)) with
  | inl f => (fs1, Some f)
  | inr v => write_chunks (path_filename input_path) output_dir (size content) nz v fs1
  end.
Proof.
  intros Hin Hden Hsz Hcd nz fs1. pose proof CHUNK_SIZE_range as HC.
  pose proof (size_nonneg content) as Hnn.
  unfold compress_file_body.
  rewrite (compress_file_read_file _ _ content) by done. rewrite Hcd, Hden.
  by rewrite (size_t_small (size content + CHUNK_SIZE - 1)) by lia.
Qed.

Lemma compress_file_call_phases (input_path output_dir : string) (content : list byte)
    (fs : filesystem) :
  read_file fs input_path = Some content ->
  denied fs input_path = false ->
  size content + CHUNK_SIZE <= 2 ^ 64 ->
  (create_directories output_dir fs).2 = None ->
  let nz := (size content + CHUNK_SIZE - 1) / CHUNK_SIZE in
  let fs1 := (create_directories output_dir fs).1 in
  compress_file input_path output_dir fs =
  match compress_chunks nz (chunks_read content (Z.to_nat nz) (Z.to_nat nz)) with
  | inl f => ending_of (fs1, Some f)
  | inr v =>
      pool_destroyed_again
        (write_chunks (path_filename input_path) output_dir (size content) nz v fs1)
  end.
Proof.
  intros Hin Hden Hsz Hcd nz fs1. pose proof CHUNK_SIZE_range as HC.
  pose proof (size_nonneg content) as Hnn.
  unfold compress_file.
  rewrite (compress_file_read_file _ _ content) by done. rewrite Hcd, Hden.
  by rewrite (size_t_small (size content + CHUNK_SIZE - 1)) by lia.
Qed.

(** A call of [compress_file] whose block runs to its end does not
    return: [pool] is destroyed once more. *)
Lemma compress_file_body_end (input_path output_dir : string) (fs fs' : filesystem) :
  compress_file_body input_path output_dir fs = (fs', None) ->
  compress_file input_path output_dir fs = Unknown "pool.~ThreadPool() twice".
Proof.
  unfold compress_file_body, compress_file.
  destruct (compress_file_read input_path output_dir fs) as [fs1 [ft|[file_size v]]]; [done|].
  cbv zeta. destruct (compress_chunks _ v) as [ft|v']; [done|]. by intros ->.
Qed.

Lemma compress_file_never_returns (input_path output_dir : string) (fs fs' : filesystem) :
  compress_file input_path output_dir fs <> Returns fs'.
Proof.
  unfold compress_file.
  destruct (compress_file_read input_path output_dir fs) as [fs1 [ft|[file_size v]]].
  - by destruct ft.
  - cbv zeta. destruct (compress_chunks _ v) as [ft|v']; [by destruct ft|].
    by destruct (write_chunks _ _ _ _ v' fs1) as [fs2 [[]|]].
Qed.

(** A run of [compress_file] that reaches the end of its block: the output
    directory was made, every chunk was compressed, every record is on disk
    under its name, nothing else was touched. *)
Lemma compress_file_returns (input_path output_dir : string) (content : list byte)
    (fs fs' : filesystem) :
  read_file fs input_path = Some content ->
  size content + CHUNK_SIZE <= 2 ^ 64 ->
  compress_file_body input_path output_dir fs = (fs', None) ->
  let nz := (size content + CHUNK_SIZE - 1) / CHUNK_SIZE in
  denied fs input_path = false /\
  (create_directories output_dir fs).2 = None /\
  dirs fs' = dirs (create_directories output_dir fs).1 /\
  denied fs' = denied fs /\
  (forall i, (i < Z.to_nat nz)%nat -> exists payload,
     compress2 (chunk_of content i) COMPRESSION_LEVEL = Some payload /\
     read_file fs' (chunk_filename output_dir i nz)
     = Some (chunk_record (path_filename input_path) (size content) nz i
               (chunk_of content i) payload)) /\
  (forall p, (forall i, (i < Z.to_nat nz)%nat -> p <> chunk_filename output_dir i nz) ->
     read_file fs' p = read_file fs p).
Proof.
  intros Hin Hsz Hrun nz. pose proof CHUNK_SIZE_range as HC.
  pose proof (size_nonneg content) as Hnn.
  destruct (num_chunks_bounds (size content) Hnn) as [Hn0 Hn]. fold nz in Hn0, Hn.
  assert (Hcd : (create_directories output_dir fs).2 = None).
  { unfold compress_file_body in Hrun.
    rewrite (compress_file_read_file _ _ content) in Hrun by done.
    by destruct ((create_directories output_dir fs).2). }
  assert (Hden : denied fs input_path = false).
  { unfold compress_file_body in Hrun.
    rewrite (compress_file_read_file _ _ content) in Hrun by done.
    rewrite Hcd in Hrun. by destruct (denied fs input_path). }
  rewrite (compress_file_phases _ _ content) in Hrun by done. fold nz in Hrun.
  destruct (compress_chunks nz _) as [ft|v'] eqn:Hdrain; [done|].
  apply compress_chunks_slots in Hdrain as [Hlen' Hslots];
    [|by rewrite length_chunks_read].
  apply write_loop_returns in Hrun as (Hd & Hden' & Hrec & Hframe); [|nia].
  split; [done|]. split; [done|]. split; [done|].
  split; [by rewrite Hden', denied_create_directories|]. split.
  - intros i Hi. destruct (Hrec i Hi) as (c' & Hc' & Hp & Hr).
    destruct (Hslots i _ (chunks_read_lookup content _ _ i Hi)) as (c'' & Hc'' & Hcase).
    rewrite decide_True in Hcase by done.
    assert (c'' = c') as -> by congruence.
    destruct Hcase as [->|Hslot]; [done|].
    apply compress_slot_inr in Hslot as (payload & Hz & ->).
    exists payload. split; [done|]. by rewrite Hr.
  - intros p Hp. rewrite Hframe by done. apply read_file_create_directories.
Qed.

End compress_file_whole.

(** ** Chunk count and sizes *)

Section index_invariant.
Context `{Constants} `{Machine} `{Zlib} `{!ConstantsOK}.

Lemma sum_Z_app (l1 l2 : list Z) : sum_Z (l1 ++ l2) = sum_Z l1 + sum_Z l2.
Proof. unfold sum_Z. induction l1 as [|x l1 IH]; simpl; lia. Qed.

Lemma sum_chunk_sizes (sz : Z) (k : nat) :
  0 <= sz -> (k = 0%nat \/ (Z.of_nat k - 1) * CHUNK_SIZE < sz) ->
  sum_Z ((fun i : nat => Z.min CHUNK_SIZE (sz - Z.of_nat i * CHUNK_SIZE)) <$> seq 0 k)
  = Z.min sz (Z.of_nat k * CHUNK_SIZE).
Proof.
  pose proof CHUNK_SIZE_range as HC. intros Hsz.
  induction k as [|k IH]; intros Hk.
  - simpl. lia.
  - rewrite seq_S, fmap_app, sum_Z_app. cbn [plus fmap list_fmap sum_Z foldr].
    rewrite IH by (destruct k; [by left|right; lia]). lia.
Qed.

Lemma header_of_chunk_record (filename : string) (file_size num_chunks : Z) (i : nat)
    (uncompressed payload : list byte) :
  header_of (chunk_record filename file_size num_chunks i uncompressed payload) =
  {| magic := magic_tag;
     chunk_index := Some (uint32_t (Z.of_nat i) mod 2 ^ 32);
     total_chunks := Some (uint32_t num_chunks mod 2 ^ 32);
     original_file_size := Some (file_size mod 2 ^ 64);
     uncompressed_chunk_size := Some (size uncompressed mod 2 ^ 64);
     compressed_size := Some (size payload mod 2 ^ 64);
     filename_length := Some (uint32_t (size (bytes_of_string filename)) mod 2 ^ 32);
     crc32_checksum := Some (calculate_crc32 uncompressed mod 2 ^ 32) |}.
Proof. unfold header_of, chunk_record. by rewrite read_metadata_header. Qed.

(** C4.  When the writing loop of [compress_file] is through (control is
    at the end of the block, line 233, with the file system [fs']), a file of
    [sz] bytes compressed with chunk size [CHUNK_SIZE] has given exactly
    [ceil(sz / CHUNK_SIZE)] chunk records (the integer [nz] with
    [(nz - 1) * CHUNK_SIZE < sz <= nz * CHUNK_SIZE]), under pairwise distinct
    names and touching no other file; the header of record [i] stores
    [uncompressed_chunk_size = min(CHUNK_SIZE, sz - i * CHUNK_SIZE)], and
    these fields add up to [sz]. *)
Theorem compress_file_index_invariant (input_path output_dir : string)
    (content : list byte) (fs fs' : filesystem) :
  read_file fs input_path = Some content ->
  size content + CHUNK_SIZE <= 2 ^ 64 ->
  compress_file_body input_path output_dir fs = (fs', None) ->
  let sz := size content in
  let nz := (sz + CHUNK_SIZE - 1) / CHUNK_SIZE in
  let name := fun i : nat => chunk_filename output_dir i nz in
  let stored_size := fun i : nat =>
    uncompressed_chunk_size (header_of (default [] (read_file fs' (name i)))) in
  (0 <= nz /\ (nz - 1) * CHUNK_SIZE < sz <= nz * CHUNK_SIZE) /\
  NoDup (name <$> seq 0 (Z.to_nat nz)) /\
  (forall p, p ∉ name <$> seq 0 (Z.to_nat nz) -> read_file fs' p = read_file fs p) /\
  (forall i, (i < Z.to_nat nz)%nat ->
     is_Some (read_file fs' (name i)) /\
     size (chunk_of content i) = Z.min CHUNK_SIZE (sz - Z.of_nat i * CHUNK_SIZE) /\
     stored_size i = Some (Z.min CHUNK_SIZE (sz - Z.of_nat i * CHUNK_SIZE))) /\
  sum_Z ((fun i => default 0 (stored_size i)) <$> seq 0 (Z.to_nat nz)) = sz.
Proof.
  intros Hin Hsz Hrun sz nz name stored_size. pose proof CHUNK_SIZE_range as HC.
  pose proof (size_nonneg content) as Hnn.
  destruct (num_chunks_bounds (size content) Hnn) as [Hn0 Hn].
  fold sz nz in Hn0, Hn.
  destruct (compress_file_returns _ _ _ _ _ Hin Hsz Hrun) as (_ & _ & _ & _ & Hrec & Hframe).
  fold sz nz in Hrec, Hframe.
  assert (Hfield : forall i, (i < Z.to_nat nz)%nat ->
    is_Some (read_file fs' (name i)) /\
    size (chunk_of content i) = Z.min CHUNK_SIZE (sz - Z.of_nat i * CHUNK_SIZE) /\
    stored_size i = Some (Z.min CHUNK_SIZE (sz - Z.of_nat i * CHUNK_SIZE))).
  { intros i Hi. destruct (Hrec i Hi) as (payload & _ & Hr).
    assert (Hlen : size (chunk_of content i)
                   = Z.min CHUNK_SIZE (sz - Z.of_nat i * CHUNK_SIZE)).
    { rewrite size_chunk_of. fold sz. nia. }
    split; [by eexists|]. split; [done|].
    unfold stored_size, name. rewrite Hr. cbn [from_option id].
    rewrite header_of_chunk_record. cbn [uncompressed_chunk_size].
    rewrite Hlen, Z.mod_small; [done|]. nia. }
  split; [done|]. split; [|split; [|split; [done|]]].
  - apply NoDup_fmap_2_strong; [|apply NoDup_seq].
    intros i j [_ Hi]%elem_of_seq [_ Hj]%elem_of_seq Heq.
    apply chunk_filename_inj in Heq; [done|nia|nia].
  - intros p Hp. apply Hframe. intros i Hi ->. apply Hp.
    apply list_elem_of_fmap. exists i. split; [done|]. apply elem_of_seq. lia.
  - transitivity (Z.min sz (Z.of_nat (Z.to_nat nz) * CHUNK_SIZE)); [|lia].
    rewrite <- sum_chunk_sizes by (done || lia). f_equal.
    apply list_fmap_ext. intros k i Hk. apply lookup_seq in Hk as [Heq Hk].
    cbn [plus] in Heq. subst i. destruct (Hfield k Hk) as (_ & _ & ->). done.
Qed.

(** C8.  When the writing loop of [compress_file] is through (control is
    at the end of the block, line 233, with the file system [fs']), for every
    chunk [i] the file [output_dir/chunk_{i+1}_of_{total}.dchunk] holds, in
    this order and with nothing in between: the 48-byte packed header (magic,
    then the fields in declaration order, little-endian), the bytes of the
    file name ([filename_length] of them, no terminator), and the
    [compressed_size] bytes of the payload. *)
Theorem compress_file_record_layout (input_path output_dir : string)
    (content : list byte) (fs fs' : filesystem) (i : nat) :
  read_file fs input_path = Some content ->
  size content + CHUNK_SIZE <= 2 ^ 64 ->
  compress_file_body input_path output_dir fs = (fs', None) ->
  let sz := size content in
  let nz := (sz + CHUNK_SIZE - 1) / CHUNK_SIZE in
  let filename := bytes_of_string (path_filename input_path) in
  (i < Z.to_nat nz)%nat ->
  exists payload header,
    compress2 (chunk_of content i) COMPRESSION_LEVEL = Some payload /\
    header = magic_tag
             ++ le_bytes 4 (uint32_t (Z.of_nat i))
             ++ le_bytes 4 (uint32_t nz)
             ++ le_bytes 8 sz
             ++ le_bytes 8 (size (chunk_of content i))
             ++ le_bytes 8 (size payload)
             ++ le_bytes 4 (uint32_t (size filename))
             ++ le_bytes 4 (uint32_t (crc32 (chunk_of content i))) /\
    size header = sizeof_ChunkMetadata /\
    read_file fs'
      (output_dir +:+ "/chunk_" +:+ to_string (Z.of_nat i + 1) +:+ "_of_"
       +:+ to_string nz +:+ ".dchunk")
    = Some (header ++ filename ++ payload).
Proof.
  intros Hin Hsz Hrun sz nz filename Hi. pose proof CHUNK_SIZE_range as HC.
  pose proof (size_nonneg content) as Hnn.
  destruct (num_chunks_bounds (size content) Hnn) as [Hn0 Hn].
  fold sz nz in Hn0, Hn.
  destruct (compress_file_returns _ _ _ _ _ Hin Hsz Hrun) as (_ & _ & _ & _ & Hrec & _).
  fold sz nz in Hrec.
  destruct (Hrec i Hi) as (payload & Hz & Hr).
  exists payload, (header_bytes (uint32_t (Z.of_nat i)) (uint32_t nz) sz
                     (size (chunk_of content i)) (size payload)
                     (uint32_t (size filename)) (calculate_crc32 (chunk_of content i))).
  split; [done|]. split; [done|]. split.
  - unfold size. by rewrite length_header_bytes.
  - unfold chunk_filename in Hr. rewrite size_t_small in Hr by nia. exact Hr.
Qed.

End index_invariant.

(** ** The completion check of compress_file *)

Section completion_check.
Context `{Constants} `{Machine} `{Zlib} `{!ConstantsOK}.

(** C6.  Once the pool has been drained, the flag of a chunk can be unset
    only when the pool has no worker, and then the flag of chunk 0 is unset
    too: the writing loop reaches [throw "Chunk processing failed"] in its
    first iteration, in the file system it started from, and no chunk record
    has been written.  That much is as the claim has it.  But the exception
    is raised after [pool.~ThreadPool()] (line 190), so unwinding destroys
    [pool] a second time: the call does not end with the exception reaching
    its caller. *)
Theorem unset_flag_error_is_not_delivered `{!MachineOK} (input_path output_dir : string)
    (content : list byte) (fs : filesystem) (drained : list ChunkData) :
  read_file fs input_path = Some content ->
  denied fs input_path = false ->
  size content + CHUNK_SIZE <= 2 ^ 64 ->
  (create_directories output_dir fs).2 = None ->
  let nz := (size content + CHUNK_SIZE - 1) / CHUNK_SIZE in
  let fs1 := (create_directories output_dir fs).1 in
  compress_chunks nz (chunks_read content (Z.to_nat nz) (Z.to_nat nz)) = inr drained ->
  (exists i c, drained !! i = Some c /\ processed c = false) ->
  hardware_concurrency = 0%nat /\
  write_chunks (path_filename input_path) output_dir (size content) nz drained fs1
    = (fs1, Some (Thrown (runtime_error "Chunk processing failed"))) /\
  compress_file_body input_path output_dir fs
    = (fs1, Some (Thrown (runtime_error "Chunk processing failed"))) /\
  files fs1 = files fs /\
  compress_file input_path output_dir fs = Unknown "pool.~ThreadPool() twice" /\
  compress_file input_path output_dir fs
    <> Throws (runtime_error "Chunk processing failed") fs1.
Proof.
  intros Hin Hden Hsz Hcd nz fs1 Hdrain (i & c & Hi & Hc).
  assert (Hhw0 : hardware_concurrency = 0%nat).
  { destruct (decide (hardware_concurrency = 0%nat)) as [Hhw|Hhw]; [done|]. exfalso.
    assert (Hn : (i < Z.to_nat nz)%nat).
    { apply compress_chunks_slots in Hdrain as [Hlen _];
        [|by rewrite length_chunks_read].
      apply lookup_lt_Some in Hi. lia. }
    destruct (compress_chunks_all nz _ _ Hhw (length_chunks_read _ _ _) Hdrain i _
                (chunks_read_lookup content _ _ i Hn)) as (c' & Hc' & Hslot).
    apply compress_slot_inr in Hslot as (p & _ & ->).
    assert (c = {| index := index (if decide (i < Z.to_nat nz)%nat
                                   then {| index := Z.of_nat i; data := chunk_of content i;
                                           compressed_data := []; processed := false |}
                                   else ChunkData_init);
                   data := data (if decide (i < Z.to_nat nz)%nat
                                 then {| index := Z.of_nat i; data := chunk_of content i;
                                         compressed_data := []; processed := false |}
                                 else ChunkData_init);
                   compressed_data := p; processed := true |}) as -> by congruence.
    done. }
  assert (Hw : write_chunks (path_filename input_path) output_dir (size content) nz drained fs1
               = (fs1, Some (Thrown (runtime_error "Chunk processing failed")))).
  { pose proof Hdrain as Hdrain'. rewrite compress_chunks_unfold in Hdrain'.
    destruct (decide (hardware_concurrency = 0%nat)); [|done].
    injection Hdrain' as <-.
    assert (Hn : (i < Z.to_nat nz)%nat).
    { apply lookup_lt_Some in Hi. by rewrite length_chunks_read in Hi. }
    unfold write_chunks. destruct (Z.to_nat nz) as [|n] eqn:Hnz; [lia|].
    cbn [seq for_each].
    pose proof (chunks_read_lookup content (S n) (S n) 0 ltac:(lia)) as Hfirst.
    rewrite decide_True in Hfirst by lia.
    by rewrite (write_chunk_unprocessed _ _ _ _ _ _ _ _ Hfirst eq_refl). }
  split; [done|]. split; [done|].
  assert (Hcall : compress_file input_path output_dir fs = Unknown "pool.~ThreadPool() twice").
  { rewrite (compress_file_call_phases _ _ content) by done. fold nz fs1.
    by rewrite Hdrain, Hw. }
  split.
  { rewrite (compress_file_phases _ _ content) by done. fold nz.
    rewrite Hdrain. exact Hw. }
  split; [apply files_create_directories|]. split; [done|]. by rewrite Hcall.
Qed.

End completion_check.
(** ** decompress_file: loading and the batch *)

Section decompressing.
Context `{Constants} `{Machine} `{Zlib}.

Lemma decompress_task_slot (fs : filesystem) (chunk_files : list string) (i : nat)
    (v : list ChunkData) (c : ChunkData) :
  v !! i = Some c ->
  decompress_task fs chunk_files i v
  = (let* c' := decompress_slot fs chunk_files i c in inr (<[i := c']> v)).
Proof.
  intros Hc. unfold decompress_task, decompress_slot, verify_with, vector_at.
  destruct (chunk_files !! i) as [path|]; cbn [determinate bind]; [|done].
  destruct (read_metadata (open_in fs path)) as [m s]. cbn [fst].
  rewrite Hc. cbn [determinate bind].
  destruct (uncompressed_chunk_size m) as [usize|]; cbn [determinate bind]; [|done].
  destruct (decompress_data (compressed_data c) usize) as [|d]; cbn [bind]; [done|].
  destruct (crc32_checksum m) as [stored|]; cbn [determinate bind]; [|done].
  by case_decide.
Qed.

(** What a task that returns has established about its slot. *)
Lemma decompress_slot_inr (fs : filesystem) (chunk_files : list string) (i : nat)
    (c c' : ChunkData) :
  decompress_slot fs chunk_files i c = inr c' <->
  exists path usize d,
    chunk_files !! i = Some path /\
    uncompressed_chunk_size (read_metadata (open_in fs path)).1 = Some usize /\
    uncompress (compressed_data c) usize = Some d /\
    crc32_checksum (read_metadata (open_in fs path)).1 = Some (calculate_crc32 d) /\
    c' = {| index := index c; data := d;
            compressed_data := compressed_data c; processed := true |}.
Proof.
  split.
  - unfold decompress_slot, verify_with, vector_at, decompress_data.
    destruct (chunk_files !! i) as [path|]; cbn [determinate bind]; [|done].
    destruct (read_metadata (open_in fs path)) as [m s] eqn:Hm. cbn [fst].
    destruct (uncompressed_chunk_size m) as [usize|] eqn:Hu;
      cbn [determinate bind]; [|done].
    destruct (uncompress (compressed_data c) usize) as [d|] eqn:Hd;
      cbn [bind throw]; [|done].
    destruct (crc32_checksum m) as [stored|] eqn:Hs; cbn [determinate bind]; [|done].
    case_decide as Hcrc; [done|]. intros [= <-].
    exists path, usize, d. rewrite Hm. cbn [fst]. repeat split; try done.
    rewrite Hs. f_equal. by destruct (decide (calculate_crc32 d = stored)).
  - intros (path & usize & d & Hp & Hu & Hd & Hc & ->).
    unfold decompress_slot, verify_with, vector_at, decompress_data. rewrite Hp.
    cbn [determinate bind].
    destruct (read_metadata (open_in fs path)) as [m s]. cbn [fst] in Hu, Hc |- *.
    rewrite Hu. cbn [determinate bind]. rewrite Hd. cbn [bind].
    rewrite Hc. cbn [determinate bind]. by rewrite decide_False by (by intros ?).
Qed.

Lemma decompress_slot_again (fs : filesystem) (chunk_files : list string) (i : nat)
    (c c' : ChunkData) :
  decompress_slot fs chunk_files i c = inr c' ->
  decompress_slot fs chunk_files i c' = inr c'.
Proof.
  intros Hs. pose proof Hs as Hs'.
  apply decompress_slot_inr in Hs as (path & usize & d & ? & ? & ? & ? & ->).
  apply decompress_slot_inr. exists path, usize, d. by repeat split.
Qed.

Lemma decompress_chunks_unfold (fs : filesystem) (chunk_files : list string)
    (total : Z) (v : list ChunkData) :
  decompress_chunks fs chunk_files total v =
  if decide (hardware_concurrency = 0%nat) then inr v
  else run_tasks (decompress_task fs chunk_files <$> seq 0 (Z.to_nat total))
         (completion_order (Z.to_nat total)) v.
Proof.
  unfold decompress_chunks, drain. rewrite foldl_enqueue, app_nil_l.
  by rewrite length_fmap, length_seq.
Qed.

Lemma decompress_chunks_slots (fs : filesystem) (chunk_files : list string)
    (total : Z) (v v' : list ChunkData) :
  length v = Z.to_nat total ->
  decompress_chunks fs chunk_files total v = inr v' ->
  length v' = Z.to_nat total /\
  forall j c, v !! j = Some c ->
    exists c', v' !! j = Some c' /\
      (c' = c \/ decompress_slot fs chunk_files j c = inr c').
Proof.
  intros Hlen. rewrite decompress_chunks_unfold.
  destruct (decide (hardware_concurrency = 0%nat)).
  - intros [= <-]. split; [done|]. intros j c Hj. exists c. by split; [|left].
  - intros Hrun.
    eapply (run_tasks_slots (decompress_slot fs chunk_files)
              (decompress_task fs chunk_files)) in Hrun
      as [Hlen' Hslots];
      eauto using decompress_task_slot, decompress_slot_again.
    split; [done|]. intros j c Hj. destruct (Hslots j c Hj) as [Hyes Hno].
    destruct (decide (j ∈ completion_order (Z.to_nat total))) as [Hin|Hin].
    + destruct (Hyes Hin) as (c' & ? & ?). exists c'. by split; [|right].
    + exists c. split; [by apply Hno|by left].
Qed.

(** Loading never sets a flag and never resizes the vector. *)
Lemma load_chunk_flags (fs : filesystem) (chunk_files : list string) (i : nat)
    (v v' : list ChunkData) :
  load_chunk fs chunk_files i v = inr v' ->
  length v' = length v /\
  ((forall j c, v !! j = Some c -> processed c = false) ->
   forall j c, v' !! j = Some c -> processed c = false).
Proof.
  unfold load_chunk, vector_at.
  destruct (chunk_files !! i) as [path|]; cbn [determinate bind]; [|done].
  destruct (good (open_in fs path)); cbn [negb]; [|done].
  destruct (read_metadata (open_in fs path)) as [m s].
  destruct (filename_length m) as [nl|]; cbn [determinate bind]; [|done].
  destruct (stream_read nl s) as [name s'].
  destruct (chunk_index m) as [idx|]; cbn [determinate bind]; [|done].
  destruct (v !! Z.to_nat idx) as [c0|] eqn:Hc0; cbn [determinate bind]; [|done].
  destruct (compressed_size m) as [cs|]; cbn [determinate bind]; [|done].
  destruct (stream_read cs s') as [got s''].
  intros [= <-]. split; [by rewrite length_insert|].
  intros Hall j c Hj. destruct (decide (j = Z.to_nat idx)) as [->|Hne].
  - rewrite list_lookup_insert_eq in Hj by (by eapply lookup_lt_Some).
    injection Hj as <-. cbn [processed]. by eapply Hall.
  - rewrite list_lookup_insert_ne in Hj by done. by eapply Hall.
Qed.

Lemma load_loop_flags (fs : filesystem) (chunk_files : list string) (l : list nat)
    (v v' : list ChunkData) :
  for_each (pure_body (load_chunk fs chunk_files)) l v = (v', None) ->
  length v' = length v /\
  ((forall j c, v !! j = Some c -> processed c = false) ->
   forall j c, v' !! j = Some c -> processed c = false).
Proof.
  revert v. induction l as [|i l IH]; intros v Hloop.
  - simpl in Hloop. by injection Hloop as <-.
  - cbn [for_each] in Hloop. unfold pure_body at 1 in Hloop.
    destruct (load_chunk fs chunk_files i v) as [ft|v1] eqn:Hload; [done|].
    apply load_chunk_flags in Hload as [Hlen1 Hfl1].
    apply IH in Hloop as [Hlen' Hfl']. split; [congruence|].
    intros Hall. apply Hfl'. by apply Hfl1.
Qed.

Lemma load_chunks_flags (fs : filesystem) (chunk_files : list string) (total : Z)
    (v : list ChunkData) :
  load_chunks fs chunk_files total = (v, None) ->
  length v = Z.to_nat total /\ forall j c, v !! j = Some c -> processed c = false.
Proof.
  unfold load_chunks. intros Hloop. apply load_loop_flags in Hloop as [Hlen Hfl].
  rewrite length_replicate in Hlen. split; [done|]. apply Hfl.
  intros j c [-> _]%lookup_replicate. done.
Qed.

End decompressing.

(** ** decompress_file: reassembly *)

Section reassembling.
Context `{Constants} `{Machine} `{Zlib}.

Lemma read_file_append_file (p : string) (bytes : list byte) (fs : filesystem) :
  read_file (append_file p bytes fs) p = Some (default [] (read_file fs p) ++ bytes).
Proof. unfold append_file, read_file. simpl. apply assoc_lookup_insert. Qed.

Lemma read_file_append_file_ne (p q : string) (bytes : list byte) (fs : filesystem) :
  p <> q -> read_file (append_file p bytes fs) q = read_file fs q.
Proof. intros. unfold append_file, read_file. simpl. by apply assoc_lookup_insert_ne. Qed.

Lemma emitted_refl (p : string) (st : filesystem * list byte) : emitted p st st [].
Proof. unfold emitted. by rewrite app_nil_r. Qed.

Lemma emitted_trans (p : string) (st1 st2 st3 : filesystem * list byte) (d1 d2 : list byte) :
  emitted p st1 st2 d1 -> emitted p st2 st3 d2 -> emitted p st1 st3 (d1 ++ d2).
Proof.
  intros (Hp1 & Hs1 & Hq1 & Hd1 & Hn1) (Hp2 & Hs2 & Hq2 & Hd2 & Hn2).
  unfold emitted. rewrite Hp2, Hp1, app_assoc.
  split; [done|]. split; [auto|]. split; [|split; congruence].
  intros q Hne. by rewrite Hq2, Hq1.
Qed.

Lemma push_byte_emitted (p : string) (st : filesystem * list byte) (b : byte) :
  emitted p st (push_byte p st b) [b].
Proof.
  destruct st as [fs buffer]. unfold push_byte, emitted, pending.
  case_decide; cbn [fst snd].
  - rewrite read_file_append_file. cbn [from_option id].
    rewrite app_nil_r, app_assoc. split; [done|]. split; [by eexists|].
    split; [|done]. intros q Hq. by apply read_file_append_file_ne.
  - by rewrite app_assoc.
Qed.

Lemma push_bytes_emitted (p : string) (st : filesystem * list byte) (d : list byte) :
  emitted p st (foldl (push_byte p) st d) d.
Proof.
  revert st. induction d as [|b d IH]; intros st; cbn [foldl].
  - apply emitted_refl.
  - change (b :: d) with ([b] ++ d).
    eapply emitted_trans; [apply push_byte_emitted|apply IH].
Qed.

(** The reassembly loop run to its end over the first [k] slots. *)
Lemma emit_loop_returns (p : string) (v : list ChunkData) (k : nat)
    (st st' : filesystem * list byte) :
  for_each (emit_chunk p v) (seq 0 k) st = (st', None) ->
  (forall i, (i < k)%nat -> exists c, v !! i = Some c /\ processed c = true) /\
  emitted p st st' (concat (data <$> take k v)).
Proof.
  revert st'. induction k as [|k IH]; intros st' Hloop.
  - simpl in Hloop. injection Hloop as <-. rewrite take_0. simpl.
    split; [intros; lia|apply emitted_refl].
  - rewrite seq_S, for_each_app in Hloop. cbn [plus] in Hloop.
    destruct (for_each _ (seq 0 k) st) as [st1 [ft|]] eqn:Hpre; [done|].
    destruct (IH st1 eq_refl) as (Hall & Hem).
    cbn [for_each] in Hloop. unfold emit_chunk in Hloop.
    destruct (v !! k) as [c|] eqn:Hc; [|done].
    destruct (processed c) eqn:Hp; cbn [negb] in Hloop; [|done].
    injection Hloop as <-. split.
    + intros i Hi. destruct (decide (i = k)) as [->|]; [by exists c|].
      apply Hall. lia.
    + rewrite (take_S_r _ _ c) by done.
      rewrite fmap_app, concat_app. simpl. rewrite app_nil_r.
      eapply emitted_trans; [exact Hem|apply push_bytes_emitted].
Qed.

(** The same loop, when every flag is set. *)
Lemma emit_loop_all_set (p : string) (v : list ChunkData) (k : nat)
    (st : filesystem * list byte) :
  (forall i, (i < k)%nat -> exists c, v !! i = Some c /\ processed c = true) ->
  exists st', for_each (emit_chunk p v) (seq 0 k) st = (st', None).
Proof.
  induction k as [|k IH]; intros Hall; [by eexists|].
  destruct IH as [st1 Hpre]; [intros; apply Hall; lia|].
  destruct (Hall k ltac:(lia)) as (c & Hc & Hp).
  rewrite seq_S, for_each_app, Hpre. cbn [plus for_each].
  unfold emit_chunk. rewrite Hc, Hp. cbn [negb]. by eexists.
Qed.

(** A reassembly that returns: every flag was set and the output file
    holds the slots' bytes in index order. *)
Lemma reassemble_returns (p : string) (total : Z) (v : list ChunkData)
    (fs fs' : filesystem) :
  reassemble p total v fs = (fs', None) ->
  (forall i, (i < Z.to_nat total)%nat -> exists c, v !! i = Some c /\ processed c = true) /\
  read_file fs' p = Some (concat (data <$> take (Z.to_nat total) v)) /\
  (forall q, p <> q -> read_file fs' q = read_file fs q) /\
  dirs fs' = dirs fs /\ denied fs' = denied fs.
Proof.
  unfold reassemble. destruct (write_file p [] fs) as [fs0|] eqn:Hopen; [|done].
  destruct (for_each _ _ (fs0, [])) as [[fs1 buffer] [ft|]] eqn:Hloop; [done|].
  apply emit_loop_returns in Hloop as (Hall & Hpend & Hsome & Hq & Hd & Hden).
  unfold pending in Hpend. cbn [fst snd] in *.
  pose proof (read_file_write_file _ _ _ _ Hopen) as Hr0.
  rewrite Hr0 in Hpend. cbn [from_option id app] in Hpend.
  destruct Hsome as [written Hw]; [by eexists|]. rewrite Hw in Hpend.
  cbn [from_option id] in Hpend.
  destruct (write_file_frame _ _ _ _ Hopen) as [Hd0 Hden0].
  assert (Hq0 : forall q, p <> q -> read_file fs1 q = read_file fs q).
  { intros q Hne. rewrite Hq by done. by eapply read_file_write_file_ne. }
  case_decide as Hbuf; intros [= <-].
  - split; [done|].
    split; [rewrite read_file_append_file, Hw; cbn [from_option id]; by rewrite Hpend|].
    split; [|split; simpl; congruence].
    intros q Hne. rewrite read_file_append_file_ne by done. by apply Hq0.
  - assert (buffer = []) as -> by (by destruct buffer; [|destruct Hbuf]).
    rewrite app_nil_r in Hpend. subst written.
    split; [done|]. split; [done|]. split; [done|]. split; congruence.
Qed.

(** Conversely, with every flag set, reassembly returns as soon as the
    output file can be created. *)
Lemma reassemble_all_set (p : string) (total : Z) (v : list ChunkData) (fs : filesystem) :
  is_Some (write_file p [] fs) ->
  (forall i, (i < Z.to_nat total)%nat -> exists c, v !! i = Some c /\ processed c = true) ->
  exists fs', reassemble p total v fs = (fs', None).
Proof.
  intros [fs0 Hopen] Hall. unfold reassemble. rewrite Hopen.
  destruct (emit_loop_all_set p v (Z.to_nat total) (fs0, []) Hall) as [[fs1 buffer] ->].
  case_decide; by eexists.
Qed.

End reassembling.

(** ** decompress_file as a whole *)

Section decompress_file_whole.
Context `{Constants} `{Machine} `{Zlib}.

(** The first part of [decompress_file] once discovery and the first
    header are known. *)
Lemma decompress_file_load_phases (chunks_dir output_path : string) (fs : filesystem)
    (entries : list string) (first : string) (m0 : ChunkMetadata) (s0 : ifstream)
    (name_len total : Z) :
  directory_iterator fs chunks_dir = Some entries ->
  discover entries !! 0%nat = Some first ->
  read_metadata (open_in fs first) = (m0, s0) ->
  string_of_bytes (magic m0) = "DCHUNKV1" ->
  filename_length m0 = Some name_len ->
  total_chunks m0 = Some total ->
  decompress_file_load chunks_dir output_path fs =
  match load_chunks fs (discover entries) total with
  | (_, Some f) => inl f
  | (loaded, None) =>
      inr (discover entries, total, output_path_of output_path name_len s0, loaded)
  end.
Proof.
  intros Hdir Hfirst Hm Hmagic Hnl Htotal. unfold decompress_file_load. rewrite Hdir.
  rewrite decide_False.
  - rewrite Hfirst, Hm. rewrite decide_False by (by intros ?).
    rewrite Hnl, Htotal. done.
  - intros Hnil. unfold discover, sort_strings in Hfirst. rewrite Hnil in Hfirst.
    done.
Qed.

(** The block of [decompress_file] once discovery and the first header are
    known. *)
Lemma decompress_file_phases (chunks_dir output_path : string) (fs : filesystem)
    (entries : list string) (first : string) (m0 : ChunkMetadata) (s0 : ifstream)
    (name_len total : Z) :
  directory_iterator fs chunks_dir = Some entries ->
  discover entries !! 0%nat = Some first ->
  read_metadata (open_in fs first) = (m0, s0) ->
  string_of_bytes (magic m0) = "DCHUNKV1" ->
  filename_length m0 = Some name_len ->
  total_chunks m0 = Some total ->
  decompress_file_body chunks_dir output_path fs =
  match load_chunks fs (discover entries) total with
  | (_, Some f) => (fs, Some f)
  | (loaded, None) =>
      match decompress_chunks fs (discover entries) total loaded with
      | inl f => (fs, Some f)
      | inr drained =>
          reassemble (output_path_of output_path name_len s0) total drained fs
      end
  end.
Proof.
  intros Hdir Hfirst Hm Hmagic Hnl Htotal. unfold decompress_file_body.
  rewrite (decompress_file_load_phases _ _ _ _ _ _ _ _ _ Hdir Hfirst Hm Hmagic Hnl Htotal).
  by destruct (load_chunks fs (discover entries) total) as [loaded [ft|]].
Qed.

(** A call of [decompress_file] once discovery and the first header are
    known. *)
Lemma decompress_file_call_phases (chunks_dir output_path : string) (fs : filesystem)
    (entries : list string) (first : string) (m0 : ChunkMetadata) (s0 : ifstream)
    (name_len total : Z) :
  directory_iterator fs chunks_dir = Some entries ->
  discover entries !! 0%nat = Some first ->
  read_metadata (open_in fs first) = (m0, s0) ->
  string_of_bytes (magic m0) = "DCHUNKV1" ->
  filename_length m0 = Some name_len ->
  total_chunks m0 = Some total ->
  decompress_file chunks_dir output_path fs =
  match load_chunks fs (discover entries) total with
  | (_, Some f) => ending_of (fs, Some f)
  | (loaded, None) =>
      match decompress_chunks fs (discover entries) total loaded with
      | inl f => ending_of (fs, Some f)
      | inr drained =>
          pool_destroyed_again
            (reassemble (output_path_of output_path name_len s0) total drained fs)
      end
  end.
Proof.
  intros Hdir Hfirst Hm Hmagic Hnl Htotal. unfold decompress_file.
  rewrite (decompress_file_load_phases _ _ _ _ _ _ _ _ _ Hdir Hfirst Hm Hmagic Hnl Htotal).
  by destruct (load_chunks fs (discover entries) total) as [loaded [ft|]].
Qed.

Lemma decompress_file_body_end (chunks_dir output_path : string) (fs fs' : filesystem) :
  decompress_file_body chunks_dir output_path fs = (fs', None) ->
  decompress_file chunks_dir output_path fs = Unknown "pool.~ThreadPool() twice".
Proof.
  unfold decompress_file_body, decompress_file.
  destruct (decompress_file_load chunks_dir output_path fs)
    as [ft|[[[chunk_files total] final] loaded]]; [done|].
  destruct (decompress_chunks _ _ _ loaded) as [ft|drained]; [done|]. by intros ->.
Qed.

Lemma decompress_file_never_returns (chunks_dir output_path : string)
    (fs fs' : filesystem) :
  decompress_file chunks_dir output_path fs <> Returns fs'.
Proof.
  unfold decompress_file.
  destruct (decompress_file_load chunks_dir output_path fs)
    as [ft|[[[chunk_files total] final] loaded]]; [by destruct ft|].
  destruct (decompress_chunks _ _ _ loaded) as [ft|drained]; [by destruct ft|].
  by destruct (reassemble final total drained fs) as [fs2 [[]|]].
Qed.

(** A run of [decompress_file] that reaches the end of its block went
    through every phase. *)
Lemma decompress_file_returns (chunks_dir output_path : string) (fs fs' : filesystem) :
  decompress_file_body chunks_dir output_path fs = (fs', None) ->
  exists entries first m0 s0 name_len total loaded drained,
    directory_iterator fs chunks_dir = Some entries /\
    discover entries !! 0%nat = Some first /\
    read_metadata (open_in fs first) = (m0, s0) /\
    string_of_bytes (magic m0) = "DCHUNKV1" /\
    filename_length m0 = Some name_len /\
    total_chunks m0 = Some total /\
    load_chunks fs (discover entries) total = (loaded, None) /\
    decompress_chunks fs (discover entries) total loaded = inr drained /\
    reassemble (output_path_of output_path name_len s0) total drained fs = (fs', None).
Proof.
  unfold decompress_file_body, decompress_file_load.
  destruct (directory_iterator fs chunks_dir) as [entries|] eqn:Hdir; [|done].
  case_decide as Hnil; [done|].
  destruct (discover entries !! 0%nat) as [first|] eqn:Hfirst; [|done].
  destruct (read_metadata (open_in fs first)) as [m0 s0] eqn:Hm.
  case_decide as Hmagic; [done|].
  destruct (filename_length m0) as [name_len|] eqn:Hnl; [|done].
  destruct (total_chunks m0) as [total|] eqn:Htotal; [|done].
  destruct (load_chunks fs (discover entries) total) as [loaded [ft|]] eqn:Hload; [done|].
  destruct (decompress_chunks fs (discover entries) total loaded) as [ft|drained] eqn:Hdrain;
    [done|].
  intros Hre. exists entries, first, m0, s0, name_len, total, loaded, drained.
  repeat split; try done.
Qed.

(** After loading, a drain and a reassembly that both return, every slot
    holds what its task accepted. *)
Lemma accepted_slots (fs fs' : filesystem) (chunk_files : list string) (total : Z)
    (p : string) (loaded drained : list ChunkData) :
  load_chunks fs chunk_files total = (loaded, None) ->
  decompress_chunks fs chunk_files total loaded = inr drained ->
  reassemble p total drained fs = (fs', None) ->
  length drained = Z.to_nat total /\
  forall i, (i < Z.to_nat total)%nat ->
    exists c c', loaded !! i = Some c /\ drained !! i = Some c' /\
      decompress_slot fs chunk_files i c = inr c'.
Proof.
  intros Hload Hdrain Hre.
  apply load_chunks_flags in Hload as [Hlen Hflags].
  apply decompress_chunks_slots in Hdrain as [Hlen' Hslots]; [|done].
  apply reassemble_returns in Hre as (Hall & _).
  split; [done|]. intros i Hi.
  destruct (lookup_lt_is_Some_2 loaded i) as [c Hc]; [lia|].
  destruct (Hslots i c Hc) as (c' & Hc' & Hcase).
  destruct (Hall i Hi) as (c'' & Hc'' & Hp).
  assert (c'' = c') as -> by congruence.
  exists c, c'. split; [done|]. split; [done|].
  destruct Hcase as [->|Hslot]; [|done].
  rewrite (Hflags i c Hc) in Hp. done.
Qed.

End decompress_file_whole.

(** ** The discovery list and the worker tasks *)

Section worker_index.
Context `{Constants} `{Machine} `{Zlib}.

Lemma length_discover (entries : list string) :
  length (discover entries)
  = length (filter (fun p => path_extension p = ".dchunk") entries).
Proof.
  unfold discover, sort_strings. apply Permutation_length, merge_sort_Permutation.
Qed.

(** The discovery list does not depend on the order in which the
    directory lists its entries: [std::sort] erases it. *)
Lemma discover_listing_order (entries entries' : list string) :
  Permutation entries entries' -> discover entries = discover entries'.
Proof.
  intros Hperm. unfold discover, sort_strings.
  apply (StronglySorted_unique String.le).
  - apply StronglySorted_merge_sort; apply _.
  - apply StronglySorted_merge_sort; apply _.
  - rewrite !merge_sort_Permutation. by apply filter_Permutation.
Qed.

(** C9.  The batch of [decompress_file] holds one task per index below
    [total], and the task for index [i] reads the header of the file at
    position [i] of the sorted discovery list.  When the directory holds at
    least [total] entries with the chunk extension, every task with
    [i < total] finds its entry; when it holds fewer, the task for the first
    index past the end of the list, which is below [total], indexes the
    vector out of range. *)
Theorem worker_reads_discovery_list_at_its_index (fs : filesystem)
    (entries : list string) (total : nat) :
  let chunk_files := discover entries in
  let count := length (filter (fun p => path_extension p = ".dchunk") entries) in
  (forall v, decompress_chunks fs chunk_files (Z.of_nat total) v
             = drain (decompress_task fs chunk_files <$> seq 0 total) v) /\
  (forall i v path c, chunk_files !! i = Some path -> v !! i = Some c ->
     decompress_task fs chunk_files i v
     = (let* c' := verify_with (read_metadata (open_in fs path)).1 i c in
        inr (<[i := c']> v))) /\
  ((total <= count)%nat ->
   forall i, (i < total)%nat -> is_Some (chunk_files !! i)) /\
  ((count < total)%nat ->
   exists i, (i < total)%nat /\ chunk_files !! i = None /\
     forall v, decompress_task fs chunk_files i v = inl (Undefined "chunk_files[i]")).
Proof.
  intros chunk_files count.
  assert (Hcount : length chunk_files = count) by apply length_discover.
  split; [|split; [|split]].
  - intros v. unfold decompress_chunks. by rewrite foldl_enqueue, app_nil_l, Nat2Z.id.
  - intros i v path c Hp Hc. rewrite (decompress_task_slot _ _ _ _ _ Hc).
    unfold decompress_slot, vector_at. rewrite Hp. done.
  - intros Hlen i Hi. apply lookup_lt_is_Some_2. lia.
  - intros Hlen. exists (length chunk_files). split; [lia|].
    assert (Hnone : chunk_files !! length chunk_files = None)
      by (by apply lookup_ge_None_2).
    split; [done|]. intros v. unfold decompress_task, vector_at. by rewrite Hnone.
Qed.

End worker_index.

(** ** The empty file *)

Section empty_file.
Context `{Constants} `{Machine} `{Zlib} `{!ConstantsOK}.

Lemma run_tasks_empty_pool {St} (order : list nat) (s : St) :
  run_tasks [] order s = inr s.
Proof.
  induction order as [|j order IH]; cbn [run_tasks]; [done|].
  destruct j; exact IH.
Qed.

Lemma strip_prefix_self_slash (d : string) : strip_prefix (d +:+ "/") d = None.
Proof.
  induction d as [|a d IH]; [done|].
  change (String a d +:+ "/") with (String a (d +:+ "/")). cbn [strip_prefix].
  by rewrite decide_True.
Qed.

Lemma child_of_self (d : string) : child_of d d = false.
Proof. unfold child_of. by rewrite strip_prefix_self_slash. Qed.

Lemma strip_prefix_short (pre s : string) :
  (String.length s < String.length pre)%nat -> strip_prefix pre s = None.
Proof.
  revert s. induction pre as [|a pre IH]; intros s Hlen; [simpl in Hlen; lia|].
  destruct s as [|b s]; [done|]. cbn [strip_prefix]. case_decide; [|done].
  apply IH. simpl in Hlen. lia.
Qed.

(** A directory that [fs::create_directories(d)] makes is not an entry of
    [d]. *)
Lemma child_of_prefix (d q : string) : q ∈ path_prefixes d -> child_of d q = false.
Proof.
  intros [t ->]%path_prefixes_prefix. unfold child_of.
  rewrite strip_prefix_short; [done|]. rewrite !string_length_app. simpl. lia.
Qed.

(** C10.  For an existing input file of size 0 whose output directory can
    be made, [compress_file] computes zero chunks, leaves the output
    directory in existence and writes no file, and control reaches the end
    of its block; a following [decompress_file] on that directory, which
    holds no chunk record from elsewhere, ends with "No chunk files found in
    directory" instead of recreating the empty file.  But the call of
    [compress_file] does not return: by then [pool.~ThreadPool()] has been
    called (line 190), and leaving the block destroys [pool] again. *)
Theorem empty_file_compress_does_not_return (input_path output_dir output_path : string)
    (fs : filesystem) :
  read_file fs input_path = Some [] ->
  denied fs input_path = false ->
  (create_directories output_dir fs).2 = None ->
  (forall p, p ∈ (files fs).*1 ++ dirs fs -> child_of output_dir p = true ->
     path_extension p <> ".dchunk") ->
  let fs1 := (create_directories output_dir fs).1 in
  size_t (size (@nil byte) + CHUNK_SIZE - 1) / CHUNK_SIZE = 0 /\
  compress_file_body input_path output_dir fs = (fs1, None) /\
  output_dir ∈ dirs fs1 /\
  files fs1 = files fs /\
  decompress_file output_dir output_path fs1
  = Throws (runtime_error "No chunk files found in directory") fs1 /\
  compress_file input_path output_dir fs = Unknown "pool.~ThreadPool() twice" /\
  (forall fs', compress_file input_path output_dir fs <> Returns fs').
Proof.
  intros Hin Hden Hcd Hfresh fs1. pose proof CHUNK_SIZE_range as HC.
  assert (Hnz : (size (@nil byte) + CHUNK_SIZE - 1) / CHUNK_SIZE = 0).
  { apply Z.div_small. unfold size. simpl. lia. }
  assert (Hcall : compress_file input_path output_dir fs = Unknown "pool.~ThreadPool() twice").
  { rewrite (compress_file_call_phases _ _ [] _ Hin Hden) by (done || unfold size; simpl; lia).
    rewrite Hnz. rewrite compress_chunks_unfold. change (Z.to_nat 0) with 0%nat.
    change (compress_task <$> seq 0 0) with (@nil (task (list ChunkData))).
    rewrite run_tasks_empty_pool. by case_decide. }
  split; [|split; [|split; [|split; [|split; [|split]]]]].
  - rewrite size_t_small by (unfold size; simpl; lia). exact Hnz.
  - rewrite (compress_file_phases _ _ [] _ Hin Hden) by (done || unfold size; simpl; lia).
    rewrite Hnz. rewrite compress_chunks_unfold. change (Z.to_nat 0) with 0%nat.
    change (compress_task <$> seq 0 0) with (@nil (task (list ChunkData))).
    rewrite run_tasks_empty_pool. by case_decide.
  - by apply elem_of_dirs_create_directories.
  - apply files_create_directories.
  - unfold decompress_file, decompress_file_load, directory_iterator.
    rewrite decide_True by (by apply elem_of_dirs_create_directories).
    rewrite decide_True; [done|].
    apply elem_of_nil_inv. intros p [Hext [Hchild Hp]%list_elem_of_filter]%list_elem_of_filter.
    fold fs1 in Hp. unfold fs1 in Hp. rewrite files_create_directories in Hp.
    apply elem_of_app in Hp as [Hp|Hp].
    + apply (Hfresh p); [apply elem_of_app; by left|done|done].
    + destruct (create_directories_spec output_dir fs) as (_ & _ & _ & Hnew & _).
      destruct (Hnew p Hp) as [Hp'|Hp'].
      * apply (Hfresh p); [apply elem_of_app; by right|done|done].
      * by rewrite (child_of_prefix _ _ Hp') in Hchild.
  - done.
  - intros fs'. by rewrite Hcall.
Qed.

End empty_file.

(** * The round trip *)

(** ** Characters of the chunk file names *)

Lemma has_char_app (c : ascii) (s t : string) :
  has_char c (s +:+ t) = has_char c s || has_char c t.
Proof.
  induction s as [|a s IH]; [done|].
  change (String a s +:+ t) with (String a (s +:+ t)). cbn [has_char].
  by rewrite IH, orb_assoc.
Qed.

Lemma has_char_pretty_N_go (c : ascii) (x : N) (s : string) :
  has_char c (pretty_N_go x s) = true ->
  has_char c s = true \/ exists k, (k < 10)%N /\ c = pretty_N_char k.
Proof.
  revert s. induction (N.lt_wf_0 x) as [x _ IH]; intros s Hc.
  destruct (decide (0 < x)%N) as [Hx|Hx].
  - rewrite pretty_N_go_step in Hc by done.
    apply IH in Hc; [|by apply N.div_lt].
    destruct Hc as [Hc|Hc]; [|by right].
    cbn [has_char] in Hc. apply orb_true_iff in Hc as [Hc|Hc]; [|by left].
    right. exists (x mod 10)%N. split; [by apply N.mod_lt|].
    by apply bool_decide_eq_true_1 in Hc.
  - assert (x = 0%N) as -> by lia. rewrite pretty_N_go_0 in Hc. by left.
Qed.

Lemma has_char_to_string (c : ascii) (n : Z) :
  has_char c (to_string n) = true -> exists k, (k < 10)%N /\ c = pretty_N_char k.
Proof.
  unfold to_string, pretty, pretty_N. case_decide.
  - cbn [has_char]. rewrite orb_false_r. intros Hc%bool_decide_eq_true_1.
    exists 0%N. split; [lia|done].
  - intros [Hc|Hc]%has_char_pretty_N_go; done.
Qed.

Lemma pretty_N_char_not (c : ascii) (k : N) :
  (k < 10)%N -> c = slash \/ c = dot -> pretty_N_char k <> c.
Proof.
  intros Hk Hc. unfold pretty_N_char.
  destruct k as [|p]; [by destruct Hc as [-> | ->]|].
  do 4 (destruct p as [p|p|]; try lia; try (by destruct Hc as [-> | ->])).
Qed.

Lemma to_string_no_slash_dot (c : ascii) (n : Z) :
  c = slash \/ c = dot -> has_char c (to_string n) = false.
Proof.
  intros Hc. destruct (has_char c (to_string n)) eqn:Hh; [|done].
  apply has_char_to_string in Hh as (k & Hk & ->).
  by destruct (pretty_N_char_not _ k Hk Hc).
Qed.

Lemma after_last_None (c : ascii) (s : string) :
  has_char c s = false -> after_last c s = None.
Proof.
  induction s as [|a s IH]; [done|]. cbn [has_char after_last].
  intros [Ha Hs]%orb_false_iff. rewrite (IH Hs).
  apply bool_decide_eq_false_1 in Ha. by rewrite decide_False.
Qed.

Lemma after_last_app (c : ascii) (s name : string) :
  has_char c name = false -> after_last c (s +:+ String c name) = Some name.
Proof.
  intros Hn. induction s as [|a s IH].
  - change ("" +:+ String c name) with (String c name). cbn [after_last].
    by rewrite (after_last_None _ _ Hn), decide_True.
  - change (String a s +:+ String c name) with (String a (s +:+ String c name)).
    cbn [after_last]. by rewrite IH.
Qed.

Lemma strip_prefix_app (s t : string) : strip_prefix s (s +:+ t) = Some t.
Proof.
  induction s as [|a s IH]; [done|].
  change (String a s +:+ t) with (String a (s +:+ t)). cbn [strip_prefix].
  by rewrite decide_True.
Qed.

Section chunk_names.
Context `{Constants}.

Lemma chunk_filename_split (output_dir : string) (i : nat) (num_chunks : Z) :
  chunk_filename output_dir i num_chunks
  = (output_dir +:+ "/") +:+ chunk_basename i num_chunks.
Proof. unfold chunk_filename, chunk_basename. by rewrite string_app_assoc. Qed.

Lemma chunk_basename_chars (c : ascii) (i : nat) (num_chunks : Z) :
  c = slash \/ c = dot ->
  exists stem, chunk_basename i num_chunks = String "c" (stem +:+ String dot "dchunk") /\
    has_char c stem = false.
Proof.
  intros Hc.
  exists ("hunk_" +:+ to_string (size_t (Z.of_nat i + 1)) +:+ "_of_" +:+ to_string num_chunks).
  split.
  - unfold chunk_basename. rewrite !string_app_assoc. done.
  - rewrite !has_char_app, !(to_string_no_slash_dot c) by done.
    by destruct Hc as [-> | ->].
Qed.

Lemma child_of_chunk_filename (output_dir : string) (i : nat) (num_chunks : Z) :
  child_of output_dir (chunk_filename output_dir i num_chunks) = true.
Proof.
  unfold child_of. rewrite chunk_filename_split, strip_prefix_app.
  destruct (chunk_basename_chars slash i num_chunks) as (stem & -> & Hstem); [by left|].
  cbn [has_char]. rewrite has_char_app, Hstem. done.
Qed.

Lemma path_extension_chunk_filename (output_dir : string) (i : nat) (num_chunks : Z) :
  path_extension (chunk_filename output_dir i num_chunks) = ".dchunk".
Proof.
  destruct (chunk_basename_chars slash i num_chunks) as (stem & Hname & Hslash); [by left|].
  destruct (chunk_basename_chars dot i num_chunks) as (stem' & Hname' & Hdot); [by right|].
  rewrite Hname in Hname'. injection Hname' as Heq.
  apply string_app_inj_r in Heq. subst stem'.
  assert (Hfull : chunk_filename output_dir i num_chunks
                  = output_dir +:+ String slash (String "c" (stem +:+ String dot "dchunk"))).
  { rewrite chunk_filename_split, Hname. by rewrite string_app_assoc. }
  assert (Hs : has_char slash (String "c" (stem +:+ String dot "dchunk")) = false).
  { cbn [has_char]. rewrite has_char_app, Hslash. done. }
  unfold path_extension, path_filename. rewrite Hfull, (after_last_app _ _ _ Hs).
  cbn [from_option id]. rewrite decide_False by (intros [?|?]; done).
  assert (Hd : has_char dot "dchunk" = false) by done.
  by rewrite (after_last_app _ _ _ Hd).
Qed.

End chunk_names.

(** ** The sorted discovery list *)

Lemma string_le_app (p a b : string) : String.le (p +:+ a) (p +:+ b) <-> String.le a b.
Proof.
  induction p as [|c p IH]; [done|].
  change (String c p +:+ ?s) with (String c (p +:+ s)).
  rewrite <- IH. unfold String.le, String.leb. cbn [String.compare].
  assert (Ascii.compare c c = Eq) as ->; [|done].
  unfold Ascii.compare. apply N.compare_refl.
Qed.

Lemma StronglySorted_fmap_seq {A} (R : relation A) (f : nat -> A) (a n : nat) :
  (forall i j, (a <= i < j)%nat -> (j < a + n)%nat -> R (f i) (f j)) ->
  StronglySorted R (f <$> seq a n).
Proof.
  revert a. induction n as [|n IH]; intros a HR; [constructor|].
  cbn [seq fmap list_fmap]. constructor.
  - apply IH. intros i j Hij Hj. apply HR; lia.
  - apply Forall_fmap, Forall_forall. intros j [Hj1 Hj2]%elem_of_seq.
    apply HR; lia.
Qed.

Lemma sort_strings_sorted (l : list string) :
  StronglySorted String.le l -> sort_strings l = l.
Proof.
  intros Hl. unfold sort_strings.
  apply (StronglySorted_unique String.le); [|done|].
  - apply StronglySorted_merge_sort; apply _.
  - apply merge_sort_Permutation.
Qed.

Section sorted_names.
Context `{Constants}.

(** Up to nine chunks the names sort in index order: they agree up to the
    single digit of the chunk number. *)
Lemma chunk_filename_le (output_dir : string) (num_chunks : Z) (i j : nat) :
  (i < j)%nat -> (j < 9)%nat ->
  String.le (chunk_filename output_dir i num_chunks)
            (chunk_filename output_dir j num_chunks).
Proof.
  intros Hij Hj. unfold chunk_filename.
  apply string_le_app, string_le_app.
  assert (Hd : forall k : nat, (k < 9)%nat ->
            exists c : ascii, to_string (size_t (Z.of_nat k + 1)) = String c "" /\
              N_of_ascii c = (49 + N.of_nat k)%N).
  { intros k Hk. do 9 (destruct k as [|k]; [by eexists|]). lia. }
  destruct (Hd i ltac:(lia)) as (ci & -> & Hci).
  destruct (Hd j Hj) as (cj & -> & Hcj).
  change (String ?c "" +:+ ?s) with (String c s).
  unfold String.le, String.leb. cbn [String.compare].
  assert (Ascii.compare ci cj = Lt) as ->; [|done].
  unfold Ascii.compare. apply N.compare_lt_iff. lia.
Qed.

Lemma sort_chunk_filenames (output_dir : string) (num_chunks : Z) (n : nat) :
  (n <= 9)%nat ->
  sort_strings ((fun i => chunk_filename output_dir i num_chunks) <$> seq 0 n)
  = (fun i => chunk_filename output_dir i num_chunks) <$> seq 0 n.
Proof.
  intros Hn. apply sort_strings_sorted, StronglySorted_fmap_seq.
  intros i j Hij Hj. apply chunk_filename_le; lia.
Qed.

End sorted_names.

(** ** compress_file returns *)

Lemma assoc_insert_keys {A} (k : string) (v : A) (l : list (string * A)) :
  (assoc_insert k v l).*1 = if decide (k ∈ l.*1) then l.*1 else l.*1 ++ [k].
Proof.
  induction l as [|[k' v'] l IH]; [done|]. cbn [assoc_insert].
  destruct (decide (k' = k)) as [->|Hne]; cbn [fmap list_fmap fst].
  - rewrite decide_True by left. done.
  - rewrite IH. destruct (decide (k ∈ l.*1)) as [Hin|Hin].
    + rewrite decide_True by (by right). done.
    + rewrite decide_False; [done|]. by intros [?|?]%elem_of_cons.
Qed.

Lemma write_file_keys (fs fs' : filesystem) (p : string) (content : list byte) :
  write_file p content fs = Some fs' -> p ∉ (files fs).*1 ->
  (files fs').*1 = (files fs).*1 ++ [p].
Proof.
  unfold write_file. case_match; [done|]. intros [= <-] Hp. cbn [files].
  by rewrite assoc_insert_keys, decide_False.
Qed.

Section compress_file_runs.
Context `{Constants} `{Machine} `{Zlib} `{!ConstantsOK}.

Lemma write_loop_keys (filename output_dir : string) (file_size num_chunks : Z)
    (v : list ChunkData) (k : nat) (fs fs' : filesystem) :
  Z.of_nat k < 2 ^ 64 ->
  (forall i, (i < k)%nat -> chunk_filename output_dir i num_chunks ∉ (files fs).*1) ->
  for_each (write_chunk filename output_dir file_size num_chunks v) (seq 0 k) fs
    = (fs', None) ->
  (files fs').*1
  = (files fs).*1 ++ ((fun i => chunk_filename output_dir i num_chunks) <$> seq 0 k).
Proof.
  revert fs'. induction k as [|k IH]; intros fs' Hk Hfresh Hloop.
  - simpl in Hloop. injection Hloop as <-. simpl. by rewrite app_nil_r.
  - rewrite seq_S, for_each_app in Hloop. cbn [plus] in Hloop.
    destruct (for_each _ (seq 0 k) fs) as [fs1 [ft|]] eqn:Hpre; [done|].
    specialize (IH fs1 ltac:(lia) ltac:(intros; apply Hfresh; lia) eq_refl).
    cbn [for_each] in Hloop.
    destruct (write_chunk _ _ _ _ v k fs1) as [fs2 [ft|]] eqn:Hw; [done|].
    injection Hloop as ->.
    apply write_chunk_returns in Hw as (c & _ & _ & Hw).
    rewrite (write_file_keys _ _ _ _ Hw), IH.
    + rewrite seq_S, fmap_app, <- app_assoc. done.
    + rewrite IH. intros [Hin|Hin]%elem_of_app.
      * by apply (Hfresh k); [lia|].
      * apply list_elem_of_fmap in Hin as (i & Heq & [_ Hi]%elem_of_seq).
        apply chunk_filename_inj in Heq; lia.
Qed.

Lemma write_loop_all_set (filename output_dir : string) (file_size num_chunks : Z)
    (v : list ChunkData) (k : nat) (fs : filesystem) :
  (forall i, (i < k)%nat -> exists c, v !! i = Some c /\ processed c = true) ->
  (forall i, (i < k)%nat ->
     denied fs (chunk_filename output_dir i num_chunks) = false /\
     (chunk_filename output_dir i num_chunks ∉ dirs fs)) ->
  exists fs', for_each (write_chunk filename output_dir file_size num_chunks v) (seq 0 k) fs
              = (fs', None) /\ dirs fs' = dirs fs /\ denied fs' = denied fs.
Proof.
  induction k as [|k IH]; intros Hall Hopen; [by eexists|].
  destruct IH as (fs1 & Hpre & Hd & Hden);
    [intros; apply Hall; lia|intros; apply Hopen; lia|].
  destruct (Hall k ltac:(lia)) as (c & Hc & Hp).
  destruct (Hopen k ltac:(lia)) as [Hk1 Hk2].
  rewrite seq_S, for_each_app, Hpre. cbn [plus for_each].
  rewrite (write_chunk_processed _ _ _ _ _ _ _ _ Hc Hp).
  destruct (write_file (chunk_filename output_dir k num_chunks)
              (chunk_record filename file_size num_chunks k (data c) (compressed_data c)) fs1)
    as [fs2|] eqn:Hw.
  - destruct (write_file_frame _ _ _ _ Hw) as [Hd2 Hden2].
    exists fs2. split; [done|]. split; congruence.
  - exfalso. assert (Hs : is_Some (write_file (chunk_filename output_dir k num_chunks)
              (chunk_record filename file_size num_chunks k (data c) (compressed_data c)) fs1)).
    { apply write_file_Some. rewrite Hden, Hd.
      split; [done|]. split; [done|]. apply chunk_filename_not_empty. }
    rewrite Hw in Hs. by destruct Hs.
Qed.

(** With a worker to run them and a codec that does not fail, the batch
    returns with every flag set. *)
Lemma compress_chunks_returns `{!MachineOK} (content : list byte) (n : nat) :
  hardware_concurrency <> 0%nat ->
  (forall i, (i < n)%nat -> is_Some (compress2 (chunk_of content i) COMPRESSION_LEVEL)) ->
  exists v, compress_chunks (Z.of_nat n) (chunks_read content n n) = inr v /\
    forall i, (i < n)%nat -> exists c, v !! i = Some c /\ processed c = true.
Proof.
  intros Hhw Hz.
  assert (Hrun : exists v, compress_chunks (Z.of_nat n) (chunks_read content n n) = inr v).
  { rewrite compress_chunks_unfold, decide_False by done. rewrite Nat2Z.id.
    apply (run_tasks_returns (fun _ => compress_slot) compress_task);
      eauto using compress_task_slot, compress_slot_again, length_chunks_read.
    intros j c Hj Hc. apply lookup_lt_Some in Hc as Hlt.
    rewrite length_chunks_read in Hlt.
    rewrite chunks_read_lookup, decide_True in Hc by done. injection Hc as <-.
    destruct (Hz j Hlt) as [p Hp]. eexists. apply compress_slot_inr.
    exists p. by split. }
  destruct Hrun as [v Hv]. exists v. split; [done|]. intros i Hi.
  destruct (compress_chunks_all _ _ _ Hhw
              ltac:(by rewrite length_chunks_read, Nat2Z.id) Hv i _
              (chunks_read_lookup content n n i Hi)) as (c' & Hc' & Hslot).
  exists c'. split; [done|]. by apply compress_slot_inr in Hslot as (p & _ & ->).
Qed.

(** A chunk file is none of the directories [compress_file] makes. *)
Lemma chunk_filename_not_prefix (output_dir : string) (i : nat) (num_chunks : Z) :
  chunk_filename output_dir i num_chunks ∉ path_prefixes output_dir.
Proof.
  intros [t Ht]%path_prefixes_prefix. apply (f_equal String.length) in Ht.
  unfold chunk_filename in Ht. rewrite !string_length_app in Ht. simpl in Ht. lia.
Qed.

Lemma chunk_filename_not_made (output_dir : string) (i : nat) (num_chunks : Z)
    (fs : filesystem) :
  chunk_filename output_dir i num_chunks ∉ dirs fs ->
  chunk_filename output_dir i num_chunks ∉ dirs (create_directories output_dir fs).1.
Proof.
  intros Hno Hin. destruct (create_directories_spec output_dir fs) as (_ & _ & _ & Hnew & _).
  destruct (Hnew _ Hin) as [?|Hp]; [done|]. by apply chunk_filename_not_prefix in Hp.
Qed.

(** The block of [compress_file] runs to its end, and lists its records
    after the files that were there, in index order. *)
Lemma compress_file_runs `{!MachineOK} (input_path output_dir : string)
    (content : list byte) (fs : filesystem) :
  read_file fs input_path = Some content ->
  denied fs input_path = false ->
  size content + CHUNK_SIZE <= 2 ^ 64 ->
  hardware_concurrency <> 0%nat ->
  (create_directories output_dir fs).2 = None ->
  let nz := (size content + CHUNK_SIZE - 1) / CHUNK_SIZE in
  let name := fun i : nat => chunk_filename output_dir i nz in
  (forall i, (i < Z.to_nat nz)%nat ->
     is_Some (compress2 (chunk_of content i) COMPRESSION_LEVEL)) ->
  (forall i, (i < Z.to_nat nz)%nat ->
     denied fs (name i) = false /\
     (name i ∉ dirs fs) /\
     (name i ∉ (files fs).*1)) ->
  exists fs1,
    compress_file_body input_path output_dir fs = (fs1, None) /\
    (files fs1).*1 = (files fs).*1 ++ (name <$> seq 0 (Z.to_nat nz)).
Proof.
  intros Hin Hden Hsz Hhw Hcd nz name Hz Hopen. pose proof CHUNK_SIZE_range as HC.
  pose proof (size_nonneg content) as Hnn.
  destruct (num_chunks_bounds (size content) Hnn) as [Hn0 Hn]. fold nz in Hn0, Hn.
  rewrite (compress_file_phases _ _ content) by done. fold nz.
  destruct (compress_chunks_returns content (Z.to_nat nz) Hhw Hz) as (v & Hv & Hall).
  rewrite Z2Nat.id in Hv by done. rewrite Hv.
  destruct (write_loop_all_set (path_filename input_path) output_dir (size content) nz v
              (Z.to_nat nz) (create_directories output_dir fs).1 Hall) as (fs1 & Hloop & _).
  { intros i Hi. destruct (Hopen i Hi) as (? & ? & _).
    rewrite denied_create_directories. split; [done|]. by apply chunk_filename_not_made. }
  exists fs1. split; [exact Hloop|].
  rewrite <- (files_create_directories output_dir fs).
  assert (Hlt : Z.of_nat (Z.to_nat nz) < 2 ^ 64) by nia.
  apply (write_loop_keys _ _ _ _ _ _ _ _ Hlt) in Hloop; [done|].
  intros i Hi. rewrite files_create_directories. by destruct (Hopen i Hi) as (_ & _ & ?).
Qed.

End compress_file_runs.

(** ** decompress_file on the records of one file *)

Lemma resize_nil (len : Z) : resize len [] = replicate (Z.to_nat len) x00.
Proof. unfold resize. rewrite take_nil. simpl. f_equal. lia. Qed.

Lemma overwrite_all {A} (got buf : list A) :
  length buf = length got -> overwrite got buf = got.
Proof. intros Hl. unfold overwrite. by rewrite drop_ge, app_nil_r by lia. Qed.

Section chunks_of_a_file.
Context `{Constants} `{Zlib} `{!ConstantsOK}.

Lemma concat_chunks (content : list byte) (k : nat) :
  concat (chunk_of content <$> seq 0 k) = take (k * Z.to_nat CHUNK_SIZE) content.
Proof.
  induction k as [|k IH]; [done|].
  rewrite seq_S, fmap_app, concat_app, IH. cbn [plus fmap list_fmap concat].
  rewrite app_nil_r. unfold chunk_of. rewrite take_take_drop. f_equal. lia.
Qed.

Lemma data_chunks_verified (content : list byte) :
  let n := Z.to_nat ((size content + CHUNK_SIZE - 1) / CHUNK_SIZE) in
  concat (data <$> take n (chunks_verified content n)) = content.
Proof.
  intros n. pose proof CHUNK_SIZE_range.
  destruct (num_chunks_bounds (size content) (size_nonneg content)) as [Hn0 Hn].
  rewrite take_ge by (unfold chunks_verified; by rewrite length_fmap, length_seq).
  unfold chunks_verified. rewrite <- list_fmap_compose.
  rewrite (list_fmap_ext _ (chunk_of content) (seq 0 n)) by done.
  rewrite concat_chunks. apply take_ge. unfold n.
  set (nz := (size content + CHUNK_SIZE - 1) / CHUNK_SIZE) in *.
  unfold size in Hn. clearbody nz. clear n. nia.
Qed.

End chunks_of_a_file.

Section records_on_disk.
Context `{Constants} `{Machine} `{Zlib} `{!ConstantsOK} `{!MachineOK} `{!ZlibLaws}.

Variable fs1 : filesystem.
Variable output_dir filename : string.
Variable content : list byte.

Let nz : Z := (size content + CHUNK_SIZE - 1) / CHUNK_SIZE.
Let n : nat := Z.to_nat nz.
Let name : nat -> string := fun i => chunk_filename output_dir i nz.
Let chunk_files : list string := name <$> seq 0 n.

Hypothesis size_bound : size content + CHUNK_SIZE <= 2 ^ 64.
Hypothesis few_chunks : nz < 2 ^ 32.
Hypothesis filename_bound : size (bytes_of_string filename) < 2 ^ 32.
Hypothesis compressed : forall i, (i < n)%nat ->
  compress2 (chunk_of content i) COMPRESSION_LEVEL = Some (payload_of content i).
Hypothesis on_disk : forall i, (i < n)%nat ->
  denied fs1 (name i) = false /\
  read_file fs1 (name i)
  = Some (chunk_record filename (size content) nz i (chunk_of content i)
            (payload_of content i)).

Lemma records_nz : 0 <= nz /\ (nz - 1) * CHUNK_SIZE < size content <= nz * CHUNK_SIZE.
Proof. apply num_chunks_bounds, size_nonneg. Qed.

Lemma chunk_files_lookup (i : nat) : (i < n)%nat -> chunk_files !! i = Some (name i).
Proof. intros Hi. unfold chunk_files. by rewrite list_lookup_fmap, lookup_seq_lt. Qed.

Lemma length_chunk_files : length chunk_files = n.
Proof. unfold chunk_files. by rewrite length_fmap, length_seq. Qed.

Lemma size_chunk_bound (i : nat) : 0 <= size (chunk_of content i) < 2 ^ 64.
Proof.
  pose proof CHUNK_SIZE_range. rewrite size_chunk_of.
  pose proof (size_nonneg content). lia.
Qed.

(** The header a reader finds at the front of record [i]. *)
Lemma record_header (i : nat) :
  (i < n)%nat ->
  read_metadata (open_in fs1 (name i)) =
  ({| magic := magic_tag;
      chunk_index := Some (Z.of_nat i); total_chunks := Some nz;
      original_file_size := Some (size content);
      uncompressed_chunk_size := Some (size (chunk_of content i));
      compressed_size := Some (size (payload_of content i));
      filename_length := Some (size (bytes_of_string filename));
      crc32_checksum := Some (calculate_crc32 (chunk_of content i)) |},
   Ifstream (bytes_of_string filename ++ payload_of content i) true).
Proof.
  intros Hi. destruct (on_disk i Hi) as [Hden Hr]. destruct records_nz as [Hn0 Hn].
  pose proof CHUNK_SIZE_range as HC. pose proof (size_nonneg content) as Hnn.
  pose proof (size_nonneg (bytes_of_string filename)) as Hfn.
  pose proof (size_nonneg (payload_of content i)) as Hpn.
  pose proof (compress2_size _ _ _ (compressed i Hi)) as Hps.
  pose proof (size_chunk_bound i) as Hcb.
  pose proof (uint32_t_range (crc32 (chunk_of content i))) as Hcrc.
  rewrite (open_in_file _ _ _ Hr), Hden. unfold chunk_record.
  rewrite read_metadata_header. unfold calculate_crc32.
  assert (Hi' : Z.of_nat i < nz) by (unfold n in Hi; lia).
  rewrite !uint32_t_small by lia.
  rewrite !(Z.mod_small _ (2 ^ 32)) by lia.
  rewrite !(Z.mod_small _ (2 ^ 64)) by lia.
  done.
Qed.

Lemma length_chunks_loaded (k : nat) : length (chunks_loaded content n k) = n.
Proof. unfold chunks_loaded. by rewrite length_fmap, length_seq. Qed.

Lemma chunks_loaded_lookup (k j : nat) :
  (j < n)%nat ->
  chunks_loaded content n k !! j =
  Some (if decide (j < k)%nat
        then {| index := Z.of_nat j; data := [];
                compressed_data := payload_of content j; processed := false |}
        else ChunkData_init).
Proof.
  intros Hj. unfold chunks_loaded. rewrite list_lookup_fmap, lookup_seq_lt by done. done.
Qed.

Lemma chunks_loaded_0 : chunks_loaded content n 0 = replicate n ChunkData_init.
Proof.
  apply list_eq. intros j. destruct (decide (j < n)%nat).
  - rewrite chunks_loaded_lookup, lookup_replicate_2 by done. done.
  - rewrite !lookup_ge_None_2; [done| |];
      rewrite ?length_replicate, ?length_chunks_loaded; lia.
Qed.

Lemma chunks_loaded_step (k : nat) :
  (k < n)%nat ->
  <[k := {| index := Z.of_nat k; data := [];
            compressed_data := payload_of content k; processed := false |}]>
    (chunks_loaded content n k)
  = chunks_loaded content n (S k).
Proof.
  intros Hk. apply list_eq. intros j.
  destruct (decide (j < n)%nat) as [Hj|Hj].
  - rewrite (chunks_loaded_lookup (S k)) by done.
    destruct (decide (j = k)) as [->|Hne].
    + rewrite list_lookup_insert_eq by (rewrite length_chunks_loaded; lia).
      by rewrite decide_True by lia.
    + rewrite list_lookup_insert_ne, chunks_loaded_lookup by done.
      do 2 f_equal. destruct (decide (j < k)%nat), (decide (j < S k)%nat); done || lia.
  - rewrite !lookup_ge_None_2; [done| |];
      rewrite ?length_insert, length_chunks_loaded; lia.
Qed.

Lemma load_chunk_record (k : nat) :
  (k < n)%nat ->
  load_chunk fs1 chunk_files k (chunks_loaded content n k)
  = inr (chunks_loaded content n (S k)).
Proof.
  intros Hk. unfold load_chunk, vector_at.
  rewrite chunk_files_lookup by done. cbn [determinate bind].
  rewrite record_header by done.
  destruct (on_disk k Hk) as [Hden Hr].
  rewrite (open_in_file _ _ _ Hr), Hden. cbn [good negb filename_length].
  cbn [determinate bind].
  rewrite stream_read_exact by done.
  cbn [chunk_index determinate bind]. rewrite Nat2Z.id.
  rewrite chunks_loaded_lookup, decide_False by lia.
  cbn [determinate bind compressed_size].
  rewrite <- (app_nil_r (payload_of content k)) at 2.
  rewrite stream_read_exact by done.
  cbn [ChunkData_init compressed_data data processed].
  rewrite resize_nil, overwrite_all
    by (rewrite length_replicate; unfold size; lia).
  by rewrite chunks_loaded_step.
Qed.

Lemma load_chunks_records :
  load_chunks fs1 chunk_files nz = (chunks_loaded content n n, None).
Proof.
  destruct records_nz as [Hn0 _]. unfold load_chunks.
  assert (Hmin : Z.to_nat (Z.min (size chunk_files) nz) = n).
  { unfold size. rewrite length_chunk_files. unfold n. lia. }
  rewrite Hmin. fold n. rewrite <- chunks_loaded_0.
  assert (Hloop : forall k, (k <= n)%nat ->
            for_each (pure_body (load_chunk fs1 chunk_files)) (seq 0 k)
              (chunks_loaded content n 0)
            = (chunks_loaded content n k, None)).
  { induction k as [|k IH]; intros Hk; [done|].
    rewrite seq_S, for_each_app, IH by lia. cbn [plus for_each].
    unfold pure_body. by rewrite load_chunk_record by lia. }
  by apply Hloop.
Qed.

Lemma decompress_slot_record (i : nat) :
  (i < n)%nat ->
  decompress_slot fs1 chunk_files i
    {| index := Z.of_nat i; data := [];
       compressed_data := payload_of content i; processed := false |}
  = inr {| index := Z.of_nat i; data := chunk_of content i;
           compressed_data := payload_of content i; processed := true |}.
Proof.
  intros Hi. apply decompress_slot_inr.
  exists (name i), (size (chunk_of content i)), (chunk_of content i).
  rewrite record_header by done. cbn [fst uncompressed_chunk_size crc32_checksum].
  split; [by apply chunk_files_lookup|]. split; [done|]. split; [|done].
  cbn [compressed_data].
  by rewrite (uncompress_compress2 _ _ _ (size (chunk_of content i)) (compressed i Hi))
    by lia.
Qed.

Lemma decompress_chunks_records :
  hardware_concurrency <> 0%nat ->
  decompress_chunks fs1 chunk_files nz (chunks_loaded content n n)
  = inr (chunks_verified content n).
Proof.
  intros Hhw. rewrite decompress_chunks_unfold, decide_False by done.
  change (run_tasks (decompress_task fs1 chunk_files <$> seq 0 n) (completion_order n)
            (chunks_loaded content n n) = inr (chunks_verified content n)).
  destruct (run_tasks_returns (decompress_slot fs1 chunk_files)
              (decompress_task fs1 chunk_files) n
              (decompress_task_slot fs1 chunk_files)
              (decompress_slot_again fs1 chunk_files)
              (completion_order n) (chunks_loaded content n n)
              (length_chunks_loaded n)) as [v Hv].
  { intros j c Hj Hc. apply lookup_lt_Some in Hc as Hlt.
    rewrite length_chunks_loaded in Hlt.
    rewrite chunks_loaded_lookup, decide_True in Hc by done. injection Hc as <-.
    eexists. by apply decompress_slot_record. }
  etrans; [exact Hv|]. f_equal.
  apply (run_tasks_slots (decompress_slot fs1 chunk_files)
           (decompress_task fs1 chunk_files) n
           (decompress_task_slot fs1 chunk_files)
           (decompress_slot_again fs1 chunk_files)) in Hv as [Hlen Hslots];
    [|apply length_chunks_loaded].
  apply list_eq. intros j. destruct (decide (j < n)%nat) as [Hj|Hj].
  - pose proof (chunks_loaded_lookup n j Hj) as Hl. rewrite decide_True in Hl by done.
    destruct (Hslots j _ Hl) as [Hyes _].
    destruct Hyes as (c' & Hg & ->).
    { rewrite (completion_order_perm n). apply elem_of_seq. lia. }
    rewrite decompress_slot_record in Hg by done. injection Hg as <-.
    unfold chunks_verified. by rewrite list_lookup_fmap, lookup_seq_lt.
  - rewrite !lookup_ge_None_2; [done| |]; unfold chunks_verified;
      rewrite ?length_fmap, ?length_seq; lia.
Qed.

End records_on_disk.

(** ** Compress, then decompress *)

Section roundtrip.
Context `{Constants} `{Machine} `{Zlib} `{!ConstantsOK} `{!MachineOK} `{!ZlibLaws}.

Lemma filter_none {A} (P : A -> Prop) `{!forall x, Decision (P x)} (l : list A) :
  (forall x, x ∈ l -> ~ P x) -> filter P l = [].
Proof.
  intros Hl. apply elem_of_nil_inv. intros x [HP Hx]%list_elem_of_filter.
  by apply (Hl x).
Qed.

Lemma filter_all {A} (P : A -> Prop) `{!forall x, Decision (P x)} (l : list A) :
  (forall x, x ∈ l -> P x) -> filter P l = l.
Proof.
  induction l as [|x l IH]; intros Hl; [done|].
  rewrite filter_cons_True by (apply Hl; left).
  rewrite IH; [done|]. intros y Hy. apply Hl. by right.
Qed.

(** X1.  Round trip, up to nine chunks.  On a machine with at least one worker
    and a codec that works, for an input of one to nine chunks and an output
    directory that can be made and holds no chunk record beforehand, the
    block of [compress_file] runs to its end, the block of [decompress_file]
    on the directory it leaves runs to its end too, and the output file then
    holds the input, byte for byte.  (Neither call returns: each has
    destroyed its pool by hand and destroys it again on leaving the
    block.) *)
Theorem roundtrip_up_to_nine_chunks (input_path output_dir output_path : string)
    (content : list byte) (fs : filesystem) :
  read_file fs input_path = Some content ->
  denied fs input_path = false ->
  hardware_concurrency <> 0%nat ->
  size content + CHUNK_SIZE <= 2 ^ 64 ->
  size (bytes_of_string (path_filename input_path)) < 2 ^ 32 ->
  (create_directories output_dir fs).2 = None ->
  let nz := (size content + CHUNK_SIZE - 1) / CHUNK_SIZE in
  let name := fun i : nat => chunk_filename output_dir i nz in
  let final := if decide (output_path = "") then path_filename input_path else output_path in
  1 <= nz <= 9 ->
  (forall i, (i < Z.to_nat nz)%nat ->
     is_Some (compress2 (chunk_of content i) COMPRESSION_LEVEL) /\
     denied fs (name i) = false) ->
  (forall p, p ∈ (files fs).*1 ++ dirs fs -> child_of output_dir p = true ->
     path_extension p <> ".dchunk") ->
  denied fs final = false -> final ∉ dirs (create_directories output_dir fs).1 ->
  final <> "" ->
  exists fs1 fs2,
    compress_file_body input_path output_dir fs = (fs1, None) /\
    decompress_file_body output_dir output_path fs1 = (fs2, None) /\
    read_file fs2 final = Some content /\
    compress_file input_path output_dir fs = Unknown "pool.~ThreadPool() twice" /\
    decompress_file output_dir output_path fs1 = Unknown "pool.~ThreadPool() twice".
Proof.
  intros Hin Hden Hhw Hsz Hfn Hcd nz name final Hnz Hok Hfresh Hfden Hfdir Hfne.
  pose proof CHUNK_SIZE_range as HC.
  set (n := Z.to_nat nz).
  set (filename := path_filename input_path).
  (* the names are new to the file system *)
  assert (Hnew : forall i, name i ∉ (files fs).*1 ++ dirs fs).
  { intros i Hi. apply (Hfresh _ Hi); [apply child_of_chunk_filename|].
    apply path_extension_chunk_filename. }
  (* compress_file *)
  destruct (compress_file_runs input_path output_dir content fs Hin Hden Hsz Hhw Hcd)
    as (fs1 & Hc & Hkeys).
  { intros i Hi. by destruct (Hok i Hi). }
  { intros i Hi. split; [by destruct (Hok i Hi)|]. split.
    - intros Hk. apply (Hnew i), elem_of_app. by right.
    - intros Hk. apply (Hnew i), elem_of_app. by left. }
  fold nz name n in Hkeys.
  destruct (compress_file_returns _ _ _ _ _ Hin Hsz Hc) as (_ & _ & Hd1 & Hden1 & Hrec & _).
  fold nz name n filename in Hrec.
  assert (Hcomp : forall i, (i < n)%nat ->
            compress2 (chunk_of content i) COMPRESSION_LEVEL = Some (payload_of content i)).
  { intros i Hi. destruct (Hrec i Hi) as (payload & Hp & _).
    unfold payload_of. by rewrite Hp. }
  assert (Hdisk : forall i, (i < n)%nat ->
            denied fs1 (name i) = false /\
            read_file fs1 (name i)
            = Some (chunk_record filename (size content) nz i (chunk_of content i)
                      (payload_of content i))).
  { intros i Hi. destruct (Hrec i Hi) as (payload & Hp & Hr).
    split; [rewrite Hden1; by destruct (Hok i Hi)|].
    unfold name. rewrite Hr. unfold payload_of. by rewrite Hp. }
  assert (Hfew : nz < 2 ^ 32) by lia.
  (* discovery *)
  assert (Hdir : directory_iterator fs1 output_dir
                 = Some (filter (fun p => child_of output_dir p = true)
                           ((files fs1).*1 ++ dirs fs1))).
  { unfold directory_iterator. rewrite decide_True; [done|].
    rewrite Hd1. by apply elem_of_dirs_create_directories. }
  assert (Hfilter : filter (fun p => path_extension p = ".dchunk")
                      (filter (fun p => child_of output_dir p = true)
                         ((files fs1).*1 ++ dirs fs1))
                    = name <$> seq 0 n).
  { rewrite Hkeys, !filter_app.
    rewrite (filter_none _ (filter _ (files fs).*1)).
    2:{ intros p [Hch Hp]%list_elem_of_filter Hext.
        apply (Hfresh p); [apply elem_of_app; by left|done|done]. }
    rewrite (filter_none _ (filter _ (dirs fs1))).
    2:{ intros p [Hch Hp]%list_elem_of_filter Hext. rewrite Hd1 in Hp.
        destruct (create_directories_spec output_dir fs) as (_ & _ & _ & Hmade & _).
        destruct (Hmade p Hp) as [Hp'|Hp'].
        - apply (Hfresh p); [apply elem_of_app; by right|done|done].
        - by rewrite (child_of_prefix _ _ Hp') in Hch. }
    rewrite app_nil_l, app_nil_r.
    rewrite (filter_all (fun p => child_of output_dir p = true)).
    2:{ intros p (i & -> & _)%list_elem_of_fmap. apply child_of_chunk_filename. }
    apply filter_all.
    intros p (i & -> & _)%list_elem_of_fmap. apply path_extension_chunk_filename. }
  assert (Hdisc : discover (filter (fun p => child_of output_dir p = true)
                              ((files fs1).*1 ++ dirs fs1))
                  = name <$> seq 0 n).
  { unfold discover. rewrite Hfilter. apply sort_chunk_filenames. unfold n. lia. }
  (* the first header *)
  assert (H0n : (0 < n)%nat) by (unfold n; lia).
  pose proof (record_header fs1 output_dir filename content Hsz Hfew Hfn Hcomp Hdisk 0%nat H0n)
    as Hhead.
  cbv zeta in Hhead. fold nz name in Hhead.
  pose proof (load_chunks_records fs1 output_dir filename content Hsz Hfew Hfn Hcomp Hdisk)
    as Hload.
  cbv zeta in Hload. fold nz name n in Hload.
  pose proof (decompress_chunks_records fs1 output_dir filename content Hsz Hfew Hfn Hcomp
                Hdisk Hhw) as Hdrain.
  cbv zeta in Hdrain. fold nz name n in Hdrain.
  (* the output path *)
  assert (Hpath : output_path_of output_path (size (bytes_of_string filename))
                    (Ifstream (bytes_of_string filename ++ payload_of content 0) true)
                  = final).
  { unfold output_path_of, final. case_decide; [|done].
    rewrite stream_read_exact by done. cbn [fst].
    rewrite overwrite_all by (rewrite length_replicate; unfold size; lia).
    apply String.string_of_list_byte_of_string. }
  assert (Hfirst : discover (filter (fun p => child_of output_dir p = true)
                               ((files fs1).*1 ++ dirs fs1)) !! 0%nat
                   = Some (name 0%nat))
    by (by rewrite Hdisc, list_lookup_fmap, lookup_seq_lt).
  assert (Hdec : decompress_file_body output_dir output_path fs1
                 = reassemble final nz (chunks_verified content n) fs1).
  { rewrite (decompress_file_phases output_dir output_path fs1 _ (name 0%nat) _ _
               (size (bytes_of_string filename)) nz Hdir Hfirst Hhead eq_refl eq_refl
               eq_refl).
    rewrite Hdisc, Hload, Hdrain, Hpath. done. }
  assert (Hcall : decompress_file output_dir output_path fs1
                  = pool_destroyed_again (reassemble final nz (chunks_verified content n) fs1)).
  { rewrite (decompress_file_call_phases output_dir output_path fs1 _ (name 0%nat) _ _
               (size (bytes_of_string filename)) nz Hdir Hfirst Hhead eq_refl eq_refl
               eq_refl).
    rewrite Hdisc, Hload, Hdrain, Hpath. done. }
  (* reassembly *)
  destruct (reassemble_all_set final nz (chunks_verified content n) fs1) as [fs2 Hre].
  { apply write_file_Some. rewrite Hden1, Hd1. done. }
  { intros i Hi. fold n in Hi.
    exists {| index := Z.of_nat i; data := chunk_of content i;
              compressed_data := payload_of content i; processed := true |}.
    split; [|done].
    unfold chunks_verified. rewrite list_lookup_fmap, lookup_seq_lt by done. done. }
  exists fs1, fs2. split; [done|]. split; [by rewrite Hdec|].
  split; [|split].
  - apply reassemble_returns in Hre as (_ & Hout & _). rewrite Hout. f_equal.
    fold n. apply (data_chunks_verified content).
  - by apply (compress_file_body_end _ _ _ fs1).
  - by rewrite Hcall, Hre.
Qed.

End roundtrip.

(** * Runs that do not complete *)

Section incomplete_runs.
Context `{Constants} `{Machine} `{Zlib} `{!ConstantsOK}.

(** X14.  The writing loop on an arbitrary vector of slots: the check is made
    slot by slot, so the records of the slots before the first unset flag
    are written before the loop throws.  (After a drain the first unset
    flag, if any, is that of chunk 0.) *)
Theorem write_chunks_stops_at_first_unset (filename output_dir : string)
    (file_size : Z) (v : list ChunkData) (n k : nat) (c : ChunkData) (fs : filesystem) :
  (k < n)%nat -> Z.of_nat n < 2 ^ 64 ->
  (forall i, (i < k)%nat -> exists ci, v !! i = Some ci /\ processed ci = true) ->
  v !! k = Some c -> processed c = false ->
  (forall i, (i < k)%nat ->
     denied fs (chunk_filename output_dir i (Z.of_nat n)) = false /\
     (chunk_filename output_dir i (Z.of_nat n) ∉ dirs fs)) ->
  exists fs',
    write_chunks filename output_dir file_size (Z.of_nat n) v fs
    = (fs', Some (Thrown (runtime_error "Chunk processing failed"))) /\
    forall i, (i < k)%nat -> exists ci, v !! i = Some ci /\
      read_file fs' (chunk_filename output_dir i (Z.of_nat n))
      = Some (chunk_record filename file_size (Z.of_nat n) i (data ci) (compressed_data ci)).
Proof.
  intros Hk Hn Hset Hc Hp Hopen.
  destruct (write_loop_all_set filename output_dir file_size (Z.of_nat n) v k fs Hset Hopen)
    as (fs' & Hloop & _).
  exists fs'. split.
  - unfold write_chunks. rewrite Nat2Z.id.
    replace n with (k + S (n - S k))%nat at 2 by lia.
    rewrite seq_app, for_each_app, Hloop. cbn [plus seq for_each].
    by rewrite (write_chunk_unprocessed _ _ _ _ _ _ _ _ Hc Hp).
  - intros i Hi.
    apply write_loop_returns in Hloop as (_ & _ & Hrec & _); [|lia].
    destruct (Hrec i Hi) as (ci & ? & _ & ?). by exists ci.
Qed.

(** X13.  In the pool, the first task of the completion order that finds a
    mismatch ends the process with the message naming its slot. *)
Theorem first_mismatch_ends_the_process (fs : filesystem) (chunk_files : list string)
    (total : Z) (v : list ChunkData) (before after : list nat) (i : nat)
    (c : ChunkData) (what : string) :
  hardware_concurrency <> 0%nat ->
  length v = Z.to_nat total ->
  completion_order (Z.to_nat total) = before ++ i :: after ->
  (forall j cj, j ∈ before -> v !! j = Some cj ->
     exists c', decompress_slot fs chunk_files j cj = inr c') ->
  v !! i = Some c ->
  decompress_slot fs chunk_files i c = inl (Thrown (runtime_error what)) ->
  decompress_chunks fs chunk_files total v = inl (Terminated (runtime_error what)).
Proof.
  intros Hhw Hlen Horder Hbefore Hc Hslot.
  rewrite decompress_chunks_unfold, decide_False, Horder by done.
  by apply (run_tasks_first_fault (decompress_slot fs chunk_files)
              (decompress_task fs chunk_files) (Z.to_nat total)
              (decompress_task_slot fs chunk_files)
              (decompress_slot_again fs chunk_files) before after i v c
              (Thrown (runtime_error what))).
Qed.

(** X12.  With fewer chunk files than the first header announces, the
    block of [decompress_file] never runs to its end: some task fails or
    indexes the discovery list out of range.  The call does not return
    either. *)
Theorem fewer_files_than_chunks_never_returns (chunks_dir output_path : string)
    (fs fs' : filesystem) (entries : list string) (first : string) (total : Z) :
  directory_iterator fs chunks_dir = Some entries ->
  discover entries !! 0%nat = Some first ->
  total_chunks (read_metadata (open_in fs first)).1 = Some total ->
  Z.of_nat (length (discover entries)) < total ->
  decompress_file_body chunks_dir output_path fs <> (fs', None) /\
  decompress_file chunks_dir output_path fs <> Returns fs'.
Proof.
  intros Hdir Hfirst Htotal Hlen.
  split; [|apply decompress_file_never_returns]. intros Hrun.
  apply decompress_file_returns in Hrun
    as (entries' & first' & m0 & s0 & nl & total' & loaded & drained
        & Hdir' & Hfirst' & Hm & _ & _ & Htotal' & Hload & Hdrain & Hre).
  rewrite Hdir in Hdir'. injection Hdir' as <-.
  rewrite Hfirst in Hfirst'. injection Hfirst' as <-.
  rewrite Hm in Htotal. cbn [fst] in Htotal.
  rewrite Htotal in Htotal'. injection Htotal' as <-.
  destruct (accepted_slots _ _ _ _ _ _ _ Hload Hdrain Hre) as [_ Hacc].
  destruct (Hacc (length (discover entries)) ltac:(lia)) as (c & c' & _ & _ & Hslot).
  apply decompress_slot_inr in Hslot as (path & _ & _ & Hpath & _).
  apply lookup_lt_Some in Hpath. lia.
Qed.

End incomplete_runs.

(** * Further properties of the two operations *)

(** ** The order of the chunk files *)

Section name_order.
Context `{Constants}.

(** X2.  The names [compress_file] gives the records of an [n]-chunk file,
    taken in chunk order, are already in the order [std::sort] puts them in
    exactly when [n] is at most nine: from ten chunks on, "chunk_10_of_n"
    sorts before "chunk_2_of_n". *)
Theorem chunk_names_sort_by_index_iff_at_most_nine (output_dir : string) (n : nat) :
  let names := (fun i => chunk_filename output_dir i (Z.of_nat n)) <$> seq 0 n in
  sort_strings names = names <-> (n <= 9)%nat.
Proof.
  intros names. split; [|apply sort_chunk_filenames].
  intros Hsorted. destruct (decide (n <= 9)%nat) as [|Hn]; [done|]. exfalso.
  assert (Hs : StronglySorted String.le names).
  { rewrite <- Hsorted. unfold sort_strings. apply StronglySorted_merge_sort; apply _. }
  assert (Hsplit : seq 0 n = seq 0 2 ++ seq 2 (n - 2)).
  { change 2%nat with (0 + 2)%nat at 2. rewrite <- seq_app. f_equal. lia. }
  unfold names in Hs. rewrite Hsplit, fmap_app in Hs.
  assert (Hle : String.le (chunk_filename output_dir 1 (Z.of_nat n))
                          (chunk_filename output_dir 9 (Z.of_nat n))).
  { eapply (StronglySorted_app_1_elem_of _ _ _ _ _ Hs).
    - apply list_elem_of_fmap. exists 1%nat. split; [done|]. apply elem_of_seq. lia.
    - apply list_elem_of_fmap. exists 9%nat. split; [done|]. apply elem_of_seq. lia. }
  unfold chunk_filename in Hle. apply string_le_app, string_le_app in Hle.
  revert Hle. by vm_compute.
Qed.

End name_order.

(** ** The header, written and read back *)

(** X17.  A header whose fields fit their widths is written as 48 bytes,
    and reading 48 bytes back from a stream that starts with them gives the
    same header and leaves the stream at the byte after it. *)
Theorem header_roundtrip (ci tc fsz us cs fl crc : Z) (tl : list byte) :
  0 <= ci < 2 ^ 32 -> 0 <= tc < 2 ^ 32 -> 0 <= fsz < 2 ^ 64 -> 0 <= us < 2 ^ 64 ->
  0 <= cs < 2 ^ 64 -> 0 <= fl < 2 ^ 32 -> 0 <= crc < 2 ^ 32 ->
  let m := {| magic := magic_tag; chunk_index := Some ci; total_chunks := Some tc;
              original_file_size := Some fsz; uncompressed_chunk_size := Some us;
              compressed_size := Some cs; filename_length := Some fl;
              crc32_checksum := Some crc |} in
  exists bs, metadata_bytes m = Some bs /\ size bs = sizeof_ChunkMetadata /\
    read_metadata (Ifstream (bs ++ tl) true) = (m, Ifstream tl true).
Proof.
  intros Hci Htc Hfsz Hus Hcs Hfl Hcrc m.
  exists (header_bytes ci tc fsz us cs fl crc). split; [|split].
  - unfold metadata_bytes, object_representation, m, header_bytes.
    cbn [magic chunk_index total_chunks original_file_size uncompressed_chunk_size
         compressed_size filename_length crc32_checksum field_bytes].
    rewrite <- !fmap_app. apply mapM_id_Some.
  - unfold size. by rewrite length_header_bytes.
  - rewrite read_metadata_header. unfold m.
    by rewrite !Z.mod_small by done.
Qed.

(** ** A first chunk file that cannot be read *)

Section first_chunk.
Context `{Constants} `{Machine} `{Zlib}.


End first_chunk.

(** ** Buffered output *)

Section buffered_output.
Context `{Constants} `{Machine} `{Zlib}.


End buffered_output.

(** ** The reading loop *)

Section read_partition.
Context `{Constants} `{!ConstantsOK}.

(** X18.  On a stream over the whole input, the reading loop of
    [compress_file] returns (it never spins or indexes out of range),
    consumes the stream to its end, and fills the slots in order with
    consecutive pieces of the input: every slot holds between 1 and
    [CHUNK_SIZE] bytes, every slot but the last exactly [CHUNK_SIZE], and the
    slots' bytes concatenated are the input.  The buffer size plays no
    part. *)
Theorem read_chunks_partition (content : list byte) :
  size content + CHUNK_SIZE <= 2 ^ 64 ->
  let nz := (size content + CHUNK_SIZE - 1) / CHUNK_SIZE in
  exists v s,
    read_chunks (size content) nz (Ifstream content true) = ((v, s), None) /\
    size v = nz /\ rest s = [] /\ concat (data <$> v) = content /\
    forall i c, v !! i = Some c ->
      index c = Z.of_nat i /\ 0 < size (data c) <= CHUNK_SIZE /\
      (Z.of_nat i + 1 < nz -> size (data c) = CHUNK_SIZE) /\
      compressed_data c = [] /\ processed c = false.
Proof.
  intros Hsz nz. pose proof CHUNK_SIZE_range as HC.
  pose proof (size_nonneg content) as Hnn.
  destruct (num_chunks_bounds (size content) Hnn) as [Hn0 Hn]. fold nz in Hn0, Hn.
  pose proof (read_chunks_all content Hsz) as Hread. cbv zeta in Hread. fold nz in Hread.
  eexists _, _. split; [exact Hread|]. cbn [rest].
  split; [unfold size; rewrite length_chunks_read; lia|].
  split; [apply drop_ge; unfold size in *; nia|].
  split.
  - unfold chunks_read. rewrite <- list_fmap_compose.
    rewrite (list_fmap_ext _ (chunk_of content) (seq 0 (Z.to_nat nz))).
    + rewrite concat_chunks. apply take_ge. unfold size in *. nia.
    + intros k i [-> Hi]%lookup_seq. cbn [compose plus]. by rewrite decide_True.
  - intros i c Hc. apply lookup_lt_Some in Hc as Hi. rewrite length_chunks_read in Hi.
    rewrite chunks_read_lookup, decide_True in Hc by done. injection Hc as <-.
    cbn [index data compressed_data processed]. rewrite size_chunk_of.
    split; [done|]. split; [nia|]. split; [nia|done].
Qed.

End read_partition.

(** ** What compress_file can do to the file system, and how it can end *)

Lemma for_each_invariant {St} (P : St -> St -> Prop) (body : nat -> St -> St * outcome)
    (l : list nat) (s : St) :
  (forall s, P s s) -> (forall s1 s2 s3, P s1 s2 -> P s2 s3 -> P s1 s3) ->
  (forall i s, i ∈ l -> P s (body i s).1) ->
  P s (for_each body l s).1.
Proof.
  intros Hrefl Htrans. revert s. induction l as [|i l IH]; intros s Hbody; [apply Hrefl|].
  cbn [for_each]. pose proof (Hbody i s ltac:(left)) as Hi.
  destruct (body i s) as [s' [ft|]]; [done|].
  apply (Htrans _ s'); [done|]. apply IH. intros j s0 Hj. apply Hbody. by right.
Qed.

Lemma for_each_outcome {St} (Q : fault -> Prop) (body : nat -> St -> St * outcome)
    (l : list nat) (s : St) (ft : fault) :
  (forall i s ft, i ∈ l -> (body i s).2 = Some ft -> Q ft) ->
  (for_each body l s).2 = Some ft -> Q ft.
Proof.
  revert s. induction l as [|i l IH]; intros s Hbody; [done|].
  cbn [for_each]. pose proof (Hbody i s) as Hi.
  destruct (body i s) as [s' [ft'|]].
  - intros [= ->]. apply Hi; [left|done].
  - apply IH. intros j s0 ft0 Hj. apply Hbody. by right.
Qed.

Section compress_file_effects.
Context `{Constants} `{Machine} `{Zlib}.

Lemma only_changed_refl (P : string -> Prop) (fs : filesystem) : only_changed P fs fs.
Proof. done. Qed.

Lemma only_changed_trans (P : string -> Prop) (fs1 fs2 fs3 : filesystem) :
  only_changed P fs1 fs2 -> only_changed P fs2 fs3 -> only_changed P fs1 fs3.
Proof.
  intros (Hd1 & Hn1 & Hs1 & Hq1) (Hd2 & Hn2 & Hs2 & Hq2).
  split; [congruence|]. split; [congruence|]. split; [auto|].
  intros q Hq. by rewrite Hq2, Hq1.
Qed.

Lemma write_file_only_changed (P : string -> Prop) (p : string) (content : list byte)
    (fs fs' : filesystem) :
  P p -> write_file p content fs = Some fs' -> only_changed P fs fs'.
Proof.
  intros HP Hw. destruct (write_file_frame _ _ _ _ Hw) as [Hd Hden].
  split; [done|]. split; [done|]. split.
  - intros q Hq. destruct (decide (p = q)) as [<-|Hne].
    + rewrite (read_file_write_file _ _ _ _ Hw). by eexists.
    + by rewrite (read_file_write_file_ne _ _ _ _ _ Hw Hne).
  - intros q Hq. apply (read_file_write_file_ne _ _ _ _ _ Hw). by intros <-.
Qed.

Lemma write_chunk_only_changed (filename output_dir : string) (file_size num_chunks : Z)
    (v : list ChunkData) (i : nat) (fs : filesystem) :
  only_changed (fun p => exists i n, p = chunk_filename output_dir i n) fs
    (write_chunk filename output_dir file_size num_chunks v i fs).1.
Proof.
  unfold write_chunk. destruct (v !! i) as [c|]; [|done].
  destruct (processed c); cbn [negb]; [|done].
  destruct (metadata_bytes _) as [header|]; [|done].
  destruct (write_file _ _ fs) as [fs'|] eqn:Hw; [|done].
  eapply write_file_only_changed; [|exact Hw]. by eexists _, _.
Qed.


End compress_file_effects.

Section compress_file_ends.
Context `{Constants} `{Machine} `{Zlib}.

(** X8.  What the block of [compress_file] has done to the file system
    when control leaves it, in whatever way the model describes: no path has
    become refused, the only directories made are [output_dir] and
    directories above it, no directory and no file is removed, and every
    file whose path is not of the form [output_dir/chunk_<i>_of_<n>.dchunk]
    holds the bytes it had. *)
Theorem compress_file_writes_only_chunk_files (input_path output_dir : string)
    (fs : filesystem) :
  let r := compress_file_body input_path output_dir fs in
  described r.2 ->
  denied r.1 = denied fs /\
  (forall d, d ∈ dirs r.1 -> d ∈ dirs fs \/ d ∈ path_prefixes output_dir) /\
  (forall d, d ∈ dirs fs -> d ∈ dirs r.1) /\
  (forall q, is_Some (read_file fs q) -> is_Some (read_file r.1 q)) /\
  (forall q, (forall i n, q <> chunk_filename output_dir i n) ->
     read_file r.1 q = read_file fs q).
Proof.
  intros r _.
  set (P := fun p => exists i n, p = chunk_filename output_dir i n).
  destruct (create_directories_spec output_dir fs) as (Hf1 & Hden1 & Hkeep & Hmade & _ & _).
  assert (Hcases : r.1 = fs \/ only_changed P (create_directories output_dir fs).1 r.1).
  { unfold r, compress_file_body, compress_file_read.
    destruct (fs_exists fs input_path); cbn [negb]; [|by left].
    right. destruct (create_directories output_dir fs) as [fs1 [f|]]; cbn [fst snd]; [done|].
    destruct (good (open_in fs1 input_path)); cbn [negb]; [|done].
    destruct (read_file fs1 input_path); [|done].
    destruct (read_chunks _ _ _) as [[chunks input] [ft|]]; [done|].
    cbv zeta. destruct (compress_chunks _ chunks) as [ft|chunks']; [done|].
    unfold write_chunks.
    apply (for_each_invariant (only_changed P));
      [done|apply only_changed_trans|].
    intros i s _. apply write_chunk_only_changed. }
  destruct Hcases as [->|(Hd & Hden & Hs & Hq)].
  { repeat split; try done. intros d Hd. by left. }
  split; [by rewrite Hden|].
  rewrite Hd. split; [done|]. split; [done|].
  split.
  - intros q Hsome. apply Hs. unfold read_file in *. by rewrite Hf1.
  - intros q Hne. rewrite Hq.
    + unfold read_file. by rewrite Hf1.
    + intros (i & n & ->). by apply (Hne i n).
Qed.

(** A stream that opened is over a regular file, or over a directory. *)
Lemma good_open_in (fs : filesystem) (p : string) :
  good (open_in fs p) = true ->
  denied fs p = false /\ (is_Some (read_file fs p) \/ p ∈ dirs fs).
Proof.
  unfold open_in. destruct (denied fs p); [done|].
  destruct (read_file fs p) as [content|]; [intros _; split; [done|]; left; by eexists|].
  cbn [good]. intros Hd%bool_decide_eq_true. split; [done|]. by right.
Qed.


End compress_file_ends.

(** ** What decompress_file can do to the file system *)

Section decompress_file_effects.
Context `{Constants} `{Machine} `{Zlib}.

Lemma append_file_only_changed (p : string) (bytes : list byte) (fs : filesystem) :
  only_changed (eq p) fs (append_file p bytes fs).
Proof.
  split; [done|]. split; [done|]. split.
  - intros q Hq. destruct (decide (p = q)) as [<-|Hne].
    + rewrite read_file_append_file. by eexists.
    + by rewrite read_file_append_file_ne.
  - intros q Hq. by apply read_file_append_file_ne.
Qed.

Lemma push_bytes_only_changed (p : string) (st : filesystem * list byte) (d : list byte) :
  only_changed (eq p) st.1 (foldl (push_byte p) st d).1.
Proof.
  revert st. induction d as [|b d IH]; intros st; cbn [foldl]; [done|].
  eapply only_changed_trans; [|apply IH].
  destruct st as [fs buffer]. unfold push_byte. case_decide; cbn [fst]; [|done].
  apply append_file_only_changed.
Qed.

Lemma reassemble_only_changed (p : string) (total : Z) (v : list ChunkData)
    (fs : filesystem) :
  only_changed (eq p) fs (reassemble p total v fs).1.
Proof.
  unfold reassemble. destruct (write_file p [] fs) as [fs0|] eqn:Hopen; [|done].
  apply (only_changed_trans _ _ fs0); [by eapply write_file_only_changed|].
  pose proof (for_each_invariant
                (fun s s' : filesystem * list byte => only_changed (eq p) s.1 s'.1)
                (emit_chunk p v) (seq 0 (Z.to_nat total)) (fs0, [])) as Hloop.
  cbn beta in Hloop.
  destruct (for_each _ _ (fs0, [])) as [[fs1 buffer] [ft|]]; cbn [fst] in *.
  - apply Hloop; [done|intros ???; apply only_changed_trans|].
    intros i s _. unfold emit_chunk. destruct (v !! i) as [c|]; [|done].
    destruct (processed c); cbn [negb fst]; [|done]. apply push_bytes_only_changed.
  - assert (Hfs1 : only_changed (eq p) fs0 fs1).
    { apply Hloop; [done|intros ???; apply only_changed_trans|].
      intros i s _. unfold emit_chunk. destruct (v !! i) as [c|]; [|done].
      destruct (processed c); cbn [negb fst]; [|done]. apply push_bytes_only_changed. }
    case_decide; cbn [fst]; [|done].
    eapply only_changed_trans; [exact Hfs1|apply append_file_only_changed].
Qed.

(** X10.  What the block of [decompress_file] has done to the file system
    when control leaves it, in whatever way the model describes: the
    directories and the refused paths are as they were, no file is removed,
    and at most one file has changed: the output file, which is
    [output_path] when that is not empty. *)
Theorem decompress_file_writes_only_the_output (chunks_dir output_path : string)
    (fs : filesystem) :
  let r := decompress_file_body chunks_dir output_path fs in
  described r.2 ->
  dirs r.1 = dirs fs /\ denied r.1 = denied fs /\
  (forall q, is_Some (read_file fs q) -> is_Some (read_file r.1 q)) /\
  exists final, (output_path <> "" -> final = output_path) /\
    forall q, q <> final -> read_file r.1 q = read_file fs q.
Proof.
  intros r _.
  assert (Hch : exists final, (output_path <> "" -> final = output_path) /\
                  only_changed (eq final) fs r.1).
  { unfold r, decompress_file_body, decompress_file_load.
    destruct (directory_iterator fs chunks_dir) as [entries|]; [|by exists output_path].
    case_decide; [by exists output_path|].
    destruct (discover entries !! 0%nat) as [first|]; [|by exists output_path].
    destruct (read_metadata (open_in fs first)) as [m0 s0].
    case_decide; [by exists output_path|].
    destruct (filename_length m0) as [name_len|]; [|by exists output_path].
    destruct (total_chunks m0) as [total|]; [|by exists output_path].
    destruct (load_chunks _ _ _) as [loaded [ft|]]; [by exists output_path|].
    destruct (decompress_chunks _ _ _ _) as [ft|drained]; [by exists output_path|].
    eexists. split; [|apply reassemble_only_changed].
    intros Hne. by rewrite decide_False. }
  destruct Hch as (final & Hfinal & Hd & Hden & Hs & Hq).
  split; [done|]. split; [done|]. split; [done|].
  exists final. split; [done|]. intros q Hne. apply Hq. congruence.
Qed.

Lemma run_tasks_not_thrown {St} (pool : ThreadPool St) (order : list nat) (s : St)
    (e : exception) :
  run_tasks pool order s <> inl (Thrown e).
Proof.
  revert s. induction order as [|j order IH]; intros s; cbn [run_tasks]; [done|].
  destruct (pool !! j) as [f|]; [|apply IH].
  destruct (f s) as [[]|s']; cbn [in_worker bind]; done || apply IH.
Qed.

Lemma load_chunks_not_this (fs : filesystem) (chunk_files : list string) (total : Z) :
  (load_chunks fs chunk_files total).2
  <> Some (Thrown (runtime_error "Chunk decompression failed")).
Proof.
  unfold load_chunks. intros Hft.
  apply (fun Hbody => for_each_outcome
    (fun ft => ft <> Thrown (runtime_error "Chunk decompression failed"))
    (pure_body (load_chunk fs chunk_files)) _ _ _ Hbody Hft eq_refl).
  intros i v ft _. unfold pure_body.
  destruct (load_chunk fs chunk_files i v) as [ft'|v'] eqn:Hload; [|done].
  cbn [snd]. intros [= <-]. revert Hload. unfold load_chunk, vector_at.
  destruct (chunk_files !! i) as [path|]; cbn [determinate bind]; [|by intros [= <-]].
  destruct (good (open_in fs path)); cbn [negb]; [|by intros [= <-]].
  destruct (read_metadata (open_in fs path)) as [m s].
  destruct (filename_length m) as [nl|]; cbn [determinate bind]; [|by intros [= <-]].
  destruct (stream_read nl s) as [name s'].
  destruct (chunk_index m) as [idx|]; cbn [determinate bind]; [|by intros [= <-]].
  destruct (v !! Z.to_nat idx) as [c0|]; cbn [determinate bind]; [|by intros [= <-]].
  destruct (compressed_size m) as [cs|]; cbn [determinate bind]; [|by intros [= <-]].
  by destruct (stream_read cs s').
Qed.






End decompress_file_effects.

(** ** The schedule of the workers *)

Section slot_task_orders.
Context {A : Type}.
Variable g : nat -> A -> result A.
Variable f : nat -> task (list A).
Variable n : nat.

Hypothesis f_slot : forall i v c, v !! i = Some c ->
  f i v = (let* c' := g i c in inr (<[i := c']> v)).
Hypothesis g_again : forall i c c', g i c = inr c' -> g i c' = inr c'.

(** A drain that returns gives the same vector under every order that runs
    the same tasks. *)
Lemma run_tasks_reordered (order order' : list nat) (v v' : list A) :
  length v = n -> order ≡ₚ order' ->
  run_tasks (f <$> seq 0 n) order v = inr v' ->
  run_tasks (f <$> seq 0 n) order' v = inr v'.
Proof.
  intros Hlen Hperm Hrun.
  destruct (run_tasks_slots g f n f_slot g_again order v v' Hlen Hrun) as [Hlen' Hslots].
  destruct (run_tasks_returns g f n f_slot g_again order' v Hlen) as [v'' Hrun'].
  { intros j c Hj Hc. destruct (Hslots j c Hc) as [Hyes _].
    destruct Hyes as (c' & ? & _); [by rewrite Hperm|]. by exists c'. }
  rewrite Hrun'. f_equal.
  destruct (run_tasks_slots g f n f_slot g_again order' v v'' Hlen Hrun')
    as [Hlen'' Hslots'].
  apply list_eq. intros j. destruct (v !! j) as [c|] eqn:Hc.
  - destruct (Hslots j c Hc) as [Hyes Hno]. destruct (Hslots' j c Hc) as [Hyes' Hno'].
    destruct (decide (j ∈ order)) as [Hin|Hin].
    + destruct (Hyes Hin) as (c1 & Hg1 & ->).
      destruct Hyes' as (c2 & Hg2 & ->); [by rewrite <- Hperm|]. congruence.
    + rewrite Hno, Hno'; [done| |done]. by rewrite <- Hperm.
  - apply lookup_ge_None in Hc. rewrite !lookup_ge_None_2; [done|lia|lia].
Qed.

Lemma run_tasks_reordered_fault (order order' : list nat) (v : list A) (ft : fault) :
  length v = n -> order ≡ₚ order' ->
  run_tasks (f <$> seq 0 n) order v = inl ft ->
  exists j c ft0, v !! j = Some c /\ g j c = inl ft0 /\
    run_tasks (f <$> seq 0 n) order' v
    = inl match ft0 with Thrown e => Terminated e | _ => ft0 end.
Proof.
  intros Hlen Hperm Hrun.
  destruct (run_tasks (f <$> seq 0 n) order' v) as [ft'|v'] eqn:Hrun'.
  - apply (run_tasks_fault g f n f_slot g_again) in Hrun'
      as (j & c & ft0 & _ & Hc & Hg & ->); [|done].
    by exists j, c, ft0.
  - apply (run_tasks_reordered order' order) in Hrun'; [congruence|done|done].
Qed.

End slot_task_orders.

Section schedules.
Context `{Constants} `{Zlib}.

Lemma read_chunk_length (file_size : Z) (i : nat) (st st' : list ChunkData * ifstream) :
  read_chunk file_size i st = inr st' -> length st'.1 = length st.1.
Proof.
  destruct st as [chunks input]. unfold read_chunk, vector_at.
  destruct (chunks !! i) as [c|]; cbn [determinate bind]; [|done].
  destruct (read_loop _ _ _ _ _) as [[d input']|]; [|done].
  intros [= <-]. cbn [fst]. by rewrite length_insert.
Qed.

Lemma read_chunks_length (file_size num_chunks : Z) (input : ifstream) :
  length (read_chunks file_size num_chunks input).1.1 = Z.to_nat num_chunks.
Proof.
  unfold read_chunks.
  rewrite <- (length_replicate (Z.to_nat num_chunks) ChunkData_init) at 3.
  change (replicate (Z.to_nat num_chunks) ChunkData_init)
    with (replicate (Z.to_nat num_chunks) ChunkData_init, input).1 at 2.
  apply (for_each_invariant
           (fun s s' : list ChunkData * ifstream => length s'.1 = length s.1)).
  - done.
  - intros s1 s2 s3. congruence.
  - intros i s _. unfold pure_body.
    destruct (read_chunk file_size i s) as [ft|s'] eqn:Hread; [done|].
    by apply read_chunk_length in Hread.
Qed.

Lemma compress_file_read_length (input_path output_dir : string) (fs fs1 : filesystem)
    (file_size : Z) (chunks : list ChunkData) :
  compress_file_read input_path output_dir fs = (fs1, inr (file_size, chunks)) ->
  length chunks = Z.to_nat (size_t (file_size + CHUNK_SIZE - 1) / CHUNK_SIZE).
Proof.
  unfold compress_file_read.
  destruct (fs_exists fs input_path); cbn [negb]; [|done].
  destruct (create_directories output_dir fs) as [fs2 [f|]]; [done|].
  destruct (good (open_in _ input_path)); cbn [negb]; [|done].
  destruct (read_file fs2 input_path); [|done].
  set (nz := size_t _ / CHUNK_SIZE).
  pose proof (read_chunks_length (size (rest (open_in fs2 input_path))) nz
                (open_in fs2 input_path)) as Hlen.
  destruct (read_chunks _ nz _) as [[chunks' input] [ft|]]; [done|].
  cbn [fst] in Hlen. by intros [= _ <- <-].
Qed.

(** X3.  On two machines that each have at least one worker and run every
    queued task once, [compress_file] does the same: its block leaves the
    same file system in the same way, and the call ends the same way.  The
    order in which the workers complete the tasks cannot be observed. *)
Theorem compress_file_does_not_depend_on_the_schedule (M1 M2 : Machine)
    (input_path output_dir : string) (fs : filesystem) :
  @MachineOK M1 -> @MachineOK M2 ->
  @hardware_concurrency M1 <> 0%nat -> @hardware_concurrency M2 <> 0%nat ->
  @compress_file_body _ M1 _ input_path output_dir fs
  = @compress_file_body _ M2 _ input_path output_dir fs /\
  @compress_file _ M1 _ input_path output_dir fs
  = @compress_file _ M2 _ input_path output_dir fs.
Proof.
  intros HM1 HM2 Hhw1 Hhw2. unfold compress_file_body, compress_file.
  destruct (compress_file_read input_path output_dir fs)
    as [fs1 [ft|[file_size chunks]]] eqn:Hread; [done|].
  apply compress_file_read_length in Hread as Hlen.
  set (nz := size_t _ / CHUNK_SIZE) in *. cbv zeta.
  assert (Hsame : @compress_chunks _ M1 _ nz chunks = @compress_chunks _ M2 _ nz chunks);
    [|by rewrite Hsame].
  rewrite !compress_chunks_unfold, !decide_False by done.
  assert (Hperm : @completion_order M1 (Z.to_nat nz) ≡ₚ @completion_order M2 (Z.to_nat nz)).
  { by rewrite (@completion_order_perm M1 HM1), (@completion_order_perm M2 HM2). }
  destruct (run_tasks _ (@completion_order M1 _) chunks) as [ft|v'] eqn:Hrun.
  - apply (run_tasks_fault (fun _ => compress_slot) compress_task) in Hrun as Hft;
      eauto using compress_task_slot, compress_slot_again.
    destruct Hft as (j & c & ft0 & _ & _ & Hslot & ->).
    apply compress_slot_inl in Hslot as ->.
    apply (run_tasks_reordered_fault (fun _ => compress_slot) compress_task _
             (fun i => compress_task_slot i) (fun _ => compress_slot_again)
             _ (@completion_order M2 (Z.to_nat nz))) in Hrun
      as (j' & c' & ft0' & _ & Hslot' & Hrun'); [|done|done].
    apply compress_slot_inl in Hslot' as ->. symmetry. exact Hrun'.
  - symmetry.
    by apply (run_tasks_reordered (fun _ => compress_slot) compress_task _
                (fun i => compress_task_slot i) (fun _ => compress_slot_again)
                (@completion_order M1 (Z.to_nat nz))).
Qed.

(** X4.  If the block of [decompress_file] runs to its end on one machine
    with at least one worker, it runs to its end, leaving the same file
    system, on every other such machine.  (When a task fails, which task is
    reported can depend on the schedule.) *)
Theorem decompress_file_success_does_not_depend_on_the_schedule (M1 M2 : Machine)
    (chunks_dir output_path : string) (fs fs' : filesystem) :
  @MachineOK M1 -> @MachineOK M2 ->
  @hardware_concurrency M1 <> 0%nat -> @hardware_concurrency M2 <> 0%nat ->
  @decompress_file_body _ M1 _ chunks_dir output_path fs = (fs', None) ->
  @decompress_file_body _ M2 _ chunks_dir output_path fs = (fs', None).
Proof.
  intros HM1 HM2 Hhw1 Hhw2. unfold decompress_file_body.
  destruct (decompress_file_load chunks_dir output_path fs)
    as [ft|[[[chunk_files total] final] loaded]] eqn:Hload; [done|].
  assert (Hlen : length loaded = Z.to_nat total).
  { revert Hload. unfold decompress_file_load.
    destruct (directory_iterator fs chunks_dir) as [entries|]; [|done].
    case_decide; [done|].
    destruct (discover entries !! 0%nat) as [first|]; [|done].
    destruct (read_metadata (open_in fs first)) as [m0 s0].
    case_decide; [done|].
    destruct (filename_length m0) as [name_len|]; [|done].
    destruct (total_chunks m0) as [total'|]; [|done].
    destruct (load_chunks _ _ _) as [loaded' [ft|]] eqn:Hl; [done|].
    intros [= <- <- _ <-]. by apply load_chunks_flags in Hl as [Hlen _]. }
  destruct (@decompress_chunks M1 _ _ _ _ _) as [ft|drained] eqn:Hdrain; [done|].
  assert (Hsame : @decompress_chunks M2 _ fs chunk_files total loaded = inr drained);
    [|by rewrite Hsame].
  rewrite decompress_chunks_unfold, decide_False in Hdrain by done.
  rewrite decompress_chunks_unfold, decide_False by done.
  apply (run_tasks_reordered (decompress_slot fs chunk_files)
           (decompress_task fs chunk_files) _
           (decompress_task_slot fs chunk_files)
           (decompress_slot_again fs chunk_files)
           (@completion_order M1 (Z.to_nat total))); [done| |done].
  by rewrite (@completion_order_perm M1 HM1), (@completion_order_perm M2 HM2).
Qed.

End schedules.

(** ** The order in which a directory lists its entries *)

Lemma assoc_lookup_Some {A} (k : string) (v : A) (l : list (string * A)) :
  NoDup l.*1 -> assoc_lookup k l = Some v <-> (k, v) ∈ l.
Proof.
  induction l as [|[k' v'] l IH]; cbn [assoc_lookup fmap list_fmap fst].
  - intros _. split; [done|by intros ?%elem_of_nil].
  - intros [Hk' Hnd]%NoDup_cons. destruct (decide (k' = k)) as [->|Hne].
    + split; [intros [= ->]; left|].
      intros [[= ->]|Hin]%elem_of_cons; [done|].
      exfalso. apply Hk', list_elem_of_fmap. by exists (k, v).
    + rewrite (IH Hnd). split; [by right|].
      intros [[= -> ->]|Hin]%elem_of_cons; done.
Qed.

Lemma assoc_lookup_Permutation {A} (k : string) (l l' : list (string * A)) :
  NoDup l.*1 -> l ≡ₚ l' -> assoc_lookup k l = assoc_lookup k l'.
Proof.
  intros Hnd Hperm. assert (Hnd' : NoDup l'.*1) by (by rewrite <- Hperm).
  apply option_eq. intros v. rewrite !assoc_lookup_Some by done. by rewrite Hperm.
Qed.

Lemma assoc_insert_filter {A} (k : string) (v : A) (l : list (string * A)) :
  NoDup l.*1 -> assoc_insert k v l ≡ₚ (k, v) :: filter (fun e => e.1 <> k) l.
Proof.
  induction l as [|[k' v'] l IH]; cbn [assoc_insert fmap list_fmap fst]; [done|].
  intros [Hk' Hnd]%NoDup_cons. destruct (decide (k' = k)) as [->|Hne].
  - rewrite filter_cons_False by (cbn; by intros ?). f_equiv.
    rewrite filter_all; [done|]. intros [k0 v0] Hin. cbn. intros ->.
    apply Hk', list_elem_of_fmap. by exists (k, v0).
  - rewrite filter_cons_True by done. rewrite (IH Hnd). apply Permutation_swap.
Qed.

Lemma assoc_insert_Permutation {A} (k : string) (v : A) (l l' : list (string * A)) :
  NoDup l.*1 -> l ≡ₚ l' -> assoc_insert k v l ≡ₚ assoc_insert k v l'.
Proof.
  intros Hnd Hperm. assert (Hnd' : NoDup l'.*1) by (by rewrite <- Hperm).
  rewrite !assoc_insert_filter by done. by rewrite Hperm.
Qed.

Lemma assoc_insert_NoDup {A} (k : string) (v : A) (l : list (string * A)) :
  NoDup l.*1 -> NoDup (assoc_insert k v l).*1.
Proof.
  intros Hnd. rewrite assoc_insert_keys. case_decide; [done|].
  apply NoDup_app. split; [done|]. split; [|apply NoDup_singleton].
  intros x Hx ->%list_elem_of_singleton. done.
Qed.

Lemma same_entries_read_file (fs fs' : filesystem) (p : string) :
  same_entries fs fs' -> read_file fs p = read_file fs' p.
Proof. intros (Hf & Hnd & _). by apply assoc_lookup_Permutation. Qed.

Lemma same_entries_open_in (fs fs' : filesystem) (p : string) :
  same_entries fs fs' -> open_in fs p = open_in fs' p.
Proof.
  intros Hs. unfold open_in. rewrite (same_entries_read_file _ _ _ Hs).
  destruct Hs as (_ & _ & Hd & Hden). rewrite Hden.
  destruct (denied fs' p); [done|]. destruct (read_file fs' p); [done|].
  f_equal. apply bool_decide_ext. by rewrite Hd.
Qed.

Lemma same_entries_write_file (fs fs' : filesystem) (p : string) (content : list byte) :
  same_entries fs fs' ->
  match write_file p content fs, write_file p content fs' with
  | Some fs1, Some fs1' => same_entries fs1 fs1'
  | None, None => True
  | _, _ => False
  end.
Proof.
  intros (Hf & Hnd & Hd & Hden). unfold write_file. rewrite <- Hden.
  destruct (denied fs p); cbn [orb]; [done|].
  rewrite (bool_decide_ext (p ∈ dirs fs) (p ∈ dirs fs')) by (by rewrite Hd).
  destruct (bool_decide (p ∈ dirs fs') || bool_decide (p = "")); [done|].
  split; [by apply assoc_insert_Permutation|].
  split; [by apply assoc_insert_NoDup|]. done.
Qed.

Lemma same_entries_append_file (fs fs' : filesystem) (p : string) (bytes : list byte) :
  same_entries fs fs' -> same_entries (append_file p bytes fs) (append_file p bytes fs').
Proof.
  intros Hs. unfold append_file. rewrite (same_entries_read_file _ _ p Hs).
  destruct Hs as (Hf & Hnd & Hd & Hden).
  split; [by apply assoc_insert_Permutation|].
  split; [by apply assoc_insert_NoDup|]. done.
Qed.

Lemma for_each_related {St} (R : St -> St -> Prop) (body body' : nat -> St -> St * outcome)
    (l : list nat) (s s' : St) :
  (forall i s s', R s s' ->
     R (body i s).1 (body' i s').1 /\ (body i s).2 = (body' i s').2) ->
  R s s' ->
  R (for_each body l s).1 (for_each body' l s').1 /\
  (for_each body l s).2 = (for_each body' l s').2.
Proof.
  intros Hbody. revert s s'. induction l as [|i l IH]; intros s s' HR; [done|].
  cbn [for_each]. destruct (Hbody i s s' HR) as [HR1 Ho].
  destruct (body i s) as [s1 [ft|]], (body' i s') as [s1' [ft'|]];
    cbn [fst snd] in *; try done. by apply IH.
Qed.

Lemma run_tasks_ext {St} (f f' : nat -> task St) (l order : list nat) (s : St) :
  (forall i s, f i s = f' i s) ->
  run_tasks (f <$> l) order s = run_tasks (f' <$> l) order s.
Proof.
  intros Hf. revert s. induction order as [|j order IH]; intros s; [done|].
  cbn [run_tasks].
  assert (Hl : forall g : nat -> task St, (g <$> l) !! j = g <$> l !! j)
    by (intros; apply list_lookup_fmap).
  rewrite !Hl.
  destruct (l !! j) as [i|]; cbn [fmap option_fmap option_map]; [|apply IH].
  rewrite Hf. destruct (f' i s) as [[]|s1]; cbn [in_worker bind]; done || apply IH.
Qed.

Section listing_order.
Context `{Constants} `{Machine} `{Zlib}.

Lemma same_entries_directory_iterator (fs fs' : filesystem) (d : string) :
  same_entries fs fs' ->
  match directory_iterator fs d, directory_iterator fs' d with
  | Some entries, Some entries' => entries ≡ₚ entries'
  | None, None => True
  | _, _ => False
  end.
Proof.
  intros (Hf & _ & Hd & _). unfold directory_iterator.
  destruct (decide (d ∈ dirs fs)) as [Hin|Hin].
  - rewrite decide_True by (by rewrite <- Hd). by rewrite Hf, Hd.
  - by rewrite decide_False by (by rewrite <- Hd).
Qed.

Lemma same_entries_load_chunks (fs fs' : filesystem) (chunk_files : list string)
    (total : Z) :
  same_entries fs fs' ->
  load_chunks fs chunk_files total = load_chunks fs' chunk_files total.
Proof.
  intros Hs. unfold load_chunks.
  destruct (for_each_related eq (pure_body (load_chunk fs chunk_files))
              (pure_body (load_chunk fs' chunk_files))
              (seq 0 (Z.to_nat (Z.min (size chunk_files) total)))
              (replicate (Z.to_nat total) ChunkData_init)
              (replicate (Z.to_nat total) ChunkData_init)) as [Hst Hout]; [|done|].
  - intros i s ? <-. unfold pure_body, load_chunk.
    destruct (vector_at _ chunk_files i) as [ft|path]; cbn [bind]; [done|].
    by rewrite (same_entries_open_in _ _ path Hs).
  - by apply injective_projections.
Qed.

Lemma same_entries_decompress_chunks (fs fs' : filesystem) (chunk_files : list string)
    (total : Z) (v : list ChunkData) :
  same_entries fs fs' ->
  decompress_chunks fs chunk_files total v = decompress_chunks fs' chunk_files total v.
Proof.
  intros Hs. rewrite !decompress_chunks_unfold. case_decide; [done|].
  apply run_tasks_ext. intros i s. unfold decompress_task.
  destruct (vector_at _ chunk_files i) as [ft|path]; cbn [bind]; [done|].
  by rewrite (same_entries_open_in _ _ path Hs).
Qed.

Lemma same_entries_reassemble (fs fs' : filesystem) (p : string) (total : Z)
    (v : list ChunkData) :
  same_entries fs fs' ->
  same_entries (reassemble p total v fs).1 (reassemble p total v fs').1 /\
  (reassemble p total v fs).2 = (reassemble p total v fs').2.
Proof.
  intros Hs. unfold reassemble.
  pose proof (same_entries_write_file fs fs' p [] Hs) as Hopen.
  destruct (write_file p [] fs) as [fs0|], (write_file p [] fs') as [fs0'|]; try done.
  destruct (for_each_related
              (fun s s' : filesystem * list byte => same_entries s.1 s'.1 /\ s.2 = s'.2)
              (emit_chunk p v) (emit_chunk p v) (seq 0 (Z.to_nat total))
              (fs0, []) (fs0', [])) as [[Hst Hbuf] Hout]; [|done|].
  - intros i [fs1 b] [fs1' b'] [Hs1 Hb]. cbn [fst snd] in Hs1, Hb. subst b'.
    unfold emit_chunk. destruct (v !! i) as [c|]; [|done].
    destruct (processed c); cbn [negb fst snd]; [|done].
    generalize (data c). intros d. revert fs1 fs1' b Hs1.
    induction d as [|x d IH]; intros fs1 fs1' b Hs1; [done|].
    cbn [foldl].
    change (push_byte p (fs1, b) x)
      with (if decide (BUFFER_SIZE <= size (b ++ [x]))
            then (append_file p (b ++ [x]) fs1, []) else (fs1, b ++ [x])).
    change (push_byte p (fs1', b) x)
      with (if decide (BUFFER_SIZE <= size (b ++ [x]))
            then (append_file p (b ++ [x]) fs1', []) else (fs1', b ++ [x])).
    case_decide.
    + apply IH. by apply same_entries_append_file.
    + by apply IH.
  - destruct (for_each _ _ (fs0, [])) as [[fs1 b] [ft|]],
      (for_each _ _ (fs0', [])) as [[fs1' b'] [ft'|]]; cbn [fst snd] in *; try done.
    subst b'. case_decide; [|done]. split; [|done]. by apply same_entries_append_file.
Qed.

Lemma same_entries_decompress_file_load (chunks_dir output_path : string)
    (fs fs' : filesystem) :
  same_entries fs fs' ->
  decompress_file_load chunks_dir output_path fs
  = decompress_file_load chunks_dir output_path fs'.
Proof.
  intros Hs. unfold decompress_file_load.
  pose proof (same_entries_directory_iterator fs fs' chunks_dir Hs) as Hdir.
  destruct (directory_iterator fs chunks_dir) as [entries|],
    (directory_iterator fs' chunks_dir) as [entries'|]; try done.
  rewrite <- (discover_listing_order _ _ Hdir).
  assert (Hnil : filter (fun p => path_extension p = ".dchunk") entries = []
                 <-> filter (fun p => path_extension p = ".dchunk") entries' = []).
  { assert (Hf : filter (fun p => path_extension p = ".dchunk") entries
                 ≡ₚ filter (fun p => path_extension p = ".dchunk") entries')
      by (by apply filter_Permutation).
    split; intros Hn; rewrite Hn in Hf.
    - by apply Permutation_nil in Hf.
    - symmetry in Hf. by apply Permutation_nil in Hf. }
  destruct (decide (filter _ entries = [])) as [Hn|Hn].
  { by rewrite decide_True by (by apply Hnil). }
  rewrite decide_False by (by rewrite <- Hnil).
  destruct (discover entries !! 0%nat) as [first|]; [|done].
  rewrite <- (same_entries_open_in _ _ first Hs).
  destruct (read_metadata (open_in fs first)) as [m0 s0].
  case_decide; [done|].
  destruct (filename_length m0) as [name_len|]; [|done].
  destruct (total_chunks m0) as [total|]; [|done].
  by rewrite <- (same_entries_load_chunks _ _ _ _ Hs).
Qed.

(** X5.  [decompress_file] does not depend on the order in which the file
    system lists its entries: on two file systems with the same files,
    directories and refusals, control leaves its block in the same way, in
    file systems that again hold the same files. *)
Theorem decompress_file_does_not_depend_on_the_listing (chunks_dir output_path : string)
    (fs fs' : filesystem) :
  same_entries fs fs' ->
  (decompress_file_body chunks_dir output_path fs).2
  = (decompress_file_body chunks_dir output_path fs').2 /\
  same_entries (decompress_file_body chunks_dir output_path fs).1
               (decompress_file_body chunks_dir output_path fs').1.
Proof.
  intros Hs. unfold decompress_file_body.
  rewrite <- (same_entries_decompress_file_load _ _ _ _ Hs).
  destruct (decompress_file_load chunks_dir output_path fs)
    as [ft|[[[chunk_files total] final] loaded]]; [done|].
  rewrite <- (same_entries_decompress_chunks _ _ _ _ _ Hs).
  destruct (decompress_chunks _ _ _ _) as [ft|drained]; [done|].
  by destruct (same_entries_reassemble fs fs' final total drained Hs) as [Hst Hout].
Qed.

End listing_order.

(** * The pool, step by step *)

Section pool_machine_facts.
Context {St : Type}.
Lemma run_tasks_app (pool : ThreadPool St) (o1 o2 : list nat) (s : St) :
  run_tasks pool (o1 ++ o2) s = (let* s' := run_tasks pool o1 s in run_tasks pool o2 s').
Proof.
  revert s. induction o1 as [|j o1 IH]; intros s; [done|].
  cbn [app run_tasks]. destruct (_ !! j) as [f|]; [|apply IH].
  destruct (in_worker (f s)) as [ft|s1]; [done|]. apply IH.
Qed.

Lemma run_tasks_more_tasks (pool : ThreadPool St) (more : list (task St))
    (order : list nat) (s : St) :
  (forall j, j ∈ order -> (j < length pool)%nat) ->
  run_tasks (pool ++ more) order s = run_tasks pool order s.
Proof.
  revert s. induction order as [|j order IH]; intros s Hlt; [done|].
  cbn [run_tasks]. unfold ThreadPool. rewrite lookup_app_l by (apply Hlt; left).
  assert (Hrest : forall s, run_tasks (pool ++ more) order s = run_tasks pool order s).
  { intros s1. apply IH. intros i Hi. apply Hlt. by right. }
  destruct (_ !! j) as [f|]; [|apply Hrest].
  destruct (in_worker (f s)) as [ft|s1]; [done|]. apply Hrest.
Qed.

Lemma omap_insert_Some (run : list (option nat)) (w k : nat) :
  run !! w = Some None -> omap id (<[w := Some k]> run) ≡ₚ k :: omap id run.
Proof.
  revert w. induction run as [|r run IH]; intros [|w] Hw; try done.
  - cbn in Hw. injection Hw as ->. done.
  - cbn [insert list_insert]. destruct r as [j|]; cbn [omap list_omap id].
    + rewrite (IH w Hw). apply Permutation_swap.
    + apply (IH w Hw).
Qed.

Lemma omap_insert_None (run : list (option nat)) (w j : nat) :
  run !! w = Some (Some j) -> omap id run ≡ₚ j :: omap id (<[w := None]> run).
Proof.
  revert w. induction run as [|r run IH]; intros [|w] Hw; try done.
  - cbn in Hw. injection Hw as ->. done.
  - cbn [insert list_insert]. destruct r as [i|]; cbn [omap list_omap id].
    + rewrite (IH w Hw). apply Permutation_swap.
    + apply (IH w Hw).
Qed.

Lemma enqueued_app (hist sched : list (pool_event St)) :
  enqueued (hist ++ sched) = enqueued hist ++ enqueued sched.
Proof.
  induction hist as [|e hist IH]; [done|]. destruct e; cbn [app enqueued]; by rewrite ?IH.
Qed.

Lemma takes_app (hist sched : list (pool_event St)) :
  takes (hist ++ sched) = (takes hist + takes sched)%nat.
Proof.
  induction hist as [|e hist IH]; [done|]. destruct e; cbn [app takes]; by rewrite ?IH.
Qed.

Lemma worker_runs_more_tasks (pool more : ThreadPool St) (t : worker St)
    (r : option nat) :
  worker_runs pool t r -> worker_runs (pool ++ more) t r.
Proof.
  destruct t as [|f|], r as [j|]; cbn; try done. intros Hj. by apply lookup_app_l_Some.
Qed.

Lemma all_returned (pool : ThreadPool St) (ts : list (worker St))
    (run : list (option nat)) :
  Forall2 (worker_runs pool) ts run ->
  forallb (fun w => match w with Returned => true | _ => false end) ts = true ->
  omap id run = [].
Proof.
  induction 1 as [|t r ts run Htr _ IH]; [done|]. cbn [forallb].
  destruct t; try done. destruct r; [done|]. cbn [omap list_omap id]. apply IH.
Qed.

Lemma pool_invariant_new (n : nat) (s : St) :
  pool_invariant n s [] (ThreadPool_new n) s 0 [] (replicate n None).
Proof.
  split; [apply length_replicate|]. split.
  { cbn [ThreadPool_new threads]. induction n; cbn [replicate]; by constructor. }
  assert (Hrun : omap id (replicate n (@None nat)) = []) by (by induction n).
  rewrite Hrun. split; [done|]. split; [done|]. split; [cbn; lia|].
  split; [done|]. split; [done|].
  cbn [ThreadPool_new threads]. by intros [? _]%elem_of_replicate.
Qed.

(** One event keeps the invariant, or ends the process in the way a batch
    run in the order [done ++ [j]] does. *)
Lemma pool_step_invariant (n : nat) (s0 : St) (hist : list (pool_event St))
    (e : pool_event St) (st : pool_state St) (s : St)
    (k : nat) (done : list nat) (run : list (option nat)) :
  pool_invariant n s0 (enqueued hist) st s k done run -> takes hist = k ->
  match pool_step e st s with
  | None => True
  | Some (inr (st', s')) =>
      exists k' done' run',
        pool_invariant n s0 (enqueued (hist ++ [e])) st' s' k' done' run' /\
        takes (hist ++ [e]) = k'
  | Some (inl ft) =>
      exists j, NoDup (done ++ [j]) /\
        (forall i, i ∈ done ++ [j] -> (i < length (enqueued hist))%nat) /\
        run_tasks (enqueued hist) (done ++ [j]) s0 = inl ft /\
        enqueued (hist ++ [e]) = enqueued hist /\ n <> 0%nat
  end.
Proof.
  intros (Hn & Hruns & Hperm & Hq & Hk & Hdone & Hnone & Hret) Htakes.
  assert (Hlt : forall j, j ∈ done ++ omap id run -> (j < length (enqueued hist))%nat).
  { intros j Hj. rewrite Hperm in Hj. apply elem_of_seq in Hj. lia. }
  rewrite enqueued_app, takes_app, Htakes.
  destruct e as [f| |w|w|w]; cbn [pool_step enqueued takes].
  - (* Enqueue *)
    destruct (stop st) eqn:Hstop; [done|].
    exists k, done, run. split; [|lia].
    split; [done|]. split.
    { cbn [threads]. eapply Forall2_impl; [exact Hruns|].
      intros t r. apply worker_runs_more_tasks. }
    split; [done|]. split.
    { cbn [tasks]. rewrite Hq, drop_app_le by done. done. }
    split; [rewrite length_app; cbn; lia|]. split.
    { rewrite run_tasks_more_tasks; [done|].
      intros j Hj. apply Hlt, elem_of_app. by left. }
    split; [done|]. cbn [threads stop tasks]. intros Hr.
    destruct (Hret Hr) as [? _]. congruence.
  - (* Destroy *)
    destruct (stop st) eqn:Hstop; [done|].
    exists k, done, run. rewrite app_nil_r. split; [|lia].
    repeat split; try done. cbn [threads] in *. by apply Hret.
  - (* Take *)
    destruct (threads st !! w) as [[|f|]|] eqn:Hw; try done.
    destruct (tasks st) as [|f queue] eqn:Htasks; [done|].
    destruct (Forall2_lookup_l _ _ _ _ _ Hruns Hw) as (r & Hr & Hwr).
    destruct r as [j|]; [done|].
    assert (Hf : enqueued hist !! k = Some f).
    { rewrite <- (Nat.add_0_r k), <- lookup_drop, <- Hq. done. }
    apply lookup_lt_Some in Hf as Hk'.
    exists (S k), done, (<[w := Some k]> run). rewrite app_nil_r. split; [|lia].
    split; [cbn [threads]; by rewrite length_insert|]. split.
    { cbn [threads]. by apply Forall2_insert. }
    split.
    { rewrite omap_insert_Some by done. rewrite seq_S. cbn [plus].
      rewrite <- Hperm. rewrite <- Permutation_middle. apply Permutation_cons_append. }
    split.
    { cbn [tasks]. replace (S k) with (k + 1)%nat by lia.
      rewrite <- drop_drop, <- Hq. done. }
    split; [lia|]. split; [done|]. split.
    { cbn [threads]. intros Hnil. exfalso.
      apply (f_equal length) in Hnil. rewrite length_insert in Hnil.
      apply lookup_lt_Some in Hw. cbn in Hnil. lia. }
    cbn [threads stop tasks]. intros Hin. exfalso.
    apply list_elem_of_lookup in Hin as [w' Hw'].
    destruct (decide (w' = w)) as [->|Hne].
    + rewrite list_lookup_insert_eq in Hw' by (by eapply lookup_lt_Some). done.
    + rewrite list_lookup_insert_ne in Hw' by done.
      destruct Hret as [_ Hempty]; [by eapply list_elem_of_lookup_2|]. congruence.
  - (* Finish *)
    destruct (threads st !! w) as [[|f|]|] eqn:Hw; try done.
    destruct (Forall2_lookup_l _ _ _ _ _ Hruns Hw) as (r & Hr & Hwr).
    destruct r as [j|]; [|done]. cbn in Hwr.
    assert (Hj : omap id run ≡ₚ j :: omap id (<[w := None]> run))
      by (by apply omap_insert_None).
    assert (Hstep : run_tasks (enqueued hist) (done ++ [j]) s0
                    = (let* s' := in_worker (f s) in inr s')).
    { rewrite run_tasks_app, Hdone. cbn [bind run_tasks]. unfold ThreadPool, task in *.
      rewrite Hwr.
      by destruct (in_worker (f s)). }
    assert (Hn0 : n <> 0%nat).
    { apply lookup_lt_Some in Hw. lia. }
    assert (Hperm' : (done ++ [j]) ++ omap id (<[w := None]> run) ≡ₚ seq 0 k).
    { rewrite <- Hperm, Hj, <- app_assoc. done. }
    destruct (in_worker (f s)) as [ft|s'] eqn:Hfs; cbn [bind] in *.
    + exists j. rewrite app_nil_r.
      assert (Hnd : NoDup ((done ++ [j]) ++ omap id (<[w := None]> run)))
        by (rewrite Hperm'; apply NoDup_seq).
      apply NoDup_app in Hnd as (Hnd & _ & _).
      split; [done|]. split; [|done].
      intros i Hi. assert (Hin : i ∈ seq 0 k).
      { rewrite <- Hperm'. apply elem_of_app. by left. }
      apply elem_of_seq in Hin. lia.
    + exists k, (done ++ [j]), (<[w := None]> run). rewrite app_nil_r. split; [|lia].
      split; [cbn [threads]; by rewrite length_insert|]. split.
      { cbn [threads]. by apply Forall2_insert. }
      split; [done|]. split; [done|]. split; [done|]. split; [done|]. split.
      { cbn [threads]. intros Hnil. exfalso.
        apply (f_equal length) in Hnil. rewrite length_insert in Hnil.
        apply lookup_lt_Some in Hw. cbn in Hnil. lia. }
      cbn [threads stop tasks]. intros Hin. apply Hret.
      apply list_elem_of_lookup in Hin as [w' Hw'].
      destruct (decide (w' = w)) as [->|Hne].
      * rewrite list_lookup_insert_eq in Hw' by (by eapply lookup_lt_Some). done.
      * rewrite list_lookup_insert_ne in Hw' by done. by eapply list_elem_of_lookup_2.
  - (* Return *)
    destruct (threads st !! w) as [[|f|]|] eqn:Hw; try done.
    destruct (tasks st) as [|f queue] eqn:Htasks; [|done].
    destruct (stop st) eqn:Hstop; [|done].
    destruct (Forall2_lookup_l _ _ _ _ _ Hruns Hw) as (r & Hr & Hwr).
    destruct r as [j|]; [done|].
    exists k, done, run. rewrite app_nil_r. split; [|lia].
    split; [cbn [threads]; by rewrite length_insert|]. split.
    { cbn [threads]. rewrite <- (list_insert_id run w None) by done.
      by apply Forall2_insert. }
    split; [done|]. split; [done|]. split; [done|].
    split; [done|]. split; [|done].
    cbn [threads]. intros Hnil. exfalso.
    apply (f_equal length) in Hnil. rewrite length_insert in Hnil.
    apply lookup_lt_Some in Hw. cbn in Hnil. lia.
Qed.

(** The same for a whole execution. *)
Lemma pool_run_invariant (n : nat) (s0 : St) (sched : list (pool_event St)) :
  forall (hist : list (pool_event St)) (st : pool_state St) (s : St)
         (k : nat) (done : list nat) (run : list (option nat)),
  pool_invariant n s0 (enqueued hist) st s k done run -> takes hist = k ->
  match pool_run sched st s with
  | None => True
  | Some (inr (st', s')) =>
      exists k' done' run',
        pool_invariant n s0 (enqueued (hist ++ sched)) st' s' k' done' run' /\
        takes (hist ++ sched) = k'
  | Some (inl ft) =>
      exists order, NoDup order /\
        (forall i, i ∈ order -> (i < length (enqueued (hist ++ sched)))%nat) /\
        run_tasks (enqueued (hist ++ sched)) order s0 = inl ft /\ n <> 0%nat
  end.
Proof.
  induction sched as [|e sched IH]; intros hist st s k done run Hinv Htakes.
  - cbn [pool_run]. rewrite app_nil_r. by exists k, done, run.
  - cbn [pool_run].
    pose proof (pool_step_invariant n s0 hist e st s k done run Hinv Htakes) as Hstep.
    destruct (pool_step e st s) as [[ft|[st1 s1]]|]; [| |done].
    + destruct sched; [|done]. destruct Hstep as (j & Hnd & Hlt & Hrun & Henq & Hn0).
      exists (done ++ [j]). rewrite Henq. done.
    + destruct Hstep as (k1 & done1 & run1 & Hinv1 & Htakes1).
      specialize (IH (hist ++ [e]) st1 s1 k1 done1 run1 Hinv1 Htakes1).
      by rewrite <- app_assoc in IH.
Qed.

End pool_machine_facts.

Lemma complete_order (order : list nat) (m : nat) :
  NoDup order -> (forall i, i ∈ order -> (i < m)%nat) ->
  order ++ filter (fun i => i ∉ order) (seq 0 m) ≡ₚ seq 0 m.
Proof.
  intros Hnd Hlt. apply NoDup_Permutation.
  - apply NoDup_app. split; [done|]. split.
    + by intros i Hi [Hni _]%list_elem_of_filter.
    + apply NoDup_filter, NoDup_seq.
  - apply NoDup_seq.
  - intros i. rewrite elem_of_app, list_elem_of_filter, elem_of_seq. split.
    + intros [Hi|[_ Hi]]; [|done]. specialize (Hlt i Hi). lia.
    + intros Hi. destruct (decide (i ∈ order)); [by left|by right].
Qed.

Section pool_and_drain.
Context {St : Type}.

(** X20.  The pool as the destructor leaves it.  In every execution of a
    pool of [n] threads that reaches the point where all threads are joined,
    the shared state is the one [drain] computes for the enqueued tasks on
    some machine with [n] workers that completes every queued task exactly
    once; with at least one worker, [stop] is set and the queue is empty. *)
Theorem pool_join_runs_every_task_once (n : nat) (sched : list (pool_event St))
    (s s' : St) (st' : pool_state St) :
  pool_run sched (ThreadPool_new n) s = Some (inr (st', s')) ->
  joined st' = true ->
  exists M : Machine,
    @hardware_concurrency M = n /\ @MachineOK M /\
    @drain St M (enqueued sched) s = inr s' /\
    (n <> 0%nat -> stop st' = true /\ tasks st' = []).
Proof.
  intros Hrun Hjoin.
  pose proof (pool_run_invariant n s sched [] (ThreadPool_new n) s 0 [] (replicate n None)
                (pool_invariant_new n s) eq_refl) as Hinv.
  rewrite Hrun in Hinv. cbn [app] in Hinv.
  destruct Hinv as (k & done & run & (Hn & Hruns & Hperm & Hq & Hk & Hdone & Hnone & Hret) & _).
  rewrite (all_returned _ _ _ Hruns Hjoin), app_nil_r in Hperm.
  destruct (decide (n = 0%nat)) as [->|Hn0].
  - exists {| hardware_concurrency := 0; completion_order := seq 0 |}.
    split; [done|]. split; [by constructor|]. split; [|done].
    unfold drain. cbn [hardware_concurrency]. rewrite decide_True by done.
    rewrite Hnone in Hdone by (by apply nil_length_inv). cbn in Hdone. congruence.
  - assert (Hin : Returned ∈ threads st').
    { destruct (threads st') as [|t ts] eqn:Hts; [cbn in Hn; lia|].
      unfold joined in Hjoin. rewrite Hts in Hjoin. cbn [forallb] in Hjoin.
      destruct t; try done. left. }
    destruct (Hret Hin) as [Hstop Hempty].
    assert (Hk' : k = length (enqueued sched)).
    { rewrite Hempty in Hq. apply (f_equal length) in Hq.
      rewrite length_drop in Hq. cbn in Hq. lia. }
    exists {| hardware_concurrency := n;
              completion_order := fun m => if decide (m = length (enqueued sched))
                                           then done else seq 0 m |}.
    split; [done|]. split.
    { constructor. intros m. cbn [completion_order]. case_decide; [|done]. by subst. }
    split; [|done].
    unfold drain. cbn [hardware_concurrency completion_order].
    rewrite decide_False, decide_True by done. done.
Qed.

(** X21.  An execution of the pool that a task ends by throwing ends the
    way [drain] does on the same tasks, whatever else would have been
    enqueued, on some machine with that many workers that completes every
    task once: the exception leaves the worker and the process is
    terminated. *)
Theorem pool_fault_is_a_drain_fault (n : nat) (sched : list (pool_event St))
    (s : St) (ft : fault) (more : list (task St)) :
  pool_run sched (ThreadPool_new n) s = Some (inl ft) ->
  exists M : Machine,
    @hardware_concurrency M = n /\ @MachineOK M /\
    @drain St M (enqueued sched ++ more) s = inl ft.
Proof.
  intros Hrun.
  pose proof (pool_run_invariant n s sched [] (ThreadPool_new n) s 0 [] (replicate n None)
                (pool_invariant_new n s) eq_refl) as Hinv.
  rewrite Hrun in Hinv. cbn [app] in Hinv.
  destruct Hinv as (order & Hnd & Hlt & Hfault & Hn0).
  set (m := length (enqueued sched ++ more)).
  assert (Hlt' : forall i, i ∈ order -> (i < m)%nat).
  { intros i Hi. specialize (Hlt i Hi). unfold m. rewrite length_app. lia. }
  exists {| hardware_concurrency := n;
            completion_order := fun m' => if decide (m' = m)
                                          then order ++ filter (fun i => i ∉ order) (seq 0 m)
                                          else seq 0 m' |}.
  split; [done|]. split.
  { constructor. intros m'. cbn [completion_order]. case_decide as Hm; [|done].
    rewrite Hm. by apply complete_order. }
  unfold drain. cbn [hardware_concurrency completion_order].
  rewrite decide_False, decide_True by done.
  rewrite run_tasks_app, run_tasks_more_tasks by done. by rewrite Hfault.
Qed.

(** X22.  At every point of an execution of the pool, the queue holds the
    tasks enqueued so far without the first [k], where [k] is the number of
    tasks the workers have taken: tasks leave the queue in the order they
    entered it, each at most once, and a task that is running is one of
    those [k]. *)
Theorem pool_queue_is_first_in_first_out (n : nat) (sched : list (pool_event St))
    (s s' : St) (st' : pool_state St) :
  pool_run sched (ThreadPool_new n) s = Some (inr (st', s')) ->
  (takes sched <= length (enqueued sched))%nat /\
  tasks st' = drop (takes sched) (enqueued sched) /\
  forall w f, threads st' !! w = Some (Running f) ->
    exists j, (j < takes sched)%nat /\ enqueued sched !! j = Some f.
Proof.
  intros Hrun.
  pose proof (pool_run_invariant n s sched [] (ThreadPool_new n) s 0 [] (replicate n None)
                (pool_invariant_new n s) eq_refl) as Hinv.
  rewrite Hrun in Hinv. cbn [app] in Hinv.
  destruct Hinv as (k & done & run & (Hn & Hruns & Hperm & Hq & Hk & _) & ->).
  split; [done|]. split; [done|]. intros w f Hw.
  destruct (Forall2_lookup_l _ _ _ _ _ Hruns Hw) as (r & Hr & Hwr).
  destruct r as [j|]; [|done]. exists j. split; [|done].
  assert (Hin : j ∈ seq 0 k).
  { rewrite <- Hperm. apply elem_of_app. right.
    apply list_elem_of_omap. exists (Some j). split; [|done].
    by eapply list_elem_of_lookup_2. }
  apply elem_of_seq in Hin. lia.
Qed.

End pool_and_drain.

(** * main *)

Section main_facts.
Context `{Constants} `{Machine} `{Zlib}.

(** X23.  [main] never returns 0.  Whenever it returns, its status is 1;
    and a compression or a decompression whose block runs to its end, with
    every chunk record or the output file written, ends with the second
    destruction of the pool, not with [return 0]. *)
Theorem main_never_returns_zero (argv : list string) (fs : filesystem) :
  (forall status fs', main argv fs = Exit status fs' -> status = 1) /\
  (forall program mode input_path output_dir more fs',
     argv = program :: mode :: input_path :: output_dir :: more ->
     mode = "-c" \/ mode = "--compress" ->
     compress_file_body input_path output_dir fs = (fs', None) ->
     main argv fs = Abnormal (Unknown "pool.~ThreadPool() twice")) /\
  (forall program mode chunks_dir more fs',
     argv = program :: mode :: chunks_dir :: more ->
     mode = "-d" \/ mode = "--decompress" ->
     decompress_file_body chunks_dir (default "" (head more)) fs = (fs', None) ->
     main argv fs = Abnormal (Unknown "pool.~ThreadPool() twice")).
Proof.
  assert (Hmodes : forall mode, (mode = "-c" \/ mode = "--compress") ->
                     (mode = "-d" \/ mode = "--decompress") -> False).
  { by intros mode [-> | ->] [? | ?]. }
  split; [|split].
  - intros status fs'. unfold main, usage, print_usage, try_catch.
    repeat case_decide;
      repeat match goal with
      | |- context [argv !! ?i] => destruct (argv !! i)
      | |- context [compress_file ?a ?b ?c] =>
          pose proof (compress_file_never_returns a b c);
          destruct (compress_file a b c)
      | |- context [decompress_file ?a ?b ?c] =>
          pose proof (decompress_file_never_returns a b c);
          destruct (decompress_file a b c)
      end; cbn; try done; try (intros [= <- <-]; done); try (by intros [= <- _]).
    all: match goal with Hn : forall fs0, _ <> Returns fs0 |- _ => by destruct (Hn _ eq_refl) end.
  - intros program mode input_path output_dir more fs' -> Hmode Hrun.
    unfold main. rewrite decide_False by (cbn [length]; lia).
    cbn [lookup list_lookup from_option id].
    rewrite decide_True by done. rewrite decide_False by (cbn [length]; lia).
    cbn [lookup list_lookup from_option id].
    by rewrite (compress_file_body_end _ _ _ _ Hrun).
  - intros program mode chunks_dir more fs' -> Hmode Hrun.
    unfold main. rewrite decide_False by (cbn [length]; lia).
    cbn [lookup list_lookup from_option id].
    rewrite decide_False by (intros Hc; by eapply Hmodes).
    rewrite decide_True by done. rewrite decide_False by (cbn [length]; lia).
    match goal with
    | |- context [decompress_file chunks_dir ?o fs] =>
        assert (Hout : o = default "" (head more));
          [destruct more; [done|]; by rewrite decide_True by (cbn [length]; lia)|]
    end.
    rewrite Hout. by rewrite (decompress_file_body_end _ _ _ _ Hrun).
Qed.

(** X24.  [main] never lets an exception escape: when it returns, its
    status is 0 or 1, and it fails to return only when a worker ended the
    process, a loop does not end, or the behaviour is undefined or left to
    the platform.  With fewer than three arguments, with a compress mode
    and a single path, or with an unknown mode, it returns 1 and leaves the
    file system alone. *)
Theorem main_ends_with_status_one_or_abnormally (argv : list string) (fs : filesystem) :
  match main argv fs with
  | Exit status _ => status = 0 \/ status = 1
  | Abnormal (Returns _) => False
  | Abnormal (Throws _ _) => False
  | Abnormal _ => True
  end /\
  (forall program more, argv = program :: more ->
     (length argv < 3)%nat \/
     (exists arg2, argv = [program; "-c"; arg2] \/ argv = [program; "--compress"; arg2]) \/
     (exists mode, more !! 0%nat = Some mode /\
        mode <> "-c" /\ mode <> "--compress" /\ mode <> "-d" /\ mode <> "--decompress") ->
     main argv fs = Exit 1 fs).
Proof.
  split.
  - unfold main, usage, print_usage, try_catch.
    repeat case_decide;
      repeat match goal with
      | |- context [argv !! ?i] => destruct (argv !! i)
      | |- context [compress_file ?a ?b ?c] => destruct (compress_file a b c)
      | |- context [decompress_file ?a ?b ?c] => destruct (decompress_file a b c)
      end; cbn; auto.
  - intros program more -> Hbad. unfold main, usage, print_usage.
    cbn [lookup list_lookup].
    destruct Hbad as [Hlen|[(arg2 & [[= ->]|[= ->]])|(mode & Hmode & H1' & H2' & H3' & H4')]].
    + by rewrite decide_True by lia.
    + done.
    + done.
    + destruct more as [|mode' more]; [done|]. injection Hmode as ->.
      case_decide; [done|]. cbn [lookup list_lookup from_option id].
      rewrite decide_False by (by intros [?|?]).
      by rewrite decide_False by (by intros [?|?]).
Qed.

End main_facts.

(** * The build constants *)

Section zero_chunks.
Context `{Constants} `{Machine} `{Zlib}.


End zero_chunks.

Section build_constants.
Context `{Machine} `{Zlib}.

Lemma compress_file_read_buffer_size (C1 C2 : Constants)
    (input_path output_dir : string) (fs : filesystem) :
  @ConstantsOK C1 -> @ConstantsOK C2 ->
  @CHUNK_SIZE C1 = @CHUNK_SIZE C2 ->
  (forall content, read_file fs input_path = Some content ->
     size content + @CHUNK_SIZE C1 <= 2 ^ 64) ->
  @compress_file_read C1 input_path output_dir fs
  = @compress_file_read C2 input_path output_dir fs.
Proof.
  intros HC1 HC2 Hchunk Hsize.
  destruct (read_file fs input_path) as [content|] eqn:Hin.
  - pose proof (Hsize content eq_refl) as Hsz1.
    assert (Hsz2 : size content + @CHUNK_SIZE C2 <= 2 ^ 64) by (by rewrite <- Hchunk).
    rewrite (@compress_file_read_file C1 HC1 _ _ content fs Hin Hsz1).
    rewrite (@compress_file_read_file C2 HC2 _ _ content fs Hin Hsz2).
    cbv zeta. clear Hsize Hsz1 Hsz2 HC1 HC2.
    destruct C1 as [d1 c1 b1 l1], C2 as [d2 c2 b2 l2].
    cbn [CHUNK_SIZE] in Hchunk. subst c2. reflexivity.
  - pose proof (read_file_create_directories output_dir input_path fs) as Hin1.
    rewrite Hin in Hin1. unfold compress_file_read.
    destruct (fs_exists fs input_path); cbn [negb]; [|done].
    destruct (create_directories output_dir fs) as [fs1 [f|]]; cbn [fst] in *; [done|].
    destruct (good (open_in fs1 input_path)); cbn [negb]; [|done].
    by rewrite Hin1.
Qed.

(** X6.  Two builds of [compress_file] that agree on [CHUNK_SIZE] and
    [COMPRESSION_LEVEL] do the same: the block leaves the same file system
    in the same way, and the call ends the same way.  [BUFFER_SIZE] (and
    [DISCORD_MAX_SIZE], which the program never uses) cannot be observed. *)
Theorem compress_file_does_not_depend_on_the_buffer_size (C1 C2 : Constants)
    (input_path output_dir : string) (fs : filesystem) :
  @ConstantsOK C1 -> @ConstantsOK C2 ->
  @CHUNK_SIZE C1 = @CHUNK_SIZE C2 -> @COMPRESSION_LEVEL C1 = @COMPRESSION_LEVEL C2 ->
  (forall content, read_file fs input_path = Some content ->
     size content + @CHUNK_SIZE C1 <= 2 ^ 64) ->
  @compress_file_body C1 _ _ input_path output_dir fs
  = @compress_file_body C2 _ _ input_path output_dir fs /\
  @compress_file C1 _ _ input_path output_dir fs
  = @compress_file C2 _ _ input_path output_dir fs.
Proof.
  intros HC1 HC2 Hchunk Hlevel Hsize.
  unfold compress_file_body, compress_file.
  rewrite (compress_file_read_buffer_size C1 C2 _ _ _ HC1 HC2 Hchunk Hsize).
  destruct C1 as [d1 c1 b1 l1], C2 as [d2 c2 b2 l2].
  cbn [CHUNK_SIZE COMPRESSION_LEVEL] in Hchunk, Hlevel. subst c2 l2. split; reflexivity.
Qed.

(** The reassembly leaves its block at its end, by an exception, or by
    indexing the slots out of range. *)
Lemma reassemble_fault `{Constants} (final : string) (total : Z) (chunks : list ChunkData)
    (fs : filesystem) (ft : fault) :
  (reassemble final total chunks fs).2 = Some ft ->
  (exists e, ft = Thrown e) \/ (exists why, ft = Undefined why).
Proof.
  unfold reassemble. destruct (write_file final [] fs) as [fs0|].
  2:{ intros [= <-]. left. by eexists. }
  destruct (for_each _ _ (fs0, [])) as [[fs1 buffer] [ft1|]] eqn:Hloop.
  - cbn [snd]. intros [= ->].
    apply (for_each_outcome
             (fun ft => (exists e, ft = Thrown e) \/ (exists why, ft = Undefined why))
             (emit_chunk final chunks) (seq 0 (Z.to_nat total)) (fs0, []) ft);
      [|by rewrite Hloop].
    intros i st ft0 _. unfold emit_chunk.
    destruct (chunks !! i) as [c|]; [|intros [= <-]; right; by eexists].
    destruct (processed c); [done|]. intros [= <-]. left. by eexists.
  - by case_decide.
Qed.

Lemma pool_destroyed_again_reassemble `{Constants} (final : string) (total : Z)
    (chunks : list ChunkData) (fs : filesystem) :
  pool_destroyed_again (reassemble final total chunks fs)
  = match (reassemble final total chunks fs).2 with
    | Some (Undefined why) => Unknown why
    | _ => Unknown "pool.~ThreadPool() twice"
    end.
Proof.
  pose proof (reassemble_fault final total chunks fs) as Hft.
  destruct (reassemble final total chunks fs) as [fs' [ft|]]; [|done].
  destruct (Hft ft eq_refl) as [[e ->]|[why ->]]; done.
Qed.

Lemma emit_loop_outcome (C1 C2 : Constants) (p : string) (v : list ChunkData)
    (l : list nat) (st st' : filesystem * list byte) :
  (for_each (@emit_chunk C1 p v) l st).2 = (for_each (@emit_chunk C2 p v) l st').2.
Proof.
  apply (for_each_related (fun _ _ => True)); [|done].
  intros i s s' _. split; [done|]. unfold emit_chunk.
  destruct (v !! i) as [c|]; [|done]. by destruct (processed c).
Qed.

(** X7.  [decompress_file] does not depend on the constants it was built
    with: in two builds control leaves the block in the same way and, when
    that is at its end, with the same bytes in every file, and the call
    ends the same way.  A chunk set can be reassembled by a build with
    another [CHUNK_SIZE] or [BUFFER_SIZE]. *)
Theorem decompress_file_does_not_depend_on_the_build_constants (C1 C2 : Constants)
    (chunks_dir output_path : string) (fs : filesystem) :
  let r1 := @decompress_file_body C1 _ _ chunks_dir output_path fs in
  let r2 := @decompress_file_body C2 _ _ chunks_dir output_path fs in
  r1.2 = r2.2 /\
  (r1.2 = None -> forall q, read_file r1.1 q = read_file r2.1 q) /\
  @decompress_file C1 _ _ chunks_dir output_path fs
  = @decompress_file C2 _ _ chunks_dir output_path fs.
Proof.
  intros r1 r2. unfold r1, r2, decompress_file, decompress_file_body.
  destruct (decompress_file_load chunks_dir output_path fs)
    as [ft|[[[chunk_files total] final] loaded]]; [done|].
  destruct (decompress_chunks _ _ _ _) as [ft|drained]; [done|].
  assert (Hout : (@reassemble C1 final total drained fs).2
                 = (@reassemble C2 final total drained fs).2).
  { unfold reassemble. destruct (write_file final [] fs) as [fs0|]; [|done].
    pose proof (emit_loop_outcome C1 C2 final drained (seq 0 (Z.to_nat total))
                  (fs0, []) (fs0, [])) as Hloop.
    destruct (for_each (@emit_chunk C1 _ _) _ _) as [[fs1 b1] [ft1|]],
      (for_each (@emit_chunk C2 _ _) _ _) as [[fs2 b2] [ft2|]];
      cbn [snd] in Hloop; try done.
    by repeat case_decide. }
  split; [done|]. split.
  2:{ by rewrite !pool_destroyed_again_reassemble, Hout. }
  intros Hnone q.
  destruct (@reassemble C1 final total drained fs) as [fs1 o1] eqn:Hre1.
  destruct (@reassemble C2 final total drained fs) as [fs2 o2] eqn:Hre2.
  cbn [fst snd] in *.
  assert (Ho2 : o2 = None) by congruence. clear Hout. subst o1 o2.
  apply reassemble_returns in Hre1 as (_ & Hp1 & Hq1 & _).
  apply reassemble_returns in Hre2 as (_ & Hp2 & Hq2 & _).
  destruct (decide (final = q)) as [<-|Hne]; [congruence|].
  by rewrite Hq1, Hq2.
Qed.

End build_constants.

(** * The program on concrete inputs *)

Lemma small_constants_ok (c b : Z) :
  0 < c < 2 ^ 64 -> 0 < b < 2 ^ 64 -> @ConstantsOK (small_constants c b).
Proof. intros Hc Hb. by split. Qed.

Lemma source_constants_ok : @ConstantsOK source_constants.
Proof. split; unfold CHUNK_SIZE, BUFFER_SIZE, source_constants; lia. Qed.

Lemma fifo_machine_ok (hw : nat) : @MachineOK (fifo_machine hw).
Proof. split. intros n. reflexivity. Qed.

Lemma lifo_machine_ok (hw : nat) : @MachineOK (lifo_machine hw).
Proof. split. intros n. simpl. by rewrite reverse_Permutation. Qed.

Lemma reference_zlib_laws : @ZlibLaws reference_zlib.
Proof.
  split.
  - intros d level c. cbn [compress2 reference_zlib]. unfold stored_compress2.
    case_decide; [|done]. intros [= <-]. unfold size in *. cbn [length]. lia.
  - intros d level c cap. cbn [compress2 uncompress reference_zlib].
    unfold stored_compress2, stored_uncompress.
    case_decide; [|done]. intros [= <-] Hcap. by rewrite decide_True.
  - done.
Qed.

(** The reference CRC-32 on the standard check string. *)
Example crc32_reference_check :
  crc32_reference (bytes_of_string "123456789") = 3421780262.
Proof. vm_compute. reflexivity. Qed.

(** Eleven bytes in chunks of four: three records, which decompress to the
    input whichever way the directory lists them. *)
Example three_chunks_roundtrip :
  (@compress_file_body (small_constants 4 3) (fifo_machine 2) reference_zlib
     video "out" (single_file video hello)).2 = None /\
  (@decompress_file_body (small_constants 4 3) (fifo_machine 2) reference_zlib
     "out" "restored" three_chunks).2 = None /\
  read_file (@decompress_file_body (small_constants 4 3) (fifo_machine 2) reference_zlib
               "out" "restored" three_chunks).1 "restored" = Some hello /\
  read_file (@decompress_file_body (small_constants 4 3) (lifo_machine 2) reference_zlib
               "out" "restored"
               (with_files (reverse (files three_chunks)) three_chunks)).1 "restored"
  = Some hello.
Proof. vm_compute. repeat split; reflexivity. Qed.

(** C1 (the round trip breaks from ten chunks on).  Nineteen bytes in
    chunks of two give ten records, all written when control reaches the end
    of the block of [compress_file].  Sorted, "chunk_10_of_10" comes first,
    so the task for slot 0 checks the payload of chunk 0 against the header
    of chunk 9: the expected size is one byte, the chunk has two, and
    decompression fails inside the worker.  The process is terminated and no
    output file is produced. *)
Theorem roundtrip_breaks_at_ten_chunks :
  (@compress_file_body (small_constants 2 3) (fifo_machine 2) reference_zlib
     video "out" (single_file video nineteen)).2 = None /\
  @decompress_file (small_constants 2 3) (fifo_machine 2) reference_zlib
    "out" "restored" ten_chunks
  = Terminates (runtime_error "Decompression failed") ten_chunks /\
  @decompress_file (small_constants 2 3) (lifo_machine 2) reference_zlib
    "out" "restored" ten_chunks
  = Terminates (runtime_error "CRC32 checksum mismatch for chunk 9") ten_chunks /\
  read_file ten_chunks "restored" = None.
Proof. vm_compute. repeat split; reflexivity. Qed.

(** C2 (listing order).  The discovery list is sorted, so the listing order
    itself never matters; but for the ten-chunk set the sorted order is not
    the index order, and the set fails to decompress whether the directory
    lists it by index, in reverse, or already sorted. *)
Theorem ten_chunk_set_fails_in_every_listing :
  discover ((files ten_chunks).*1)
  = ["out/chunk_10_of_10.dchunk"; "out/chunk_1_of_10.dchunk";
     "out/chunk_2_of_10.dchunk"; "out/chunk_3_of_10.dchunk";
     "out/chunk_4_of_10.dchunk"; "out/chunk_5_of_10.dchunk";
     "out/chunk_6_of_10.dchunk"; "out/chunk_7_of_10.dchunk";
     "out/chunk_8_of_10.dchunk"; "out/chunk_9_of_10.dchunk"] /\
  discover (reverse (files ten_chunks).*1) = discover ((files ten_chunks).*1) /\
  @decompress_file (small_constants 2 3) (fifo_machine 2) reference_zlib
    "out" "restored" (with_files (reverse (files ten_chunks)) ten_chunks)
  = Terminates (runtime_error "Decompression failed")
      (with_files (reverse (files ten_chunks)) ten_chunks) /\
  @decompress_file (small_constants 2 3) (fifo_machine 2) reference_zlib
    "out" "restored"
    (with_files (merge_sort (fun a b => String.le a.1 b.1) (files ten_chunks)) ten_chunks)
  = Terminates (runtime_error "Decompression failed")
      (with_files (merge_sort (fun a b => String.le a.1 b.1) (files ten_chunks))
         ten_chunks).
Proof. vm_compute. repeat split; reflexivity. Qed.

(** C3 (the checksum that is compared).  A task compares the CRC-32 of the
    bytes it decompressed from slot [i] with the checksum stored in the file
    at position [i] of the sorted list, which need not be the record that
    slot [i] was loaded from.  So the intact ten-chunk set, in which every
    record carries the checksum of its own payload, is rejected with a
    mismatch reported for chunk 9; and a pair of records of which each
    carries the checksum of the other's payload, and not of its own, is
    accepted and written to the output. *)
Theorem checksum_is_compared_with_another_record :
  forallb (@self_consistent reference_zlib)
    (filter (fun e => path_extension e.1 = ".dchunk") (files ten_chunks)).*2 = true /\
  length (filter (fun e => path_extension e.1 = ".dchunk") (files ten_chunks)) = 10%nat /\
  @decompress_file (small_constants 2 3) (lifo_machine 2) reference_zlib
    "out" "restored" ten_chunks
  = Terminates (runtime_error "CRC32 checksum mismatch for chunk 9") ten_chunks /\
  (@self_consistent reference_zlib <$> (files crossed_pair).*2) = [false; false] /\
  (@decompress_file_body (small_constants 8 3) (fifo_machine 2) reference_zlib
     "out" "restored" crossed_pair).2 = None /\
  read_file (@decompress_file_body (small_constants 8 3) (fifo_machine 2) reference_zlib
               "out" "restored" crossed_pair).1 "restored" = Some hello.
Proof. vm_compute. repeat split; reflexivity. Qed.

(** C7 (the magic tag).  Only the header of the first file of the sorted
    list is compared with "DCHUNKV1".  A second record whose first eight
    bytes are overwritten is read, decompressed and written to the output
    all the same, and control reaches the end of the block; the same damage
    to the first record is reported. *)
Theorem magic_checked_on_first_file_only :
  take 8 (default [] (read_file (replace_file "out/chunk_2_of_2.dchunk" spoil_magic two_chunks)
                        "out/chunk_2_of_2.dchunk"))
  = bytes_of_string "XXXXXXXX" /\
  (@decompress_file_body (small_constants 8 3) (fifo_machine 2) reference_zlib
     "out" "restored"
     (replace_file "out/chunk_2_of_2.dchunk" spoil_magic two_chunks)).2 = None /\
  read_file (@decompress_file_body (small_constants 8 3) (fifo_machine 2) reference_zlib
               "out" "restored"
               (replace_file "out/chunk_2_of_2.dchunk" spoil_magic two_chunks)).1
    "restored" = Some hello /\
  @decompress_file (small_constants 8 3) (fifo_machine 2) reference_zlib
    "out" "restored"
    (replace_file "out/chunk_1_of_2.dchunk" spoil_magic two_chunks)
  = Throws (runtime_error "Invalid chunk file format")
      (replace_file "out/chunk_1_of_2.dchunk" spoil_magic two_chunks).
Proof. vm_compute. repeat split; reflexivity. Qed.

(** ** Instances of the general statements *)

Lemma compress_file_index_invariant_witness :
  read_file (single_file video hello) video = Some hello /\
  size hello + 4 <= 2 ^ 64 /\
  @compress_file_body (small_constants 4 3) (fifo_machine 2) reference_zlib
    video "out" (single_file video hello) = (three_chunks, None) /\
  sum_Z ((fun i : nat =>
            default 0 (uncompressed_chunk_size
                         (header_of (default [] (read_file three_chunks
                                                   (@chunk_filename "out" i 3))))))
           <$> seq 0 3) = 11.
Proof.
  assert (H1 : read_file (single_file video hello) video = Some hello) by reflexivity.
  assert (H2 : size hello + 4 <= 2 ^ 64) by (vm_compute; discriminate).
  assert (H3 : @compress_file_body (small_constants 4 3) (fifo_machine 2) reference_zlib
                 video "out" (single_file video hello) = (three_chunks, None))
    by (vm_compute; reflexivity).
  split; [exact H1|]. split; [exact H2|]. split; [exact H3|].
  pose proof (@compress_file_index_invariant (small_constants 4 3) (fifo_machine 2)
                reference_zlib (small_constants_ok 4 3 ltac:(lia) ltac:(lia))
                video "out" hello (single_file video hello) three_chunks H1 H2 H3) as HT.
  cbv zeta in HT. destruct HT as (_ & _ & _ & _ & Hsum). exact Hsum.
Defined.

Lemma compress_file_record_layout_witness :
  read_file (single_file video hello) video = Some hello /\
  size hello + 4 <= 2 ^ 64 /\
  @compress_file_body (small_constants 4 3) (fifo_machine 2) reference_zlib
    video "out" (single_file video hello) = (three_chunks, None) /\
  (1 < 3)%nat /\
  exists payload header,
    stored_compress2 (bytes_of_string "o wo") 6 = Some payload /\
    header = magic_tag ++ le_bytes 4 1 ++ le_bytes 4 3 ++ le_bytes 8 11 ++ le_bytes 8 4
             ++ le_bytes 8 (size payload) ++ le_bytes 4 9
             ++ le_bytes 4 (uint32_t (crc32_reference (bytes_of_string "o wo"))) /\
    size header = 48 /\
    read_file three_chunks "out/chunk_2_of_3.dchunk"
    = Some (header ++ bytes_of_string "video.mp4" ++ payload).
Proof.
  assert (H1 : read_file (single_file video hello) video = Some hello) by reflexivity.
  assert (H2 : size hello + 4 <= 2 ^ 64) by (vm_compute; discriminate).
  assert (H3 : @compress_file_body (small_constants 4 3) (fifo_machine 2) reference_zlib
                 video "out" (single_file video hello) = (three_chunks, None))
    by (vm_compute; reflexivity).
  assert (H4 : (1 < 3)%nat) by lia.
  split; [exact H1|]. split; [exact H2|]. split; [exact H3|]. split; [exact H4|].
  exact (@compress_file_record_layout (small_constants 4 3) (fifo_machine 2)
           reference_zlib (small_constants_ok 4 3 ltac:(lia) ltac:(lia))
           video "out" hello (single_file video hello) three_chunks 1%nat H1 H2 H3 H4).
Defined.


Lemma unset_flag_error_is_not_delivered_witness :
  read_file (single_file video hello) video = Some hello /\
  denied (single_file video hello) video = false /\
  size hello + 4 <= 2 ^ 64 /\
  (create_directories "out" (single_file video hello)).2 = None /\
  @compress_chunks (small_constants 4 3) (fifo_machine 0) reference_zlib 3
    (@chunks_read (small_constants 4 3) hello 3 3)
  = inr (@chunks_read (small_constants 4 3) hello 3 3) /\
  (exists i c, @chunks_read (small_constants 4 3) hello 3 3 !! i = Some c /\
     processed c = false) /\
  @compress_file_body (small_constants 4 3) (fifo_machine 0) reference_zlib
    video "out" (single_file video hello)
  = ((create_directories "out" (single_file video hello)).1,
     Some (Thrown (runtime_error "Chunk processing failed"))) /\
  @compress_file (small_constants 4 3) (fifo_machine 0) reference_zlib
    video "out" (single_file video hello)
  = Unknown "pool.~ThreadPool() twice".
Proof.
  assert (H1 : read_file (single_file video hello) video = Some hello) by reflexivity.
  assert (H2 : denied (single_file video hello) video = false) by reflexivity.
  assert (H3 : size hello + 4 <= 2 ^ 64) by (vm_compute; discriminate).
  assert (H3' : (create_directories "out" (single_file video hello)).2 = None)
    by reflexivity.
  assert (H4 : @compress_chunks (small_constants 4 3) (fifo_machine 0) reference_zlib 3
                 (@chunks_read (small_constants 4 3) hello 3 3)
               = inr (@chunks_read (small_constants 4 3) hello 3 3)) by reflexivity.
  assert (H5 : exists i c, @chunks_read (small_constants 4 3) hello 3 3 !! i = Some c /\
                 processed c = false)
    by (exists 0%nat; eexists; split; reflexivity).
  split; [exact H1|]. split; [exact H2|]. split; [exact H3|]. split; [exact H3'|].
  split; [exact H4|]. split; [exact H5|].
  destruct (@unset_flag_error_is_not_delivered (small_constants 4 3) (fifo_machine 0)
              reference_zlib (small_constants_ok 4 3 ltac:(lia) ltac:(lia))
              (fifo_machine_ok 0) video "out" hello (single_file video hello)
              (@chunks_read (small_constants 4 3) hello 3 3) H1 H2 H3 H3' H4 H5)
    as (_ & _ & Hbody & _ & Hcall & _).
  split; [exact Hbody|exact Hcall].
Defined.

Lemma worker_reads_discovery_list_at_its_index_witness :
  (length (filter (fun p => path_extension p = ".dchunk")
             ["out/chunk_1_of_3.dchunk"; "out/chunk_2_of_3.dchunk"]) < 3)%nat /\
  exists i, (i < 3)%nat /\
    discover ["out/chunk_1_of_3.dchunk"; "out/chunk_2_of_3.dchunk"] !! i = None /\
    forall v, @decompress_task reference_zlib three_chunks
                (discover ["out/chunk_1_of_3.dchunk"; "out/chunk_2_of_3.dchunk"]) i v
              = inl (Undefined "chunk_files[i]").
Proof.
  assert (H1 : (length (filter (fun p => path_extension p = ".dchunk")
                          ["out/chunk_1_of_3.dchunk"; "out/chunk_2_of_3.dchunk"]) < 3)%nat)
    by (vm_compute; lia).
  split; [exact H1|].
  exact (proj2 (proj2 (proj2 (@worker_reads_discovery_list_at_its_index
                                (fifo_machine 2) reference_zlib three_chunks
                                ["out/chunk_1_of_3.dchunk"; "out/chunk_2_of_3.dchunk"] 3)))
           H1).
Defined.

Lemma empty_file_compress_does_not_return_witness :
  read_file (single_file "in/empty.bin" []) "in/empty.bin" = Some [] /\
  denied (single_file "in/empty.bin" []) "in/empty.bin" = false /\
  (create_directories "out" (single_file "in/empty.bin" [])).2 = None /\
  @compress_file_body (small_constants 4 3) (fifo_machine 2) reference_zlib
    "in/empty.bin" "out" (single_file "in/empty.bin" [])
  = ((create_directories "out" (single_file "in/empty.bin" [])).1, None) /\
  @decompress_file (small_constants 4 3) (fifo_machine 2) reference_zlib
    "out" "restored" (create_directories "out" (single_file "in/empty.bin" [])).1
  = Throws (runtime_error "No chunk files found in directory")
      (create_directories "out" (single_file "in/empty.bin" [])).1 /\
  @compress_file (small_constants 4 3) (fifo_machine 2) reference_zlib
    "in/empty.bin" "out" (single_file "in/empty.bin" [])
  = Unknown "pool.~ThreadPool() twice".
Proof.
  assert (H1 : read_file (single_file "in/empty.bin" []) "in/empty.bin" = Some [])
    by reflexivity.
  assert (H2 : denied (single_file "in/empty.bin" []) "in/empty.bin" = false)
    by reflexivity.
  assert (H2' : (create_directories "out" (single_file "in/empty.bin" [])).2 = None)
    by reflexivity.
  assert (H3 : forall p,
             p ∈ (files (single_file "in/empty.bin" [])).*1
                 ++ dirs (single_file "in/empty.bin" []) ->
             child_of "out" p = true -> path_extension p <> ".dchunk").
  { intros p Hp Hchild. simpl in Hp. apply list_elem_of_singleton in Hp. subst p.
    vm_compute in Hchild. discriminate. }
  split; [exact H1|]. split; [exact H2|]. split; [exact H2'|].
  destruct (@empty_file_compress_does_not_return (small_constants 4 3) (fifo_machine 2)
              reference_zlib (small_constants_ok 4 3 ltac:(lia) ltac:(lia))
              "in/empty.bin" "out" "restored" (single_file "in/empty.bin" []) H1 H2 H2' H3)
    as (_ & Hc & _ & _ & Hd & Hcall & _).
  split; [exact Hc|]. split; [exact Hd|exact Hcall].
Defined.

(** ** Instances of the further statements *)

Lemma roundtrip_up_to_nine_chunks_witness :
  exists fs1 fs2,
    @compress_file_body (small_constants 4 3) (fifo_machine 2) reference_zlib
      video "out" (single_file video hello) = (fs1, None) /\
    @decompress_file_body (small_constants 4 3) (fifo_machine 2) reference_zlib
      "out" "restored" fs1 = (fs2, None) /\
    read_file fs2 "restored" = Some hello /\
    @compress_file (small_constants 4 3) (fifo_machine 2) reference_zlib
      video "out" (single_file video hello) = Unknown "pool.~ThreadPool() twice" /\
    @decompress_file (small_constants 4 3) (fifo_machine 2) reference_zlib
      "out" "restored" fs1 = Unknown "pool.~ThreadPool() twice".
Proof.
  apply (@roundtrip_up_to_nine_chunks (small_constants 4 3) (fifo_machine 2)
           reference_zlib (small_constants_ok 4 3 ltac:(lia) ltac:(lia))
           (fifo_machine_ok 2) reference_zlib_laws
           video "out" "restored" hello (single_file video hello)).
  - reflexivity.
  - reflexivity.
  - simpl. lia.
  - vm_compute. discriminate.
  - vm_compute. reflexivity.
  - reflexivity.
  - vm_compute. split; discriminate.
  - intros i Hi. split; [|reflexivity].
    do 3 (destruct i as [|i]; [by eexists|]). vm_compute in Hi. lia.
  - intros p Hp Hchild. simpl in Hp. apply list_elem_of_singleton in Hp. subst p.
    vm_compute in Hchild. discriminate.
  - reflexivity.
  - vm_compute. intros Hin. apply list_elem_of_singleton in Hin. discriminate.
  - discriminate.
Defined.

Lemma write_chunks_stops_at_first_unset_witness :
  exists fs',
    @write_chunks reference_zlib "video.mp4" "out" 8 2 half_done
      (create_directories "out" (single_file video hello)).1
    = (fs', Some (Thrown (runtime_error "Chunk processing failed"))) /\
    forall i, (i < 1)%nat -> exists ci, half_done !! i = Some ci /\
      read_file fs' (chunk_filename "out" i 2)
      = Some (@chunk_record reference_zlib "video.mp4" 8 2 i (data ci) (compressed_data ci)).
Proof.
  apply (@write_chunks_stops_at_first_unset reference_zlib "video.mp4" "out" 8 half_done
           2 1 ChunkData_init (create_directories "out" (single_file video hello)).1).
  - lia.
  - lia.
  - intros i Hi. destruct i as [|i]; [|lia]. by eexists.
  - reflexivity.
  - reflexivity.
  - intros i Hi. destruct i as [|i]; [|lia]. split; [reflexivity|].
    vm_compute. intros Hin. apply list_elem_of_singleton in Hin. discriminate.
Defined.

Lemma first_mismatch_ends_the_process_witness :
  @decompress_chunks (fifo_machine 2) reference_zlib ten_chunks
    (discover (files ten_chunks).*1) 10 ten_loaded
  = inl (Terminated (runtime_error "Decompression failed")).
Proof.
  apply (@first_mismatch_ends_the_process (fifo_machine 2) reference_zlib ten_chunks
           (discover (files ten_chunks).*1) 10 ten_loaded [] (seq 1 9) 0
           (default ChunkData_init (ten_loaded !! 0%nat)) "Decompression failed").
  - discriminate.
  - vm_compute. reflexivity.
  - reflexivity.
  - intros j cj Hj. destruct (not_elem_of_nil _ Hj).
  - vm_compute. reflexivity.
  - vm_compute. reflexivity.
Defined.

Lemma fewer_files_than_chunks_never_returns_witness :
  @decompress_file_body (small_constants 4 3) (fifo_machine 2) reference_zlib
    "out" "restored" two_of_three
  <> (two_of_three, None) /\
  @decompress_file (small_constants 4 3) (fifo_machine 2) reference_zlib
    "out" "restored" two_of_three
  <> Returns two_of_three.
Proof.
  apply (@fewer_files_than_chunks_never_returns (small_constants 4 3) (fifo_machine 2)
           reference_zlib "out" "restored" two_of_three two_of_three
           ["out/chunk_1_of_3.dchunk"; "out/chunk_2_of_3.dchunk"]
           "out/chunk_1_of_3.dchunk" 3).
  - vm_compute. reflexivity.
  - vm_compute. reflexivity.
  - vm_compute. reflexivity.
  - vm_compute. reflexivity.
Defined.

Lemma header_roundtrip_witness :
  exists bs,
    metadata_bytes {| magic := magic_tag; chunk_index := Some 1; total_chunks := Some 3;
                      original_file_size := Some 11; uncompressed_chunk_size := Some 4;
                      compressed_size := Some 5; filename_length := Some 9;
                      crc32_checksum := Some 4294967295 |} = Some bs /\
    size bs = sizeof_ChunkMetadata /\
    read_metadata (Ifstream (bs ++ bytes_of_string "video.mp4") true)
    = ({| magic := magic_tag; chunk_index := Some 1; total_chunks := Some 3;
          original_file_size := Some 11; uncompressed_chunk_size := Some 4;
          compressed_size := Some 5; filename_length := Some 9;
          crc32_checksum := Some 4294967295 |},
       Ifstream (bytes_of_string "video.mp4") true).
Proof.
  apply (header_roundtrip 1 3 11 4 5 9 4294967295 (bytes_of_string "video.mp4")); lia.
Defined.



Lemma read_chunks_partition_witness :
  exists v s,
    @read_chunks (small_constants 4 3) (size hello) 3 (Ifstream hello true) = ((v, s), None) /\
    size v = 3 /\ rest s = [] /\ concat (data <$> v) = hello /\
    forall i c, v !! i = Some c ->
      index c = Z.of_nat i /\ 0 < size (data c) <= 4 /\
      (Z.of_nat i + 1 < 3 -> size (data c) = 4) /\
      compressed_data c = [] /\ processed c = false.
Proof.
  apply (@read_chunks_partition (small_constants 4 3)
           (small_constants_ok 4 3 ltac:(lia) ltac:(lia)) hello).
  vm_compute. discriminate.
Defined.

Lemma compress_file_writes_only_chunk_files_witness :
  described (@compress_file_body (small_constants 4 3) (fifo_machine 2) reference_zlib
               video "out" (single_file video hello)).2 /\
  forall q, (forall i n, q <> chunk_filename "out" i n) ->
    read_file three_chunks q = read_file (single_file video hello) q.
Proof.
  assert (H1 : described (@compress_file_body (small_constants 4 3) (fifo_machine 2)
                            reference_zlib video "out" (single_file video hello)).2)
    by (vm_compute; exact I).
  split; [exact H1|].
  exact (proj2 (proj2 (proj2 (proj2
           (@compress_file_writes_only_chunk_files (small_constants 4 3) (fifo_machine 2)
              reference_zlib video "out" (single_file video hello) H1))))).
Defined.


Lemma decompress_file_writes_only_the_output_witness :
  described (@decompress_file_body (small_constants 4 3) (fifo_machine 2) reference_zlib
               "out" "restored" three_chunks).2 /\
  dirs (@decompress_file_body (small_constants 4 3) (fifo_machine 2) reference_zlib
          "out" "restored" three_chunks).1 = dirs three_chunks.
Proof.
  assert (H1 : described (@decompress_file_body (small_constants 4 3) (fifo_machine 2)
                            reference_zlib "out" "restored" three_chunks).2)
    by (vm_compute; exact I).
  split; [exact H1|].
  exact (proj1 (@decompress_file_writes_only_the_output (small_constants 4 3)
                  (fifo_machine 2) reference_zlib "out" "restored" three_chunks H1)).
Defined.


Lemma compress_file_does_not_depend_on_the_schedule_witness :
  @compress_file_body (small_constants 4 3) (fifo_machine 2) reference_zlib
    video "out" (single_file video hello)
  = @compress_file_body (small_constants 4 3) (lifo_machine 3) reference_zlib
      video "out" (single_file video hello) /\
  @compress_file (small_constants 4 3) (fifo_machine 2) reference_zlib
    video "out" (single_file video hello)
  = @compress_file (small_constants 4 3) (lifo_machine 3) reference_zlib
      video "out" (single_file video hello).
Proof.
  apply (@compress_file_does_not_depend_on_the_schedule (small_constants 4 3)
           reference_zlib (fifo_machine 2) (lifo_machine 3) video "out"
           (single_file video hello) (fifo_machine_ok 2) (lifo_machine_ok 3));
    discriminate.
Defined.

Lemma decompress_file_success_does_not_depend_on_the_schedule_witness :
  @decompress_file_body (small_constants 4 3) (lifo_machine 3) reference_zlib
    "out" "restored" three_chunks
  = ((@decompress_file_body (small_constants 4 3) (fifo_machine 2) reference_zlib
        "out" "restored" three_chunks).1, None).
Proof.
  apply (@decompress_file_success_does_not_depend_on_the_schedule (small_constants 4 3)
           reference_zlib (fifo_machine 2) (lifo_machine 3) "out" "restored" three_chunks
           _ (fifo_machine_ok 2) (lifo_machine_ok 3)); [discriminate|discriminate|].
  vm_compute. reflexivity.
Defined.

Lemma decompress_file_does_not_depend_on_the_listing_witness :
  (@decompress_file_body (small_constants 4 3) (fifo_machine 2) reference_zlib
     "out" "restored" three_chunks).2
  = (@decompress_file_body (small_constants 4 3) (fifo_machine 2) reference_zlib
       "out" "restored" (with_files (reverse (files three_chunks)) three_chunks)).2 /\
  same_entries
    (@decompress_file_body (small_constants 4 3) (fifo_machine 2) reference_zlib
       "out" "restored" three_chunks).1
    (@decompress_file_body (small_constants 4 3) (fifo_machine 2) reference_zlib
       "out" "restored" (with_files (reverse (files three_chunks)) three_chunks)).1.
Proof.
  apply (@decompress_file_does_not_depend_on_the_listing (small_constants 4 3)
           (fifo_machine 2) reference_zlib "out" "restored" three_chunks
           (with_files (reverse (files three_chunks)) three_chunks)).
  split; [|split; [|split]].
  - cbn [with_files files]. symmetry. apply reverse_Permutation.
  - apply (bool_decide_unpack (NoDup (files three_chunks).*1)). vm_compute. reflexivity.
  - reflexivity.
  - reflexivity.
Defined.

Lemma pool_join_runs_every_task_once_witness :
  exists M : Machine,
    @hardware_concurrency M = 2%nat /\ @MachineOK M /\
    @drain nat M (enqueued two_tasks_joined) 0%nat = inr 2%nat /\
    (2%nat <> 0%nat ->
     stop (@PoolState nat [Returned; Returned] [] true) = true /\
     tasks (@PoolState nat [Returned; Returned] [] true) = @nil (task nat)).
Proof.
  apply (@pool_join_runs_every_task_once nat 2 two_tasks_joined 0%nat 2%nat
           (@PoolState nat [Returned; Returned] [] true)); reflexivity.
Defined.

Lemma pool_fault_is_a_drain_fault_witness :
  exists M : Machine,
    @hardware_concurrency M = 2%nat /\ @MachineOK M /\
    @drain nat M (enqueued second_task_fails ++ [count_up]) 0%nat
    = inl (Terminated (runtime_error "task failed")).
Proof.
  apply (@pool_fault_is_a_drain_fault nat 2 second_task_fails 0%nat
           (Terminated (runtime_error "task failed")) [count_up]).
  reflexivity.
Defined.

Lemma pool_queue_is_first_in_first_out_witness :
  (takes (take 4 two_tasks_joined) <= length (enqueued (take 4 two_tasks_joined)))%nat /\
  tasks (@PoolState nat [Running count_up; Running count_up] [] false)
  = drop (takes (take 4 two_tasks_joined)) (enqueued (take 4 two_tasks_joined)) /\
  forall w f,
    threads (@PoolState nat [Running count_up; Running count_up] [] false) !! w
    = Some (Running f) ->
    exists j, (j < takes (take 4 two_tasks_joined))%nat /\
      enqueued (take 4 two_tasks_joined) !! j = Some f.
Proof.
  apply (@pool_queue_is_first_in_first_out nat 2 (take 4 two_tasks_joined) 0%nat 0%nat
           (@PoolState nat [Running count_up; Running count_up] [] false)).
  reflexivity.
Defined.


Lemma compress_file_does_not_depend_on_the_buffer_size_witness :
  @compress_file_body (small_constants 4 3) (fifo_machine 2) reference_zlib
    video "out" (single_file video hello)
  = @compress_file_body (small_constants 4 1024) (fifo_machine 2) reference_zlib
      video "out" (single_file video hello) /\
  @compress_file (small_constants 4 3) (fifo_machine 2) reference_zlib
    video "out" (single_file video hello)
  = @compress_file (small_constants 4 1024) (fifo_machine 2) reference_zlib
      video "out" (single_file video hello).
Proof.
  apply (@compress_file_does_not_depend_on_the_buffer_size (fifo_machine 2) reference_zlib
           (small_constants 4 3) (small_constants 4 1024) video "out"
           (single_file video hello)
           (small_constants_ok 4 3 ltac:(lia) ltac:(lia))
           (small_constants_ok 4 1024 ltac:(lia) ltac:(lia))).
  - reflexivity.
  - reflexivity.
  - intros content Hin. vm_compute in Hin. injection Hin as <-. vm_compute. discriminate.
Defined.
